(** * PackageHelm: the values-merge-and-package entrypoint

    A shallow embedding of [entrypoint.py] and the properties of its
    input handling, deep merge, command builder, path helpers, artifact
    discovery and run sequence.

    Conventions.
    - A Python [str] is a [list ascii]: a sequence of code points, here the
      code points below 256.  [lit "..."] turns a literal into one.
    - A function that can raise returns a [result]: [Ok v] or [Err msg],
      where [msg] is the text of the exception.
    - A values document (what [yaml.safe_load] returns) is a [value]; a
      Python [dict] is an association list in insertion order whose keys
      are pairwise distinct ([wf_value]).  Keys are strings, as the keys
      of a chart's values are; floating-point scalars are left out.
    - The file system is a map from the components of an absolute normal
      path to a file or a directory; what the run does to it is threaded
      through a [world], next to the trace of the run's effects.
    - Libraries and programs outside [entrypoint.py] that the run calls
      (the semver and YAML parsers, the download of the tool, the tool
      itself, directory listing) are the fields of a [host]. *)

From Stdlib Require Import String Ascii ZArith Lia Bool Arith List.
Import ListNotations.

Set Implicit Arguments.
Set Warnings "-register-all".

(* ------------------------------------------------------------------ *)
(** ** Strings *)

Definition str := list ascii.

Definition lit (s : string) : str := list_ascii_of_string s.

Fixpoint str_eqb (a b : str) : bool :=
  match a, b with
  | [], [] => true
  | x :: a', y :: b' => Ascii.eqb x y && str_eqb a' b'
  | _, _ => false
  end.

Fixpoint str_in (k : str) (l : list str) : bool :=
  match l with
  | [] => false
  | x :: l' => str_eqb k x || str_in k l'
  end.

Fixpoint str_nodup (l : list str) : bool :=
  match l with
  | [] => true
  | x :: l' => negb (str_in x l') && str_nodup l'
  end.

(** Errors are raised exceptions; the payload is the message. *)
Inductive result (A : Type) : Type :=
| Ok (a : A)
| Err (msg : str).
Arguments Ok {A} a.
Arguments Err {A} msg.

Definition bind {A B : Type} (r : result A) (k : A -> result B) : result B :=
  match r with
  | Ok a => k a
  | Err e => Err e
  end.

Notation "'do' x <- r ; k" := (bind r (fun x => k))
  (at level 10, x name, r at level 100, k at level 200).

(* ------------------------------------------------------------------ *)
(** ** Values documents *)

Inductive value : Type :=
| VNull
| VBool (b : bool)
| VInt (z : Z)
| VStr (s : str)
| VSeq (items : list value)
| VMap (entries : list (str * value)).

Definition dict := list (str * value).

(** [d.get(k)], and [k in d] as [dict_get k d <> None]. *)
Fixpoint dict_get (k : str) (d : dict) : option value :=
  match d with
  | [] => None
  | (k', v) :: d' => if str_eqb k k' then Some v else dict_get k d'
  end.

(** [d[k] = v]: an existing key keeps its position, a new key goes last. *)
Fixpoint dict_set (k : str) (v : value) (d : dict) : dict :=
  match d with
  | [] => [(k, v)]
  | (k', v') :: d' =>
      if str_eqb k k' then (k', v) :: d' else (k', v') :: dict_set k v d'
  end.

Definition dict_keys (d : dict) : list str := map fst d.

(** Every mapping of the document has pairwise distinct keys. *)
Fixpoint wf_value (v : value) : bool :=
  match v with
  | VSeq items => forallb wf_value items
  | VMap entries =>
      str_nodup (map fst entries)
      && forallb (fun e => wf_value (snd e)) entries
  | _ => true
  end.

(** [deep_merge_values(base, override)].  The loop over [override.items()]
    is the [fold_left]; its accumulator is [merged]. *)
Fixpoint deep_merge_values (base override : value) {struct override} : value :=
  match base, override with
  | VMap b, VMap o =>
      VMap (fold_left
              (fun (merged : dict) (kv : str * value) =>
                 match dict_get (fst kv) merged with
                 | Some mv =>
                     dict_set (fst kv) (deep_merge_values mv (snd kv)) merged
                 | None => dict_set (fst kv) (snd kv) merged
                 end)
              o b)
  | _, _ => override
  end.

(** One iteration of the loop body. *)
Definition merge_step (merged : dict) (kv : str * value) : dict :=
  match dict_get (fst kv) merged with
  | Some mv => dict_set (fst kv) (deep_merge_values mv (snd kv)) merged
  | None => dict_set (fst kv) (snd kv) merged
  end.

(** Python's [==] on documents: mappings compare as sets of items,
    sequences element by element, [True == 1] and [False == 0]. *)
Fixpoint py_eq (a b : value) {struct a} : bool :=
  match a, b with
  | VNull, VNull => true
  | VBool x, VBool y => Bool.eqb x y
  | VBool x, VInt y => Z.eqb (if x then 1 else 0) y
  | VInt x, VBool y => Z.eqb x (if y then 1 else 0)
  | VInt x, VInt y => Z.eqb x y
  | VStr x, VStr y => str_eqb x y
  | VSeq xs, VSeq ys =>
      (fix go (xs : list value) (ys : list value) : bool :=
         match xs, ys with
         | [], [] => true
         | x :: xs', y :: ys' => py_eq x y && go xs' ys'
         | _, _ => false
         end) xs ys
  | VMap xs, VMap ys =>
      Nat.eqb (length xs) (length ys)
      && forallb (fun e => match dict_get (fst e) ys with
                           | Some y => py_eq (snd e) y
                           | None => false
                           end) xs
  | _, _ => false
  end.

(** The documents of the repository's merge test. *)
Definition test_base : value :=
  VMap [ (lit "a", VInt 1);
         (lit "nested", VMap [ (lit "x", VInt 1); (lit "keep", VStr (lit "k")) ]);
         (lit "lst", VSeq [VInt 1; VInt 2]) ].

Definition test_override : value :=
  VMap [ (lit "nested", VMap [ (lit "x", VInt 9); (lit "y", VInt 2) ]);
         (lit "lst", VSeq [VInt 3]);
         (lit "b", VInt 2) ].

Definition test_expected : value :=
  VMap [ (lit "a", VInt 1);
         (lit "b", VInt 2);
         (lit "nested", VMap [ (lit "x", VInt 9); (lit "y", VInt 2);
                               (lit "keep", VStr (lit "k")) ]);
         (lit "lst", VSeq [VInt 3]) ].

(** What the merged mapping holds at key [k]. *)
Definition merged_at (k : str) (b o : dict) : option value :=
  match dict_get k b, dict_get k o with
  | Some bv, Some ov => Some (deep_merge_values bv ov)
  | Some bv, None => Some bv
  | None, Some ov => Some ov
  | None, None => None
  end.

(* ------------------------------------------------------------------ *)
(** ** String methods *)

(** [c.isspace()] for a code point below 256: TAB..CR, FS..US, space,
    NEL and the no-break space. *)
Definition py_isspace (c : ascii) : bool :=
  let n := nat_of_ascii c in
  ((9 <=? n) && (n <=? 13)) || ((28 <=? n) && (n <=? 32))
  || (n =? 133) || (n =? 160).

Fixpoint lstrip (s : str) : str :=
  match s with
  | c :: s' => if py_isspace c then lstrip s' else s
  | [] => []
  end.

Definition rstrip (s : str) : str := rev (lstrip (rev s)).

(** [s.strip()]. *)
Definition strip (s : str) : str := rstrip (lstrip s).

(** [s.startswith(p)]. *)
Fixpoint startswith (p s : str) : bool :=
  match p, s with
  | [], _ => true
  | x :: p', y :: s' => Ascii.eqb x y && startswith p' s'
  | _ :: _, [] => false
  end.

(** Case mapping of the ASCII letters.  [lower] is [s.lower()] where the
    program uses it: on text that is compared with ASCII words or that is
    made of hexadecimal digits.  [upper] is the capitalisation of the
    ASCII letters; properties are stated with it. *)
Definition upper_char (c : ascii) : ascii :=
  let n := nat_of_ascii c in
  if (97 <=? n) && (n <=? 122) then ascii_of_nat (n - 32) else c.

Definition lower_char (c : ascii) : ascii :=
  let n := nat_of_ascii c in
  if (65 <=? n) && (n <=? 90) then ascii_of_nat (n + 32) else c.

Definition upper (s : str) : str := map upper_char s.
Definition lower (s : str) : str := map lower_char s.

(** [s.upper()] on the whole alphabet.  Beyond the ASCII letters the
    library maps the small letters of Latin-1 (code points 224 to 254
    but the division sign, 247) to their capitals 32 places before, and
    the sharp s (223) to the two letters [SS].  The capitals of the micro
    sign (181) and of the y with diaeresis (255) are U+039C and U+0178,
    which are no characters of the alphabet: a string that holds one of
    the two has no capitalisation among the strings here, and is left as
    it is. *)
Definition py_upper_char (c : ascii) : str :=
  let n := nat_of_ascii c in
  if n =? 223 then lit "SS"
  else if ((97 <=? n) && (n <=? 122))
          || ((224 <=? n) && (n <=? 254) && negb (n =? 247))
  then [ascii_of_nat (n - 32)]
  else [c].

Definition py_upper (s : str) : str := flat_map py_upper_char s.

Definition is_empty (s : str) : bool :=
  match s with [] => true | _ => false end.

Definition is_nil {A : Type} (l : list A) : bool :=
  match l with [] => true | _ => false end.

(* ------------------------------------------------------------------ *)
(** ** Inputs *)

(** [os.environ]. *)
Definition environ := str -> option str.

Definition setenv (key val : str) (env : environ) : environ :=
  fun k => if str_eqb k key then Some val else env k.

Definition unsetenv (key : str) (env : environ) : environ :=
  fun k => if str_eqb k key then None else env k.

(** [f"INPUT_{name.upper()}"]. *)
Definition input_key (name : str) : str := lit "INPUT_" ++ py_upper name.

(** [get_input(name, default, required=...)]. *)
Definition get_input (env : environ) (name : str) (default : option str)
    (required : bool) : result str :=
  let key := input_key name in
  let val := env key in
  let missing :=
    match val with
    | None => true
    | Some s => is_empty s
    end in
  if missing then
    if required && (match default with None => true | Some _ => false end)
    then Err (lit "Missing required input: " ++ name
              ++ lit " (env " ++ key ++ lit ")")
    else Ok (match default with Some d => d | None => [] end)
  else Ok (match val with Some s => s | None => [] end).

(** [truthy(s)]. *)
Definition truthy (s : str) : bool :=
  str_in (lower (strip s))
    [lit "1"; lit "true"; lit "yes"; lit "y"; lit "on"].

(** [ensure_v_prefix(version)]. *)
Definition ensure_v_prefix (version : str) : result str :=
  let v := strip version in
  if is_empty v then Err (lit "helm_version is empty")
  else if startswith (lit "v") v then Ok v else Ok (lit "v" ++ v).

(* ------------------------------------------------------------------ *)
(** ** The package command *)

(** [shlex.split(s)]: the standard library's POSIX-mode lexer with
    [whitespace_split] set and no comment characters.  The lexer reads one
    character at a time; its state is blank space, inside a quote, after a
    backslash, or inside a word. *)
Inductive shlex_state : Type :=
| InSpace
| InQuote (q : ascii)
| InEscape (escapedstate : option ascii)
| InWord.

Definition shlex_whitespace (c : ascii) : bool :=
  let n := nat_of_ascii c in
  (n =? 32) || (n =? 9) || (n =? 13) || (n =? 10).

Definition shlex_quote (c : ascii) : bool :=
  let n := nat_of_ascii c in (n =? 39) || (n =? 34).

Definition shlex_escape (c : ascii) : bool := nat_of_ascii c =? 92.

Definition shlex_escapedquote (c : ascii) : bool := nat_of_ascii c =? 34.

Definition backslash : ascii := ascii_of_nat 92.

(** A finished token is dropped when it is empty and was never quoted. *)
Definition emit (token : str) (quoted : bool) (rest : result (list str))
    : result (list str) :=
  if negb (is_empty token) || quoted
  then do ts <- rest; Ok (token :: ts)
  else rest.

Fixpoint shlex_run (state : shlex_state) (token : str) (quoted : bool)
    (input : str) {struct input} : result (list str) :=
  match input with
  | [] =>
      match state with
      | InSpace | InWord => emit token quoted (Ok [])
      | InQuote _ => Err (lit "No closing quotation")
      | InEscape _ => Err (lit "No escaped character")
      end
  | c :: rest =>
      match state with
      | InSpace =>
          if shlex_whitespace c then
            emit token quoted (shlex_run InSpace [] false rest)
          else if shlex_escape c then shlex_run (InEscape None) token quoted rest
          else if shlex_quote c then shlex_run (InQuote c) token quoted rest
          else shlex_run InWord [c] quoted rest
      | InQuote q =>
          if Ascii.eqb c q then shlex_run InWord token true rest
          else if shlex_escape c && shlex_escapedquote q
          then shlex_run (InEscape (Some q)) token true rest
          else shlex_run (InQuote q) (token ++ [c]) true rest
      | InEscape escapedstate =>
          match escapedstate with
          | Some q =>
              let token' :=
                if negb (shlex_escape c) && negb (Ascii.eqb c q)
                then token ++ [backslash] else token in
              shlex_run (InQuote q) (token' ++ [c]) quoted rest
          | None => shlex_run InWord (token ++ [c]) quoted rest
          end
      | InWord =>
          if shlex_whitespace c then
            emit token quoted (shlex_run InSpace [] false rest)
          else if shlex_quote c then shlex_run (InQuote c) token quoted rest
          else if shlex_escape c then shlex_run (InEscape None) token quoted rest
          else shlex_run InWord (token ++ [c]) quoted rest
      end
  end.

Definition shlex_split (s : str) : result (list str) :=
  shlex_run InSpace [] false s.

(** The nine tokens every package command starts with. *)
Definition fixed_tokens (chart_path destination helm_chart_version
    helm_chart_app_version : str) : list str :=
  [ lit "helm"; lit "package"; chart_path;
    lit "--destination"; destination;
    lit "--version"; helm_chart_version;
    lit "--app-version"; helm_chart_app_version ].

(** The tokens of [package_args]: none when it is blank. *)
Definition extra_tokens (package_args : str) : result (list str) :=
  if negb (is_empty (strip package_args))
  then shlex_split package_args else Ok [].

(** [build_helm_package_cmd(...)]; it raises what [shlex.split] raises. *)
Definition build_helm_package_cmd (chart_path destination helm_chart_version
    helm_chart_app_version package_args : str) : result (list str) :=
  let cmd := fixed_tokens chart_path destination helm_chart_version
               helm_chart_app_version in
  do extra <- extra_tokens package_args;
  Ok (cmd ++ extra).

Definition dquote : ascii := ascii_of_nat 34.
Definition newline : ascii := ascii_of_nat 10.

(* ------------------------------------------------------------------ *)
(** ** Finding the created package *)

(** The fragment of regular expressions the search pattern is written
    in: a literal character (compared without case), a greedy starred
    class, a captured greedy class repeated at least once, and the end of
    a line. *)
Inductive charclass : Type :=
| Whitespace   (* \s *)
| Dot.         (* any character but a newline *)

Inductive regex_item : Type :=
| Lit (c : ascii)
| Star (cls : charclass)
| GroupPlus (cls : charclass)
| EndOfLine.

Definition in_class (cls : charclass) (c : ascii) : bool :=
  match cls with
  | Whitespace => py_isspace c
  | Dot => negb (Ascii.eqb c newline)
  end.

(** [$] under [re.MULTILINE]: the end of the text or just before a
    newline. *)
Definition at_end_of_line (s : str) : bool :=
  match s with
  | [] => true
  | c :: _ => Ascii.eqb c newline
  end.

Section Backtracking.
Variable A : Type.

(** Greedy repetition: the longest run first, then shorter ones until
    the continuation [k] accepts.  [acc] is what the run has consumed. *)
Fixpoint star_greedy (cls : charclass) (acc : str)
    (k : str -> str -> option A) (s : str) {struct s} : option A :=
  match s with
  | c :: s' =>
      if in_class cls c then
        match star_greedy cls (acc ++ [c]) k s' with
        | Some r => Some r
        | None => k acc s
        end
      else k acc s
  | [] => k acc []
  end.

Definition plus_greedy (cls : charclass)
    (k : str -> str -> option A) (s : str) : option A :=
  match s with
  | c :: s' => if in_class cls c then star_greedy cls [c] k s' else None
  | [] => None
  end.
End Backtracking.

(** A match of the items at the start of [s]; the result is group 1. *)
Fixpoint match_here (items : list regex_item) (group : str) (s : str)
    {struct items} : option str :=
  match items with
  | [] => Some group
  | Lit p :: items' =>
      match s with
      | c :: s' =>
          if Ascii.eqb (lower_char c) (lower_char p)
          then match_here items' group s' else None
      | [] => None
      end
  | Star cls :: items' =>
      star_greedy cls [] (fun _ rest => match_here items' group rest) s
  | GroupPlus cls :: items' =>
      plus_greedy cls (fun g rest => match_here items' g rest) s
  | EndOfLine :: items' =>
      if at_end_of_line s then match_here items' group s else None
  end.

(** [re.search]: the match at the leftmost start that has one. *)
Fixpoint re_search (items : list regex_item) (s : str) : option str :=
  match match_here items [] s with
  | Some g => Some g
  | None =>
      match s with
      | [] => None
      | _ :: s' => re_search items s'
      end
  end.

(** The match at the rightmost start that has one. *)
Fixpoint re_search_last (items : list regex_item) (s : str) : option str :=
  match s with
  | [] => match_here items [] []
  | _ :: s' =>
      match re_search_last items s' with
      | Some g => Some g
      | None => match_here items [] s
      end
  end.

(** [r"saved it to:\s*(.+)\s*$"]. *)
Definition saved_pattern : list regex_item :=
  map Lit (lit "saved it to:")
  ++ [Star Whitespace; GroupPlus Dot; Star Whitespace; EndOfLine].

(** [tgzs.sort(key=getmtime, reverse=True)]: a stable sort, so files of
    equal time keep the order [glob] gave them.  A modification time is a
    number; an integer stands for it. *)
Fixpoint insert_newest (getmtime : str -> Z) (p : str) (l : list str)
    : list str :=
  match l with
  | [] => [p]
  | q :: l' =>
      if Z.ltb (getmtime p) (getmtime q)
      then q :: insert_newest getmtime p l'
      else p :: q :: l'
  end.

Definition sort_newest_first (getmtime : str -> Z) (l : list str)
    : list str :=
  fold_right (insert_newest getmtime) [] l.

Definition not_found_message (out : str) : str :=
  lit "Could not determine created package path from Helm output."
  ++ [newline] ++ lit "Output:" ++ [newline] ++ out.

(** Lines 315 to 331 of [main]: [out] is the output of [helm package],
    [tgzs] what [glob] finds in the destination. *)
Definition find_package_path (out : str) (tgzs : list str)
    (getmtime : str -> Z) : result str :=
  let m := re_search saved_pattern out in
  let package_path :=
    match m with
    | Some g => Some (strip g)
    | None =>
        match sort_newest_first getmtime tgzs with
        | newest :: _ => Some newest
        | [] => None
        end
    end in
  match package_path with
  | Some (c :: p) => Ok (c :: p)
  | _ => Err (not_found_message out)
  end.

(* ------------------------------------------------------------------ *)
(** ** Paths ([os.path] on POSIX) *)

Definition sep : ascii := "/"%char.
Definition curdir : str := lit ".".
Definition pardir : str := lit "..".

(** [s.split("/")]. *)
Fixpoint split_sep (s : str) : list str :=
  match s with
  | [] => [[]]
  | c :: s' =>
      if Ascii.eqb c sep then [] :: split_sep s'
      else match split_sep s' with
           | h :: t => (c :: h) :: t
           | [] => [[c]]
           end
  end.

(** ["/".join(comps)]. *)
Fixpoint join_sep (comps : list str) : str :=
  match comps with
  | [] => []
  | [x] => x
  | x :: comps' => x ++ sep :: join_sep comps'
  end.

Definition endswith_sep (s : str) : bool :=
  match rev s with
  | c :: _ => Ascii.eqb c sep
  | [] => false
  end.

(** [os.path.isabs(p)]. *)
Definition isabs (p : str) : bool := startswith [sep] p.

(** [os.path.join(a, b)]. *)
Definition path_join (a b : str) : str :=
  if startswith [sep] b then b
  else if is_empty a || endswith_sep a then a ++ b
  else a ++ sep :: b.

(** The count [normpath] keeps of leading slashes: two stay two, three
    or more become one. *)
Definition initial_slashes (path : str) : nat :=
  if startswith [sep] path then
    if startswith [sep; sep] path && negb (startswith [sep; sep; sep] path)
    then 2 else 1
  else 0.

(** One round of the loop of [normpath] over the components;
    [rooted] is whether the path has initial slashes. *)
Definition norm_step (rooted : bool) (new_comps : list str) (comp : str)
    : list str :=
  if is_empty comp || str_eqb comp curdir then new_comps
  else if negb (str_eqb comp pardir)
          || (negb rooted && is_nil new_comps)
          || (negb (is_nil new_comps)
              && str_eqb (last new_comps []) pardir)
  then new_comps ++ [comp]
  else if negb (is_nil new_comps) then removelast new_comps
  else new_comps.

(** [os.path.normpath(path)]. *)
Definition normpath (path : str) : str :=
  if is_empty path then curdir
  else
    let k := initial_slashes path in
    let comps :=
      fold_left (norm_step (negb (k =? 0))) (split_sep path) [] in
    let path' := repeat sep k ++ join_sep comps in
    if is_empty path' then curdir else path'.

(** [resolve_path(workspace, p)]. *)
Definition resolve_path (workspace p : str) : str :=
  if isabs p then normpath p
  else normpath (path_join workspace p).

(** [os.path.abspath(path)], in the working directory [cwd]. *)
Definition abspath (cwd path : str) : str :=
  normpath (if isabs path then path else path_join cwd path).

Fixpoint common_prefix_len (a b : list str) : nat :=
  match a, b with
  | x :: a', y :: b' =>
      if str_eqb x y then S (common_prefix_len a' b') else 0
  | _, _ => 0
  end.

Definition nonempty_comps (s : str) : list str :=
  filter (fun x => negb (is_empty x)) (split_sep s).

(** [os.path.relpath(path, start)], in the working directory [cwd]. *)
Definition relpath (cwd path start : str) : result str :=
  if is_empty path then Err (lit "no path specified")
  else
    let start_list := nonempty_comps (abspath cwd start) in
    let path_list := nonempty_comps (abspath cwd path) in
    let i := common_prefix_len start_list path_list in
    let rel_list :=
      repeat pardir (length start_list - i) ++ skipn i path_list in
    match rel_list with
    | [] => Ok curdir
    | first :: rest => Ok (fold_left path_join rest first)
    end.

(** [workspace_relpath(workspace, p)]. *)
Definition workspace_relpath (cwd workspace p : str) : str :=
  let ws := normpath workspace in
  let pp := normpath p in
  match relpath cwd pp ws with
  | Ok r => r
  | Err _ => pp
  end.

(** A relative path whose normal form does not climb above its start. *)
Definition stays_below (p : str) : bool :=
  negb (isabs p) && negb (str_in pardir (split_sep (normpath p))).

(** The loop of [normpath] from the component stack [S]. *)
Definition norm_comps (rooted : bool) (S : list str) (comps : list str)
    : list str :=
  fold_left (norm_step rooted) comps S.

(** A component [normpath] keeps as a name. *)
Definition is_name (c : str) : Prop :=
  c <> [] /\ c <> curdir /\ c <> pardir.

(** A component holds no separator. *)
Definition nosep (c : str) : Prop := ~ In sep c.

(* ------------------------------------------------------------------ *)
(** ** The file system and the run's surroundings *)

(** A file or directory is found by the components of its absolute
    normal path; [[]] is the root.  Links and permissions are left out. *)
Definition fskey := list str.

Inductive node : Type :=
| File (data : str)
| Dir.

Definition filesystem := fskey -> option node.

Fixpoint key_eqb (a b : fskey) : bool :=
  match a, b with
  | [], [] => true
  | x :: a', y :: b' => str_eqb x y && key_eqb a' b'
  | _, _ => false
  end.

(** [strip_prefix dir k]: where [k] is, seen from [dir], when [k] is [dir]
    or below it. *)
Fixpoint strip_prefix (dir k : fskey) : option fskey :=
  match dir, k with
  | [], _ => Some k
  | x :: dir', y :: k' =>
      if str_eqb x y then strip_prefix dir' k' else None
  | _ :: _, [] => None
  end.

Definition under (dir k : fskey) : bool :=
  match strip_prefix dir k with
  | Some _ => true
  | None => false
  end.

(** The root is a directory of every file system. *)
Definition fs_lookup (fs : filesystem) (k : fskey) : option node :=
  match k with
  | [] => Some Dir
  | _ => fs k
  end.

Definition fs_set (k : fskey) (n : node) (fs : filesystem) : filesystem :=
  fun k' => if key_eqb k' k then Some n else fs k'.

Definition is_dir (fs : filesystem) (k : fskey) : bool :=
  match fs_lookup fs k with
  | Some Dir => true
  | _ => false
  end.

Definition is_file (fs : filesystem) (k : fskey) : bool :=
  match fs_lookup fs k with
  | Some (File _) => true
  | _ => false
  end.

(** What the run does to its surroundings, in the order it does it:
    the calls of [os.makedirs], [shutil.copytree] and [open] for writing,
    the directories [tempfile.mkdtemp] has created, the installation of
    the tool and the commands run. *)
Inductive event : Type :=
| EvMakedirs (path : str)
| EvMkdtemp (created : str)
| EvCopytree (src dst : str)
| EvOpenWrite (path : str)
| EvInstall (tag : str)
| EvRun (cmd : list str).

Record world : Type := {
  w_fs : filesystem;
  w_trace : list event;
  w_stdout : list str;
  w_stderr : list str
}.

Definition with_fs (fs : filesystem) (w : world) : world :=
  {| w_fs := fs; w_trace := w_trace w;
     w_stdout := w_stdout w; w_stderr := w_stderr w |}.

Definition log (e : event) (w : world) : world :=
  {| w_fs := w_fs w; w_trace := w_trace w ++ [e];
     w_stdout := w_stdout w; w_stderr := w_stderr w |}.

Definition print (line : str) (w : world) : world :=
  {| w_fs := w_fs w; w_trace := w_trace w;
     w_stdout := w_stdout w ++ [line]; w_stderr := w_stderr w |}.

Definition eprint (line : str) (w : world) : world :=
  {| w_fs := w_fs w; w_trace := w_trace w;
     w_stdout := w_stdout w; w_stderr := w_stderr w ++ [line] |}.

(** What the run takes from outside this file: the libraries that parse
    versions and YAML, the random draw of [mkdtemp], the machine, the
    download and installation of the tool, the tool itself, and the
    directory listing. *)
Record host : Type := {
  cwd : str;
  machine : str;
  semver_parses : str -> bool;
  yaml_safe_load : str -> result value;
  yaml_safe_dump : value -> str;
  mkdtemp_draw : filesystem -> list nat;
  fetch_and_install : str -> str -> filesystem -> result unit * filesystem;
  subprocess_run : list str -> filesystem -> (Z * str) * filesystem;
  glob_tgz : filesystem -> str -> list str;
  getmtime : filesystem -> str -> Z
}.

(** A computation of the run: it may raise, and it changes the world. *)
Definition M (A : Type) : Type := world -> result A * world.

Definition ret {A : Type} (a : A) : M A := fun w => (Ok a, w).

Definition raise {A : Type} (msg : str) : M A := fun w => (Err msg, w).

Definition lift {A : Type} (r : result A) : M A := fun w => (r, w).

Definition bindM {A B : Type} (m : M A) (k : A -> M B) : M B :=
  fun w =>
    match m w with
    | (Ok a, w') => k a w'
    | (Err e, w') => (Err e, w')
    end.

Notation "x <- m ;; k" := (bindM m (fun x => k))
  (at level 61, m at next level, right associativity).
Notation "m ;;; k" := (bindM m (fun _ => k))
  (at level 61, right associativity).

Section Run.
Variable h : host.

(** Where the operating system finds [path]. *)
Definition locate (path : str) : fskey :=
  nonempty_comps (abspath (cwd h) path).

(** [os.path.isfile(path)]. *)
Definition isfile (path : str) : M bool :=
  fun w => (Ok (is_file (w_fs w) (locate path)), w).

(** The walk of [os.makedirs(..., exist_ok=True)] down from [done]: a
    directory on the way is passed, a missing one is created, a file is
    an error. *)
Fixpoint makedirs_from (fs : filesystem) (done todo : fskey)
    : result filesystem :=
  match todo with
  | [] => Ok fs
  | c :: todo' =>
      let k := done ++ [c] in
      match fs k with
      | Some Dir => makedirs_from fs k todo'
      | Some (File _) => Err (lit "File exists: " ++ join_sep k)
      | None => makedirs_from (fs_set k Dir fs) k todo'
      end
  end.

(** [os.makedirs(path, exist_ok=True)]. *)
Definition makedirs (path : str) : M unit :=
  fun w =>
    let w1 := log (EvMakedirs path) w in
    match makedirs_from (w_fs w1) [] (locate path) with
    | Ok fs' => (Ok tt, with_fs fs' w1)
    | Err e => (Err e, w1)
    end.

(** The characters [tempfile] draws names from. *)
Definition name_alphabet : str := lit "abcdefghijklmnopqrstuvwxyz0123456789_".

Definition candidate_name (draw : list nat) : str :=
  map (fun n => nth (n mod 37) name_alphabet "a"%char) draw.

(** [tempfile.mkdtemp(prefix=..., dir=...)]; [mkdtemp_draw] is the draw
    its loop ends with.  The result is [dir/name]; an interpreter that
    returns the absolute form of it names the same key. *)
Definition mkdtemp (prefix dir : str) : M str :=
  fun w =>
    let name := prefix ++ candidate_name (mkdtemp_draw h (w_fs w)) in
    let file := path_join dir name in
    let k := locate file in
    if negb (is_dir (w_fs w) (removelast k)) then
      (Err (lit "No such file or directory: " ++ file), w)
    else
      match fs_lookup (w_fs w) k with
      | Some _ =>
          (Err (lit "No usable temporary directory name found"), w)
      | None =>
          (Ok file, log (EvMkdtemp file) (with_fs (fs_set k Dir (w_fs w)) w))
      end.

(** The tree under [src] as it is, put under [dst].  Nothing exists
    under a [dst] that does not exist, so the copy fills keys that are
    free. *)
Definition graft (src dst : fskey) (fs : filesystem) : filesystem :=
  fun k =>
    match fs k with
    | Some n => Some n
    | None =>
        match strip_prefix dst k with
        | Some rel => fs (src ++ rel)
        | None => None
        end
    end.

(** [shutil.copytree(src, dst)].  The library lists [src], creates [dst]
    with its missing parents, and copies entry by entry, descending into
    directories.  When [dst] lies inside [src] the descent reaches the
    copy it is making and does not end by itself: the operating system
    or the interpreter ends it with an error.  That case is the error
    after the creation of [dst]; the partial copies are left out. *)
Definition copytree (src dst : str) : M unit :=
  fun w =>
    let s := locate src in
    let d := locate dst in
    let w1 := log (EvCopytree src dst) w in
    if negb (is_dir (w_fs w) s) then
      (Err (lit "Not a directory: " ++ src), w1)
    else
      match fs_lookup (w_fs w) d with
      | Some _ => (Err (lit "File exists: " ++ dst), w1)
      | None =>
          match makedirs_from (w_fs w) [] d with
          | Err e => (Err e, w1)
          | Ok fs1 =>
              if under s d then
                (Err (lit "File name too long: " ++ dst), with_fs fs1 w1)
              else (Ok tt, with_fs (fs_set d Dir (graft s d fs1)) w1)
          end
      end.

(** [open(path, "w")] and one write of [data]. *)
Definition write_file (path data : str) : M unit :=
  fun w =>
    let k := locate path in
    let w1 := log (EvOpenWrite path) w in
    if negb (is_dir (w_fs w) (removelast k)) then
      (Err (lit "No such file or directory: " ++ path), w1)
    else
      match fs_lookup (w_fs w) k with
      | Some Dir => (Err (lit "Is a directory: " ++ path), w1)
      | _ => (Ok tt, with_fs (fs_set k (File data) (w_fs w)) w1)
      end.

(** [open(path, "a")] and one write of [data]. *)
Definition append_file (path data : str) : M unit :=
  fun w =>
    let k := locate path in
    let w1 := log (EvOpenWrite path) w in
    if negb (is_dir (w_fs w) (removelast k)) then
      (Err (lit "No such file or directory: " ++ path), w1)
    else
      match fs_lookup (w_fs w) k with
      | Some Dir => (Err (lit "Is a directory: " ++ path), w1)
      | Some (File old) =>
          (Ok tt, with_fs (fs_set k (File (old ++ data)) (w_fs w)) w1)
      | None => (Ok tt, with_fs (fs_set k (File data) (w_fs w)) w1)
      end.

(** [open(path, "r").read()]. *)
Definition read_file (path : str) : M str :=
  fun w =>
    match fs_lookup (w_fs w) (locate path) with
    | Some (File data) => (Ok data, w)
    | Some Dir => (Err (lit "Is a directory: " ++ path), w)
    | None => (Err (lit "No such file or directory: " ++ path), w)
    end.

(** [validate_version(version)]; the grammar is the library's. *)
Definition validate_version (version : str) : bool :=
  semver_parses h (strip version).

(** [detect_arch()]. *)
Definition detect_arch : result str :=
  let m := lower (machine h) in
  if str_in m [lit "x86_64"; lit "amd64"] then Ok (lit "amd64")
  else if str_in m [lit "aarch64"; lit "arm64"] then Ok (lit "arm64")
  else Err (lit "Unsupported CPU architecture for Helm binary: " ++ m).

(** [load_yaml_file(path)]. *)
Definition load_yaml_file (path : str) : M value :=
  txt <- read_file path ;;
  data <- lift (yaml_safe_load h txt) ;;
  ret (match data with VNull => VMap [] | _ => data end).

(** [dump_yaml_file(path, data)]. *)
Definition dump_yaml_file (path : str) (data : value) : M unit :=
  write_file path (yaml_safe_dump h data).

(** [run(cmd)]: the exit status and the captured output. *)
Definition run (cmd : list str) : M (Z * str) :=
  fun w =>
    let w1 := log (EvRun cmd) w in
    let '(res, fs') := subprocess_run h cmd (w_fs w1) in
    (Ok res, with_fs fs' w1).

(** [install_helm(helm_version)]: the tag and the architecture are
    worked out here; the download, the checksum, the extraction and the
    trial run of the binary are [fetch_and_install]. *)
Definition install_helm (helm_version : str) : M unit :=
  version <- lift (ensure_v_prefix helm_version) ;;
  arch <- lift detect_arch ;;
  fun w =>
    let w1 := log (EvInstall version) w in
    let '(r, fs') := fetch_and_install h version arch (w_fs w1) in
    (r, with_fs fs' w1).

(** [write_output(name, value)]. *)
Definition write_output (env : environ) (name val : str) : M unit :=
  match env (lit "GITHUB_OUTPUT") with
  | Some (c :: path) =>
      append_file (c :: path) (name ++ lit "=" ++ val ++ [newline])
  | _ => fun w => (Ok tt, print (name ++ lit "=" ++ val) w)
  end.
End Run.

(* ------------------------------------------------------------------ *)
(** ** The run *)

Definition is_delimiter (c : ascii) : bool :=
  let n := nat_of_ascii c in (n =? 44) || (n =? 10) || (n =? 13).

(** [re.split(r"[,\n\r]+", s)]: [cur] is the part being read, [in_run]
    whether the last character was a delimiter. *)
Fixpoint re_split_delimiters (cur : str) (in_run : bool) (s : str)
    : list str :=
  match s with
  | [] => [cur]
  | c :: s' =>
      if is_delimiter c then
        if in_run then re_split_delimiters [] true s'
        else cur :: re_split_delimiters [] true s'
      else re_split_delimiters (cur ++ [c]) false s'
  end.

(** [parse_values_files(values_files_raw)]. *)
Definition parse_values_files (values_files_raw : str) : list str :=
  filter (fun p => negb (is_empty p))
    (map strip (re_split_delimiters [] false values_files_raw)).

(** [os.path.basename(p)]. *)
Definition basename (p : str) : str := last (split_sep p) [].

(** What lines 252 to 273 of [main] settle. *)
Record config : Type := {
  workspace : str;
  chart_path : str;
  destination : str;
  helm_version : str;
  dependency_update : bool;
  package_args_in : str;
  helm_chart_version : str;
  helm_chart_app_version : str;
  values_files_raw : str
}.

Section Main.
Variable h : host.
Variable env : environ.

(** Lines 252 to 273: the inputs, the version check, the two paths, the
    chart descriptor, the destination directory. *)
Definition prepare : M config :=
  let workspace :=
    match env (lit "GITHUB_WORKSPACE") with
    | Some s => s
    | None => lit "/github/workspace"
    end in
  chart_path_in <- lift (get_input env (lit "chart_path") None true) ;;
  destination_in <-
    lift (get_input env (lit "destination") (Some (lit ".")) false) ;;
  helm_version <-
    lift (get_input env (lit "helm_version") (Some (lit "v3.14.4")) false) ;;
  dependency_update_in <-
    lift (get_input env (lit "dependency_update") (Some (lit "false"))
            false) ;;
  package_args_in <-
    lift (get_input env (lit "package_args") (Some []) false) ;;
  helm_chart_version <-
    lift (get_input env (lit "helm_chart_version") None true) ;;
  helm_chart_app_version <-
    lift (get_input env (lit "helm_chart_app_version") None true) ;;
  values_files_raw <-
    lift (get_input env (lit "values_files") (Some []) false) ;;
  if negb (validate_version h helm_chart_version) then
    raise (lit "Invalid helm chart version (SemVer required): "
           ++ helm_chart_version)
  else
    let chart_path := resolve_path workspace chart_path_in in
    let destination := resolve_path workspace destination_in in
    let chart_yaml := path_join chart_path (lit "Chart.yaml") in
    found <- isfile h chart_yaml ;;
    if negb found then
      raise (lit "`Chart.yaml` not found at: " ++ chart_yaml)
    else
      makedirs h destination ;;;
      ret {| workspace := workspace;
             chart_path := chart_path;
             destination := destination;
             helm_version := helm_version;
             dependency_update := truthy dependency_update_in;
             package_args_in := package_args_in;
             helm_chart_version := helm_chart_version;
             helm_chart_app_version := helm_chart_app_version;
             values_files_raw := values_files_raw |}.

(** Lines 281 to 286: the fold of the values files, in list order. *)
Fixpoint merge_values_files (chart_path : str) (values_files : list str)
    (merged_values : value) : M value :=
  match values_files with
  | [] => ret merged_values
  | rel :: rest =>
      let src_path := normpath (path_join chart_path rel) in
      found <- isfile h src_path ;;
      if negb found then raise (lit "Values file not found: " ++ src_path)
      else
        doc <- load_yaml_file h src_path ;;
        merge_values_files chart_path rest
          (deep_merge_values merged_values doc)
  end.

(** Lines 288 to 294: the copy of the chart and its new values file.
    The result is [(tmp_root, tmp_chart)]. *)
Definition copy_chart (workspace chart_path : str) (merged_values : value)
    : M (str * str) :=
  tmp_root <- mkdtemp h (lit ".dist-temporary-") workspace ;;
  let chart_name := basename (normpath chart_path) in
  let tmp_chart := path_join tmp_root chart_name in
  copytree h chart_path tmp_chart ;;;
  dump_yaml_file h (path_join tmp_chart (lit "values.yaml"))
    merged_values ;;;
  ret (tmp_root, tmp_chart).

(** Lines 277 to 294: the chart directory to package. *)
Definition chart_for_packaging (cfg : config) : M str :=
  let values_files := parse_values_files (values_files_raw cfg) in
  if is_nil values_files then ret (chart_path cfg)
  else
    merged_values <-
      merge_values_files (chart_path cfg) values_files (VMap []) ;;
    dirs <- copy_chart (workspace cfg) (chart_path cfg) merged_values ;;
    ret (snd dirs).

(** Lines 296 to 300. *)
Definition update_dependencies (cfg : config)
    (chart_path_for_packaging : str) : M unit :=
  if dependency_update cfg then
    dep <- run h [lit "helm"; lit "dependency"; lit "update";
                  chart_path_for_packaging] ;;
    if negb (Z.eqb (fst dep) 0) then
      raise (lit "`helm dependency update` failed:" ++ [newline]
             ++ snd dep)
    else ret tt
  else ret tt.

(** Lines 302 to 338. *)
Definition package_and_report (cfg : config)
    (chart_path_for_packaging : str) : M unit :=
  cmd <- lift (build_helm_package_cmd chart_path_for_packaging
                 (destination cfg) (helm_chart_version cfg)
                 (helm_chart_app_version cfg) (package_args_in cfg)) ;;
  res <- run h cmd ;;
  if negb (Z.eqb (fst res) 0) then
    raise (lit "`helm package` failed:" ++ [newline] ++ snd res)
  else
    package_path <-
      (fun w =>
         (find_package_path (snd res)
            (glob_tgz h (w_fs w) (path_join (destination cfg) (lit "*.tgz")))
            (getmtime h (w_fs w)), w)) ;;
    let package_path_abs :=
      if negb (isabs package_path)
      then resolve_path (workspace cfg) package_path
      else normpath package_path in
    let package_path_out :=
      workspace_relpath (cwd h) (workspace cfg) package_path_abs in
    write_output h env (lit "package_path") package_path_out.

(** Lines 275 to 338: everything after the destination exists. *)
Definition package (cfg : config) : M unit :=
  install_helm h (helm_version cfg) ;;;
  chart_path_for_packaging <- chart_for_packaging cfg ;;
  update_dependencies cfg chart_path_for_packaging ;;;
  package_and_report cfg chart_path_for_packaging.

(** [main()]: the exit status and the world it leaves.  The progress
    lines on the error stream are left out; the [ERROR:] line is kept. *)
Definition main (w : world) : Z * world :=
  match bindM prepare package w with
  | (Ok _, w') => (0%Z, w')
  | (Err ex, w') => (1%Z, eprint (lit "ERROR: " ++ ex) w')
  end.
End Main.

(* ------------------------------------------------------------------ *)
(** ** Two runs to evaluate *)

Definition fs_of_list (l : list (fskey * node)) : filesystem :=
  fun k =>
    match find (fun e => key_eqb k (fst e)) l with
    | Some e => Some (snd e)
    | None => None
    end.

Definition helm_says (path : str) : str :=
  lit "Successfully packaged chart and saved it to: " ++ path ++ [newline].

(** A host whose tool packages into [/github/workspace] and whose YAML
    library knows the two documents of the merge test. *)
Definition demo_host : host :=
  {| cwd := lit "/";
     machine := lit "x86_64";
     semver_parses := fun v => str_eqb v (lit "1.2.3");
     yaml_safe_load := fun txt =>
       if str_eqb txt (lit "base") then Ok test_base
       else if str_eqb txt (lit "override") then Ok test_override
       else Ok VNull;
     yaml_safe_dump := fun v =>
       if py_eq v test_expected then lit "merged" else lit "other";
     mkdtemp_draw := fun _ => [7; 0; 41; 12; 30; 2; 36; 19];
     fetch_and_install := fun _ _ fs => (Ok tt, fs);
     subprocess_run := fun _ fs =>
       ((0%Z, helm_says (lit "/github/workspace/my-1.2.3.tgz")), fs);
     glob_tgz := fun _ _ => [];
     getmtime := fun _ _ => 0%Z |}.

Definition env_of_list (l : list (str * str)) : environ :=
  fun k =>
    match find (fun e => str_eqb k (fst e)) l with
    | Some e => Some (snd e)
    | None => None
    end.

Definition ws_key : fskey := [lit "github"; lit "workspace"].

(** A chart in [charts/my] of the workspace. *)
Definition nested_fs : filesystem :=
  fs_of_list
    [ ([lit "github"], Dir);
      (ws_key, Dir);
      (ws_key ++ [lit "charts"], Dir);
      (ws_key ++ [lit "charts"; lit "my"], Dir);
      (ws_key ++ [lit "charts"; lit "my"; lit "Chart.yaml"],
        File (lit "name: my"));
      (ws_key ++ [lit "charts"; lit "my"; lit "values.yaml"],
        File (lit "base"));
      (ws_key ++ [lit "charts"; lit "my"; lit "values.dev.yaml"],
        File (lit "override"));
      (ws_key ++ [lit "charts"; lit "my"; lit "templates"], Dir);
      (ws_key ++ [lit "charts"; lit "my"; lit "templates"; lit "svc.yaml"],
        File (lit "kind: Service")) ].

Definition nested_env : environ :=
  env_of_list
    [ (lit "INPUT_CHART_PATH", lit "charts/my");
      (lit "INPUT_HELM_CHART_VERSION", lit "1.2.3");
      (lit "INPUT_HELM_CHART_APP_VERSION", lit "4.5.6");
      (lit "INPUT_VALUES_FILES", lit "values.yaml,values.dev.yaml") ].

(** The same run with a destination that does not exist, nor its
    parent. *)
Definition dist_env : environ :=
  setenv (lit "INPUT_DESTINATION") (lit "dist/out") nested_env.

(** A chart that is the workspace itself. *)
Definition root_fs : filesystem :=
  fs_of_list
    [ ([lit "github"], Dir);
      (ws_key, Dir);
      (ws_key ++ [lit "Chart.yaml"], File (lit "name: my"));
      (ws_key ++ [lit "values.yaml"], File (lit "base"));
      (ws_key ++ [lit "values.dev.yaml"], File (lit "override")) ].

Definition root_env : environ :=
  env_of_list
    [ (lit "INPUT_CHART_PATH", lit ".");
      (lit "INPUT_HELM_CHART_VERSION", lit "1.2.3");
      (lit "INPUT_HELM_CHART_APP_VERSION", lit "4.5.6");
      (lit "INPUT_VALUES_FILES", lit "values.yaml,values.dev.yaml") ].

Definition start (fs : filesystem) : world :=
  {| w_fs := fs; w_trace := []; w_stdout := []; w_stderr := [] |}.

Definition tmp_name : str := lit ".dist-temporary-haem4c_t".

Definition tool_event (e : event) : bool :=
  match e with
  | EvInstall _ | EvRun _ => true
  | _ => false
  end.

(** The destination [main] resolves from its inputs. *)
Definition workspace_of (env : environ) : str :=
  match env (lit "GITHUB_WORKSPACE") with
  | Some s => s
  | None => lit "/github/workspace"
  end.

Definition destination_of (env : environ) : str :=
  resolve_path (workspace_of env)
    (match get_input env (lit "destination") (Some (lit ".")) false with
     | Ok d => d
     | Err _ => lit "."
     end).

(** The tool and its installation remove no directory. *)
Definition keeps_directories (h : host) : Prop :=
  (forall cmd fs k,
     is_dir fs k = true -> is_dir (snd (subprocess_run h cmd fs)) k = true)
  /\ (forall tag arch fs k,
        is_dir fs k = true ->
        is_dir (snd (fetch_and_install h tag arch fs)) k = true).

(** Every directory [mkdtemp] has created is still there. *)
Definition temporaries_alive (h : host) (w : world) : Prop :=
  forall created,
    In (EvMkdtemp created) (w_trace w) ->
    is_dir (w_fs w) (locate h created) = true.

(** A computation that only adds to the trace and, on a host that keeps
    directories, leaves every directory in place, those it has made with
    [mkdtemp] among them. *)
Definition sound (h : host) {A : Type} (m : M A) : Prop :=
  forall w,
    (exists T,
       w_trace (snd (m w)) = w_trace w ++ T
       /\ (keeps_directories h ->
           forall created,
             In (EvMkdtemp created) T ->
             is_dir (w_fs (snd (m w))) (locate h created) = true))
    /\ (keeps_directories h ->
        forall k, is_dir (w_fs w) k = true ->
                  is_dir (w_fs (snd (m w))) k = true).

Definition tmp_root_path : str :=
  lit "/github/workspace/.dist-temporary-haem4c_t".

Definition nested_run : Z * world :=
  main demo_host nested_env (start nested_fs).

Definition root_run : Z * world :=
  main demo_host root_env (start root_fs).

(** Every entry of the file system lies in directories. *)
Definition fs_wf (fs : filesystem) : Prop :=
  forall k, fs k <> None ->
  forall n, n < length k -> is_dir fs (firstn n k) = true.

(** [fs'] differs from [fs] at [K] and below only. *)
Definition confined (K : fskey) (fs fs' : filesystem) : Prop :=
  forall k, under K k = false -> fs' k = fs k.

(* ------------------------------------------------------------------ *)
(** ** Notions the further properties are stated with *)

(** Every character of [s] is whitespace. *)
Definition all_space (s : str) : bool := forallb py_isspace s.

(** Every character of [s] is an ASCII character. *)
Definition is_ascii (s : str) : bool :=
  forallb (fun c => nat_of_ascii c <? 128) s.

(** The value of an optional input: what the environment holds when that
    is not empty, the default otherwise. *)
Definition input_or (env : environ) (name default : str) : str :=
  match env (input_key name) with
  | Some (c :: v) => c :: v
  | _ => default
  end.

(* ------------------------------------------------------------------ *)
(** ** The checksum file of the tool *)

(** [s.split()]: the runs of characters that are not whitespace; [cur]
    is the run being read. *)
Fixpoint split_whitespace (cur : str) (s : str) : list str :=
  match s with
  | [] => if is_empty cur then [] else [cur]
  | c :: s' =>
      if py_isspace c then
        if is_empty cur then split_whitespace [] s'
        else cur :: split_whitespace [] s'
      else split_whitespace (cur ++ [c]) s'
  end.

(** [[0-9a-fA-F]]. *)
Definition is_hex_digit (c : ascii) : bool :=
  let n := nat_of_ascii c in
  ((48 <=? n) && (n <=? 57)) || ((97 <=? n) && (n <=? 102))
  || ((65 <=? n) && (n <=? 70)).

(** [[0-9a-f]]: the digits of [hexdigest()]. *)
Definition is_lower_hex_digit (c : ascii) : bool :=
  let n := nat_of_ascii c in
  ((48 <=? n) && (n <=? 57)) || ((97 <=? n) && (n <=? 102)).

(** [parse_sha256_file] on the text of the file. *)
Definition parse_sha256_text (content : str) : result str :=
  let txt := strip content in
  if is_empty txt then Err (lit "Empty sha256 file")
  else
    let first_token := strip (hd [] (split_whitespace [] txt)) in
    if (length first_token =? 64) && forallb is_hex_digit first_token
    then Ok (lower first_token)
    else Err (lit "Invalid sha256 content: " ++ firstn 120 txt).

(** [parse_sha256_file(path)]. *)
Definition parse_sha256_file (h : host) (path : str) : M str :=
  txt <- read_file h path ;;
  lift (parse_sha256_text txt).

(** Nothing or whitespace comes next. *)
Definition ends_token (rest : str) : bool :=
  match rest with
  | [] => true
  | c :: _ => py_isspace c
  end.

(* ------------------------------------------------------------------ *)
(** ** The values files and the message of the tool *)

(** The path a values-file reference is read from. *)
Definition values_src (chart_path rel : str) : str :=
  normpath (path_join chart_path rel).

(** A reference that names a file whose text loads as [doc]. *)
Definition loads_as (h : host) (chart_path : str) (w : world)
    (rel : str) (doc : value) : Prop :=
  is_file (w_fs w) (locate h (values_src chart_path rel)) = true
  /\ load_yaml_file h (values_src chart_path rel) w = (Ok doc, w).

(** What [helm package] prints before the path of the archive. *)
Definition helm_prefix : str := lit "Successfully packaged chart and ".

(* ------------------------------------------------------------------ *)
(** ** Relations between the world before and after a step *)

(** Every step of [m] keeps the relation [R] between the world it starts
    in and the world it ends in. *)
Definition respects (R : world -> world -> Prop) {A : Type} (m : M A)
    : Prop :=
  forall w, R w (snd (m w)).



Definition same_stdout (w w' : world) : Prop := w_stdout w' = w_stdout w.

(** What a run may have printed: nothing when it failed or wrote to the
    output file, the one line of the package path otherwise. *)
Definition reported (env : environ) (failed : bool) (w w' : world) : Prop :=
  if failed then w_stdout w' = w_stdout w
  else
    match env (lit "GITHUB_OUTPUT") with
    | Some (_ :: _) => w_stdout w' = w_stdout w
    | _ => exists v, w_stdout w' = w_stdout w ++ [lit "package_path=" ++ v]
    end.

Definition is_err {A : Type} (r : result A) : bool :=
  match r with
  | Ok _ => false
  | Err _ => true
  end.

(** The configuration [prepare] settles from the environment, given the
    three required inputs. *)
Definition config_of (env : environ) (chart_path_in helm_chart_version
    helm_chart_app_version : str) : config :=
  {| workspace := workspace_of env;
     chart_path := resolve_path (workspace_of env) chart_path_in;
     destination := destination_of env;
     helm_version := input_or env (lit "helm_version") (lit "v3.14.4");
     dependency_update :=
       truthy (input_or env (lit "dependency_update") (lit "false"));
     package_args_in := input_or env (lit "package_args") [];
     helm_chart_version := helm_chart_version;
     helm_chart_app_version := helm_chart_app_version;
     values_files_raw := input_or env (lit "values_files") [] |}.

(** A computation whose only print is the report of the package path. *)
Definition reports (env : environ) {A : Type} (m : M A) : Prop :=
  forall w, reported env (is_err (fst (m w))) w (snd (m w)).

(** The run adds events to the trace, each of them in [allowed]. *)
Definition adds_only (allowed : event -> Prop) (w w' : world) : Prop :=
  exists T, w_trace w' = w_trace w ++ T /\ Forall allowed T.

(** The events up to the installation of the tool. *)
Definition setup_event (e : event) : Prop :=
  match e with
  | EvMakedirs _ | EvInstall _ => True
  | _ => False
  end.

(** Every event but a command other than [helm package ...]. *)
Definition package_command (e : event) : Prop :=
  match e with
  | EvRun cmd => firstn 2 cmd = [lit "helm"; lit "package"]
  | _ => True
  end.

(** The host of the demonstrations without a network: the download of
    the tool fails. *)
Definition offline_host : host :=
  {| cwd := cwd demo_host;
     machine := machine demo_host;
     semver_parses := semver_parses demo_host;
     yaml_safe_load := yaml_safe_load demo_host;
     yaml_safe_dump := yaml_safe_dump demo_host;
     mkdtemp_draw := mkdtemp_draw demo_host;
     fetch_and_install := fun _ _ fs =>
       (Err (lit "<urlopen error [Errno -3] Temporary failure in name resolution>"),
        fs);
     subprocess_run := subprocess_run demo_host;
     glob_tgz := glob_tgz demo_host;
     getmtime := getmtime demo_host |}.

(** A character the lexer and [strip] both take as part of a word: no
    whitespace, no quote, no backslash. *)
Definition plain_char (c : ascii) : bool :=
  negb (py_isspace c) && negb (shlex_quote c) && negb (shlex_escape c).

Definition plain_word (t : str) : Prop :=
  t <> [] /\ forallb plain_char t = true.

(** [" ".join(words)]. *)
Fixpoint join_spaces (words : list str) : str :=
  match words with
  | [] => []
  | [t] => t
  | t :: rest => t ++ lit " " ++ join_spaces rest
  end.

(* ------------------------------------------------------------------ *)
(** ** Auxiliary notions of the proofs *)

(** A mapping whose values are well formed. *)
Definition values_wf (d : dict) : Prop :=
  Forall (fun e => wf_value (snd e) = true) d.

(** A string nothing can be trimmed from. *)
Definition trimmed (m : str) : Prop :=
  lstrip m = m /\ lstrip (rev m) = rev m.

(** A piece of text without a comma or a line end. *)
Definition no_delimiter (s : str) : Prop :=
  forall c, In c s -> is_delimiter c = false.

(** The entries of a text being split, from a state of the splitter. *)
Definition entries_from (cur : str) (in_run : bool) (s : str) : list str :=
  filter (fun p => negb (is_empty p))
    (map strip (re_split_delimiters cur in_run s)).

(** The stack of a relative path: some [..], then names. *)
Definition rel_normal (P : list str) : Prop :=
  exists n names, P = repeat pardir n ++ names /\ Forall is_name names.


(* ================================================================== *)
(** * Properties *)

(* ------------------------------------------------------------------ *)
(** ** Strings and dictionaries *)

Lemma str_eqb_eq (a b : str) : str_eqb a b = true <-> a = b.
Proof.
  revert b; induction a as [|x a IH]; intros [|y b]; simpl; split;
    try congruence; try reflexivity.
  - intros H. apply andb_prop in H as [Hx Hab].
    apply Ascii.eqb_eq in Hx. apply IH in Hab. congruence.
  - intros H. injection H as -> ->.
    rewrite Ascii.eqb_refl. simpl. now apply IH.
Qed.

Lemma str_eqb_refl (a : str) : str_eqb a a = true.
Proof. now apply str_eqb_eq. Qed.

Lemma str_eqb_neq (a b : str) : str_eqb a b = false <-> a <> b.
Proof.
  split.
  - intros H E. apply str_eqb_eq in E. congruence.
  - intros H. destruct (str_eqb a b) eqn:E; [|reflexivity].
    apply str_eqb_eq in E. contradiction.
Qed.

Lemma str_eqb_sym (a b : str) : str_eqb a b = str_eqb b a.
Proof.
  destruct (str_eqb a b) eqn:E.
  - apply str_eqb_eq in E. subst. symmetry. apply str_eqb_refl.
  - apply str_eqb_neq in E. symmetry. apply str_eqb_neq. congruence.
Qed.

Lemma str_in_In (k : str) (l : list str) : str_in k l = true <-> In k l.
Proof.
  induction l as [|x l IH]; simpl.
  - split; [discriminate | tauto].
  - rewrite orb_true_iff, IH, str_eqb_eq. intuition congruence.
Qed.

Lemma str_in_app (k : str) (l1 l2 : list str) :
  str_in k (l1 ++ l2) = str_in k l1 || str_in k l2.
Proof.
  induction l1 as [|x l1 IH]; simpl; [reflexivity|].
  now rewrite IH, orb_assoc.
Qed.

Lemma dict_get_None_keys (k : str) (d : dict) :
  dict_get k d = None <-> str_in k (dict_keys d) = false.
Proof.
  induction d as [|[k' v] d IH]; simpl; [tauto|].
  destruct (str_eqb k k'); simpl; [split; discriminate | exact IH].
Qed.

Lemma dict_get_set_same (k : str) (v : value) (d : dict) :
  dict_get k (dict_set k v d) = Some v.
Proof.
  induction d as [|[k' v'] d IH]; simpl.
  - now rewrite str_eqb_refl.
  - destruct (str_eqb k k') eqn:E; simpl; rewrite E; [reflexivity | exact IH].
Qed.

Lemma dict_get_set_other (k k' : str) (v : value) (d : dict) :
  k <> k' -> dict_get k' (dict_set k v d) = dict_get k' d.
Proof.
  intros Hne. induction d as [|[k0 v0] d IH]; simpl.
  - assert (str_eqb k' k = false) as -> by (apply str_eqb_neq; congruence).
    reflexivity.
  - destruct (str_eqb k k0) eqn:E; simpl.
    + apply str_eqb_eq in E. subst k0.
      assert (str_eqb k' k = false) as -> by (apply str_eqb_neq; congruence).
      reflexivity.
    + now rewrite IH.
Qed.

Lemma dict_set_keys_present (k : str) (v w : value) (d : dict) :
  dict_get k d = Some w -> dict_keys (dict_set k v d) = dict_keys d.
Proof.
  induction d as [|[k0 v0] d IH]; simpl; [discriminate|].
  destruct (str_eqb k k0) eqn:E; simpl; [reflexivity|].
  intros H. now rewrite IH.
Qed.

Lemma dict_set_keys_absent (k : str) (v : value) (d : dict) :
  dict_get k d = None -> dict_keys (dict_set k v d) = dict_keys d ++ [k].
Proof.
  induction d as [|[k0 v0] d IH]; simpl; [reflexivity|].
  destruct (str_eqb k k0) eqn:E; simpl; [discriminate|].
  intros H. now rewrite IH.
Qed.

(** Assigning the value a key already has changes nothing. *)
Lemma dict_set_same_value (k : str) (v : value) (d : dict) :
  dict_get k d = Some v -> dict_set k v d = d.
Proof.
  induction d as [|[k0 v0] d IH]; simpl; [discriminate|].
  destruct (str_eqb k k0) eqn:E.
  - intros H. injection H as ->. reflexivity.
  - intros H. now rewrite IH.
Qed.

Lemma dict_get_In (k : str) (v : value) (d : dict) :
  str_nodup (dict_keys d) = true -> In (k, v) d -> dict_get k d = Some v.
Proof.
  induction d as [|[k0 v0] d IH]; simpl; [tauto|].
  intros Hnd [Heq | Hin].
  - injection Heq as -> ->. now rewrite str_eqb_refl.
  - apply andb_prop in Hnd as [Hk0 Hnd].
    destruct (str_eqb k k0) eqn:E.
    + apply str_eqb_eq in E. subst k0.
      apply negb_true_iff in Hk0.
      assert (str_in k (dict_keys d) = true) as Hc.
      { apply str_in_In. unfold dict_keys. apply in_map_iff.
        now exists (k, v). }
      congruence.
    + now apply IH.
Qed.

(* ------------------------------------------------------------------ *)
(** ** Induction on documents *)

Section ValueInduction.
Variable P : value -> Prop.
Hypothesis HNull : P VNull.
Hypothesis HBool : forall b, P (VBool b).
Hypothesis HInt : forall z, P (VInt z).
Hypothesis HStr : forall s, P (VStr s).
Hypothesis HSeq : forall items, Forall P items -> P (VSeq items).
Hypothesis HMap :
  forall entries, Forall (fun e => P (snd e)) entries -> P (VMap entries).

Fixpoint value_nested_ind (v : value) : P v :=
  match v with
  | VNull => HNull
  | VBool b => HBool b
  | VInt z => HInt z
  | VStr s => HStr s
  | VSeq items =>
      HSeq ((fix go (l : list value) : Forall P l :=
               match l with
               | [] => Forall_nil _
               | x :: l' => Forall_cons _ (value_nested_ind x) (go l')
               end) items)
  | VMap entries =>
      HMap ((fix go (l : list (str * value))
               : Forall (fun e => P (snd e)) l :=
               match l with
               | [] => Forall_nil _
               | e :: l' =>
                   Forall_cons _ (value_nested_ind (snd e)) (go l')
               end) entries)
  end.
End ValueInduction.

(* ------------------------------------------------------------------ *)
(** ** The deep merge *)

Lemma deep_merge_values_map (b o : dict) :
  deep_merge_values (VMap b) (VMap o) = VMap (fold_left merge_step o b).
Proof. reflexivity. Qed.

Lemma deep_merge_values_override (base override : value) :
  (forall b o, base = VMap b -> override = VMap o -> False) ->
  deep_merge_values base override = override.
Proof.
  intros H. destruct base, override; try reflexivity.
  exfalso. eapply H; reflexivity.
Qed.

Lemma merge_step_get_same (m : dict) (k : str) (v : value) :
  dict_get k (merge_step m (k, v)) =
    match dict_get k m with
    | Some mv => Some (deep_merge_values mv v)
    | None => Some v
    end.
Proof.
  unfold merge_step; simpl.
  destruct (dict_get k m); apply dict_get_set_same.
Qed.

Lemma merge_step_get_other (m : dict) (k k' : str) (v : value) :
  k <> k' -> dict_get k' (merge_step m (k, v)) = dict_get k' m.
Proof.
  intros Hne. unfold merge_step; simpl.
  destruct (dict_get k m); now apply dict_get_set_other.
Qed.

Lemma merge_step_keys (m : dict) (k : str) (v : value) :
  dict_keys (merge_step m (k, v)) =
    if str_in k (dict_keys m) then dict_keys m else dict_keys m ++ [k].
Proof.
  unfold merge_step; simpl.
  destruct (dict_get k m) eqn:E.
  - assert (str_in k (dict_keys m) = true) as ->.
    { destruct (str_in k (dict_keys m)) eqn:F; [reflexivity|].
      apply dict_get_None_keys in F. congruence. }
    eapply dict_set_keys_present; eassumption.
  - pose proof E as F. apply dict_get_None_keys in F. rewrite F.
    now apply dict_set_keys_absent.
Qed.

(** The loop of [deep_merge_values], key by key. *)
Lemma merge_loop_get (o b : dict) (k : str) :
  str_nodup (dict_keys o) = true ->
  dict_get k (fold_left merge_step o b) = merged_at k b o.
Proof.
  revert b. induction o as [|[k0 v0] o IH]; intros b Hnd; simpl.
  - unfold merged_at; simpl. now destruct (dict_get k b).
  - simpl in Hnd. apply andb_prop in Hnd as [Hk0 Hnd].
    apply negb_true_iff in Hk0.
    rewrite IH by assumption. unfold merged_at; simpl.
    destruct (str_eqb k k0) eqn:E.
    + apply str_eqb_eq in E. subst k0.
      apply dict_get_None_keys in Hk0. rewrite Hk0.
      rewrite merge_step_get_same. now destruct (dict_get k b).
    + apply str_eqb_neq in E.
      rewrite merge_step_get_other by congruence. reflexivity.
Qed.

(** The loop of [deep_merge_values], insertion order of the result. *)
Lemma merge_loop_keys (o b : dict) :
  str_nodup (dict_keys o) = true ->
  dict_keys (fold_left merge_step o b) =
    dict_keys b
    ++ filter (fun k => negb (str_in k (dict_keys b))) (dict_keys o).
Proof.
  revert b. induction o as [|[k0 v0] o IH]; intros b Hnd; simpl.
  - now rewrite app_nil_r.
  - simpl in Hnd. apply andb_prop in Hnd as [Hk0 Hnd].
    apply negb_true_iff in Hk0.
    rewrite IH by assumption. rewrite merge_step_keys.
    destruct (str_in k0 (dict_keys b)) eqn:E; simpl.
    + reflexivity.
    + rewrite <- app_assoc. simpl. do 2 f_equal.
      apply filter_ext_in. intros k Hk.
      rewrite str_in_app. simpl. rewrite orb_false_r.
      assert (str_eqb k k0 = false) as ->.
      { apply str_eqb_neq. intros ->.
        apply str_in_In in Hk. fold (dict_keys o) in Hk0. congruence. }
      now rewrite orb_false_r.
Qed.

(** A loop whose every item is already settled in [m] leaves [m] as it is. *)
Lemma merge_loop_fixed (o m : dict) :
  (forall k v, In (k, v) o ->
     exists mv, dict_get k m = Some mv /\ deep_merge_values mv v = mv) ->
  fold_left merge_step o m = m.
Proof.
  induction o as [|[k0 v0] o IH]; intros H; simpl; [reflexivity|].
  destruct (H k0 v0) as (mv & Hget & Hmv); [now left|].
  assert (merge_step m (k0, v0) = m) as ->.
  { unfold merge_step; simpl. rewrite Hget, Hmv.
    now apply dict_set_same_value. }
  apply IH. intros k v Hin. apply H. now right.
Qed.

Lemma wf_value_map (entries : dict) :
  wf_value (VMap entries) = true ->
  str_nodup (dict_keys entries) = true
  /\ forall k v, In (k, v) entries -> wf_value v = true.
Proof.
  simpl. intros H. apply andb_prop in H as [Hnd Hall]. split; [exact Hnd|].
  intros k v Hin. rewrite forallb_forall in Hall.
  exact (Hall (k, v) Hin).
Qed.

Lemma deep_merge_values_self (x : value) :
  wf_value x = true -> deep_merge_values x x = x.
Proof.
  induction x as [| | | | items IH | entries IH] using value_nested_ind;
    intros Hwf; try reflexivity.
  rewrite deep_merge_values_map. f_equal.
  apply wf_value_map in Hwf as [Hnd Hwf].
  apply merge_loop_fixed. intros k v Hin. exists v. split.
  - now apply dict_get_In.
  - rewrite Forall_forall in IH. apply (IH (k, v) Hin).
    now apply (Hwf k v).
Qed.

Lemma deep_merge_values_remerge (override : value) :
  wf_value override = true ->
  forall base,
    deep_merge_values (deep_merge_values base override) override
    = deep_merge_values base override.
Proof.
  induction override as [| | | | items IH | entries IH]
    using value_nested_ind; intros Hwf base;
    try (destruct base; reflexivity).
  destruct base as [| | | | |b];
    try (apply (deep_merge_values_self (VMap entries) Hwf)).
  rewrite !deep_merge_values_map. f_equal.
  apply wf_value_map in Hwf as [Hnd Hwf].
  apply merge_loop_fixed. intros k v Hin.
  rewrite merge_loop_get by assumption. unfold merged_at.
  rewrite (dict_get_In k v entries Hnd Hin).
  rewrite Forall_forall in IH.
  destruct (dict_get k b) as [bv|]; eexists; split; try reflexivity.
  - apply (IH (k, v) Hin). now apply (Hwf k v).
  - apply deep_merge_values_self. now apply (Hwf k v).
Qed.

(** C1: the deep merge recurses on mapping-against-mapping only.  When
    [base] and [override] are both mappings the result is a mapping whose
    keys are those of [base], in their order, followed by the keys only
    [override] has; at a key of both it holds the recursive merge, at a key
    of [base] alone the base value, at a key of [override] alone the
    override value.  In every other case the result is [override] itself.
    The merge of the repository's test documents equals the expected
    document. *)
Theorem deep_merge_values_spec (base override : value) :
  wf_value override = true ->
  match base, override with
  | VMap b, VMap o =>
      exists m,
        deep_merge_values base override = VMap m
        /\ dict_keys m =
             dict_keys b
             ++ filter (fun k => negb (str_in k (dict_keys b))) (dict_keys o)
        /\ (forall k, str_in k (dict_keys b) = true ->
                      str_in k (dict_keys m) = true)
        /\ forall k, dict_get k m = merged_at k b o
  | _, _ => deep_merge_values base override = override
  end
  /\ py_eq (deep_merge_values test_base test_override) test_expected = true.
Proof.
  intros Hwf. split; [|reflexivity].
  destruct base as [| | | | |b]; try (destruct override; reflexivity).
  destruct override as [| | | | |o]; try reflexivity.
  apply wf_value_map in Hwf as [Hnd _].
  exists (fold_left merge_step o b). split; [reflexivity|].
  split; [now apply merge_loop_keys|]. split.
  - intros k Hk. rewrite merge_loop_keys by assumption.
    rewrite str_in_app, Hk. reflexivity.
  - intros k. now apply merge_loop_get.
Qed.

Lemma deep_merge_values_spec_witness :
  wf_value test_override = true
  /\ exists m,
       deep_merge_values test_base test_override = VMap m
       /\ dict_keys m = [lit "a"; lit "nested"; lit "lst"; lit "b"]
       /\ dict_get (lit "lst") m = Some (VSeq [VInt 3]).
Proof.
  split; [reflexivity|].
  destruct (deep_merge_values_spec test_base test_override eq_refl)
    as [(m & Hm & Hkeys & _ & Hget) _].
  exists m. split; [exact Hm|]. split; [exact Hkeys|].
  exact (Hget (lit "lst")).
Defined.

(** C6: merging the same override a second time changes nothing, and a
    document merged with itself is that document. *)
Theorem deep_merge_values_idempotent (base override x : value) :
  wf_value override = true ->
  wf_value x = true ->
  deep_merge_values (deep_merge_values base override) override
  = deep_merge_values base override
  /\ deep_merge_values x x = x.
Proof.
  intros Ho Hx. split.
  - now apply deep_merge_values_remerge.
  - now apply deep_merge_values_self.
Qed.

Lemma deep_merge_values_idempotent_witness :
  wf_value test_override = true
  /\ wf_value test_base = true
  /\ deep_merge_values (deep_merge_values test_base test_override)
       test_override
     = deep_merge_values test_base test_override
  /\ deep_merge_values test_base test_base = test_base.
Proof.
  split; [reflexivity|]. split; [reflexivity|].
  exact (deep_merge_values_idempotent test_base test_override test_base
           eq_refl eq_refl).
Defined.

(* ------------------------------------------------------------------ *)
(** ** Inputs *)

Example truthy_test :
  map truthy [lit "true"; lit "TRUE"; lit "1"; lit "yes"; lit "on";
              lit "false"; lit "0"; lit "no"]
  = [true; true; true; true; true; false; false; false].
Proof. reflexivity. Qed.

Example ensure_v_prefix_test :
  ensure_v_prefix (lit "v3.14.4") = Ok (lit "v3.14.4")
  /\ ensure_v_prefix (lit "3.14.4") = Ok (lit "v3.14.4").
Proof. split; reflexivity. Qed.

(** C9: an input set to the empty string is read exactly as an unset one:
    the default when there is one, an error when the input is required and
    has no default, the empty string otherwise. *)
Theorem get_input_empty_as_absent (env : environ) (name : str)
    (default : option str) (required : bool) :
  get_input (setenv (input_key name) [] env) name default required
  = get_input (unsetenv (input_key name) env) name default required
  /\ get_input (setenv (input_key name) [] env) name default required
     = match default with
       | Some d => Ok d
       | None =>
           if required
           then Err (lit "Missing required input: " ++ name
                     ++ lit " (env " ++ input_key name ++ lit ")")
           else Ok []
       end.
Proof.
  unfold get_input, setenv, unsetenv. rewrite str_eqb_refl. simpl.
  destruct default, required; split; reflexivity.
Qed.

(** C5 as the specification words it: the input itself is returned or
    prefixed.  A version with a space before it refutes that. *)
Lemma ensure_v_prefix_returns_input_refuted :
  ~ (forall s : str,
       strip s <> [] ->
       ensure_v_prefix s
       = Ok (if startswith (lit "v") s then s else lit "v" ++ s)).
Proof.
  intros H. specialize (H (lit " 3.14.4")).
  assert (strip (lit " 3.14.4") <> []) as Hs by (vm_compute; discriminate).
  specialize (H Hs). vm_compute in H. discriminate H.
Qed.

(** C5: [ensure_v_prefix] raises when the input is empty after trimming,
    and otherwise works on the trimmed input: the trimmed input as it is
    when that starts with [v], the trimmed input after a [v] when not.  An
    input without surrounding whitespace is its own trimmed form. *)
Theorem ensure_v_prefix_spec (s : str) :
  (strip s = [] -> ensure_v_prefix s = Err (lit "helm_version is empty"))
  /\ (strip s <> [] ->
      ensure_v_prefix s
      = Ok (if startswith (lit "v") (strip s) then strip s
            else lit "v" ++ strip s))
  /\ (strip s = s -> s <> [] ->
      ensure_v_prefix s
      = Ok (if startswith (lit "v") s then s else lit "v" ++ s)).
Proof.
  unfold ensure_v_prefix.
  assert (forall t : str, t <> [] -> is_empty t = false) as Hne
    by (intros [|c t]; [congruence | reflexivity]).
  split; [|split].
  - intros ->. reflexivity.
  - intros H. rewrite (Hne _ H).
    now destruct (startswith (lit "v") (strip s)).
  - intros E H. rewrite E, (Hne _ H).
    now destruct (startswith (lit "v") s).
Qed.

(* ------------------------------------------------------------------ *)
(** ** The package command *)

Example shlex_split_test :
  shlex_split (lit "--dependency-update --debug")
  = Ok [lit "--dependency-update"; lit "--debug"].
Proof. reflexivity. Qed.

Example shlex_split_quotes :
  shlex_split (lit "--set 'a b' " ++ [dquote] ++ lit "c\" ++ [dquote]
               ++ lit "d" ++ [dquote] ++ lit " e\ f ''")
  = Ok [lit "--set"; lit "a b"; lit "c" ++ [dquote] ++ lit "d";
        lit "e f"; []].
Proof. reflexivity. Qed.

Example shlex_split_unclosed :
  shlex_split (lit "--set 'a b") = Err (lit "No closing quotation").
Proof. reflexivity. Qed.

Example build_helm_package_cmd_test :
  build_helm_package_cmd (lit "/ws/chart") (lit "/ws/dist") (lit "1.2.3")
    (lit "4.5.6") (lit "--dependency-update --debug")
  = Ok [ lit "helm"; lit "package"; lit "/ws/chart";
         lit "--destination"; lit "/ws/dist";
         lit "--version"; lit "1.2.3"; lit "--app-version"; lit "4.5.6";
         lit "--dependency-update"; lit "--debug" ].
Proof. reflexivity. Qed.

(** C7: the package command is the nine fixed tokens followed by the
    tokens of [package_args].  It starts with [helm], [package], the chart
    path and [--destination]; [--version] and [--app-version] stand right
    before their values, ahead of every extra token; the extra tokens come
    last, in the order the tokenizer gave them; a blank [package_args]
    adds none.  The command is built whenever the tokenizer accepts
    [package_args], and the tokenizer's error is the builder's otherwise. *)
Theorem build_helm_package_cmd_spec (chart_path destination
    helm_chart_version helm_chart_app_version package_args : str) :
  (strip package_args = [] -> extra_tokens package_args = Ok [])
  /\ (strip package_args <> [] ->
      extra_tokens package_args = shlex_split package_args)
  /\ match extra_tokens package_args with
     | Ok extra =>
         exists cmd,
           build_helm_package_cmd chart_path destination helm_chart_version
             helm_chart_app_version package_args = Ok cmd
           /\ firstn 4 cmd
              = [lit "helm"; lit "package"; chart_path; lit "--destination"]
           /\ nth_error cmd 4 = Some destination
           /\ nth_error cmd 5 = Some (lit "--version")
           /\ nth_error cmd 6 = Some helm_chart_version
           /\ nth_error cmd 7 = Some (lit "--app-version")
           /\ nth_error cmd 8 = Some helm_chart_app_version
           /\ skipn 9 cmd = extra
           /\ length cmd = 9 + length extra
     | Err msg =>
         build_helm_package_cmd chart_path destination helm_chart_version
           helm_chart_app_version package_args = Err msg
     end.
Proof.
  split; [|split].
  - unfold extra_tokens. intros ->. reflexivity.
  - unfold extra_tokens. destruct (strip package_args); [congruence|].
    reflexivity.
  - unfold build_helm_package_cmd.
    destruct (extra_tokens package_args) as [extra|msg]; simpl.
    + eexists. split; [reflexivity|]. repeat split.
    + reflexivity.
Qed.

(* ------------------------------------------------------------------ *)
(** ** Finding the created package *)

Example re_search_helm_line :
  re_search saved_pattern (helm_says (lit "/ws/dist/my-1.2.3.tgz"))
  = Some (lit "/ws/dist/my-1.2.3.tgz").
Proof. reflexivity. Qed.

Example re_search_ignores_case :
  re_search saved_pattern (lit "SAVED IT TO:/d/x.tgz  ")
  = Some (lit "/d/x.tgz  ").
Proof. reflexivity. Qed.

Example re_search_path_on_next_line :
  re_search saved_pattern (lit "saved it to:" ++ [newline] ++ lit "/d/x.tgz")
  = Some (lit "/d/x.tgz").
Proof. reflexivity. Qed.

(** [re_search] returns the match of the first start that has one. *)
Lemma re_search_leftmost (items : list regex_item) (s : str) (g : str) :
  re_search items s = Some g ->
  exists pre suf,
    s = pre ++ suf
    /\ match_here items [] suf = Some g
    /\ forall pre' suf',
         s = pre' ++ suf' -> length pre' < length pre ->
         match_here items [] suf' = None.
Proof.
  induction s as [|c s IH]; simpl.
  - destruct (match_here items [] []) eqn:E; [|discriminate].
    intros H. injection H as ->. exists [], []. repeat split; try assumption.
    intros pre' suf' _ Hlt. simpl in Hlt. lia.
  - destruct (match_here items [] (c :: s)) eqn:E.
    + intros H. injection H as ->. exists [], (c :: s).
      repeat split; try assumption.
      intros pre' suf' _ Hlt. simpl in Hlt. lia.
    + intros H. destruct (IH H) as (pre & suf & -> & Hm & Hmin).
      exists (c :: pre), suf. repeat split; try assumption.
      intros [|c' pre'] suf' Heq Hlt; simpl in Heq.
      * now subst suf'.
      * injection Heq as -> Heq. apply (Hmin pre' suf' Heq).
        simpl in Hlt. lia.
Qed.

Lemma re_search_none (items : list regex_item) (s : str) :
  re_search items s = None ->
  forall pre suf, s = pre ++ suf -> match_here items [] suf = None.
Proof.
  induction s as [|c s IH]; simpl.
  - destruct (match_here items [] []) eqn:E; [discriminate|].
    intros _ [|? ?] suf Heq; simpl in Heq; [now subst suf | discriminate].
  - destruct (match_here items [] (c :: s)) eqn:E; [discriminate|].
    intros H [|c' pre] suf Heq; simpl in Heq.
    + now subst suf.
    + injection Heq as -> Heq. now apply (IH H pre suf).
Qed.

Lemma insert_newest_In (getmtime : str -> Z) (p q : str) (l : list str) :
  In q (insert_newest getmtime p l) <-> q = p \/ In q l.
Proof.
  induction l as [|x l IH]; simpl; [intuition|].
  destruct (getmtime p <? getmtime x)%Z; simpl; rewrite ?IH; intuition.
Qed.

Lemma sort_newest_first_In (getmtime : str -> Z) (q : str) (l : list str) :
  In q (sort_newest_first getmtime l) <-> In q l.
Proof.
  induction l as [|x l IH]; simpl; [tauto|].
  rewrite insert_newest_In, IH. intuition.
Qed.

(** The head of the sorted list is a file no other file is newer than. *)
Lemma sort_newest_first_head (getmtime : str -> Z) (l : list str) :
  match sort_newest_first getmtime l with
  | [] => l = []
  | newest :: _ =>
      In newest l /\ forall q, In q l -> (getmtime q <= getmtime newest)%Z
  end.
Proof.
  induction l as [|x l IH]; simpl; [reflexivity|].
  destruct (sort_newest_first getmtime l) as [|y sorted] eqn:E; simpl.
  - subst l. split; [now left|]. intros q [->|[]]. lia.
  - destruct IH as [Hin Hmax].
    destruct (getmtime x <? getmtime y)%Z eqn:Hlt.
    + apply Z.ltb_lt in Hlt. split; [now right|].
      intros q [->|Hq]; [lia | now apply Hmax].
    + apply Z.ltb_ge in Hlt. split; [now left|].
      intros q [->|Hq]; [lia|]. specialize (Hmax q Hq). lia.
Qed.

(** C3 as the specification words it would take the last line that names
    a path.  With two such lines the code reports the first one. *)
Lemma find_package_path_last_occurrence_refuted :
  let out := helm_says (lit "/ws/dist/a-1.0.0.tgz") ++ helm_says (lit "/ws/dist/b-1.0.0.tgz") in
  re_search_last saved_pattern out = Some (lit "/ws/dist/b-1.0.0.tgz")
  /\ find_package_path out [] (fun _ => 0%Z) = Ok (lit "/ws/dist/a-1.0.0.tgz")
  /\ find_package_path out [] (fun _ => 0%Z)
     <> Ok (strip (lit "/ws/dist/b-1.0.0.tgz")).
Proof.
  cbv zeta. split; [vm_compute; reflexivity|].
  split; [vm_compute; reflexivity|].
  vm_compute. discriminate.
Qed.

(** C3: the search of the tool output comes first and decides alone when
    it matches.  The match taken is the one at the leftmost position of the
    output where [saved it to:] (in any case), optional whitespace and a
    rest of line follow; the reported path is that rest of line, trimmed.
    Only when no position matches is the destination listing consulted,
    and the file reported is one that no other listed file is newer than.
    The run fails with the message that carries the raw output when the
    listing is consulted and is empty, and when the path found is empty. *)
Theorem find_package_path_spec (out : str) (tgzs : list str)
    (getmtime : str -> Z) :
  match re_search saved_pattern out with
  | Some g =>
      (exists pre suf,
         out = pre ++ suf
         /\ match_here saved_pattern [] suf = Some g
         /\ forall pre' suf',
              out = pre' ++ suf' -> length pre' < length pre ->
              match_here saved_pattern [] suf' = None)
      /\ find_package_path out tgzs getmtime
         = if is_empty (strip g) then Err (not_found_message out)
           else Ok (strip g)
  | None =>
      (forall pre suf,
         out = pre ++ suf -> match_here saved_pattern [] suf = None)
      /\ match tgzs with
         | [] =>
             find_package_path out tgzs getmtime
             = Err (not_found_message out)
         | _ :: _ =>
             exists newest,
               In newest tgzs
               /\ (forall q, In q tgzs ->
                             (getmtime q <= getmtime newest)%Z)
               /\ find_package_path out tgzs getmtime
                  = if is_empty newest then Err (not_found_message out)
                    else Ok newest
         end
  end.
Proof.
  unfold find_package_path.
  destruct (re_search saved_pattern out) as [g|] eqn:E.
  - split; [now apply re_search_leftmost|].
    now destruct (strip g).
  - split; [now apply re_search_none|].
    destruct tgzs as [|t tgzs]; [reflexivity|].
    pose proof (sort_newest_first_head getmtime (t :: tgzs)) as H.
    destruct (sort_newest_first getmtime (t :: tgzs)) as [|newest rest];
      [discriminate|].
    destruct H as [Hin Hmax]. exists newest. repeat split; try assumption.
    now destruct newest.
Qed.

Example find_package_path_prefers_output :
  find_package_path (helm_says (lit "/ws/dist/my-1.2.3.tgz"))
    [lit "/ws/dist/old-0.1.0.tgz"] (fun _ => 7%Z)
  = Ok (lit "/ws/dist/my-1.2.3.tgz").
Proof. reflexivity. Qed.

Example find_package_path_falls_back :
  find_package_path (lit "done")
    [lit "/d/a.tgz"; lit "/d/b.tgz"; lit "/d/c.tgz"]
    (fun p => if str_eqb p (lit "/d/b.tgz") then 9%Z else 3%Z)
  = Ok (lit "/d/b.tgz").
Proof. reflexivity. Qed.

(* ------------------------------------------------------------------ *)
(** ** Paths *)

Example resolve_path_relative_test :
  resolve_path (lit "/ws") (lit "charts/my") = lit "/ws/charts/my".
Proof. reflexivity. Qed.

Example resolve_path_absolute_test :
  resolve_path (lit "/ws") (lit "/abs/path") = lit "/abs/path".
Proof. reflexivity. Qed.

Example workspace_relpath_test :
  workspace_relpath (lit "/") (lit "/github/workspace")
    (lit "/github/workspace/dist/x.tgz")
  = lit "dist/x.tgz".
Proof. reflexivity. Qed.

Lemma is_empty_false (s : str) : s <> [] -> is_empty s = false.
Proof. destruct s; [congruence | reflexivity]. Qed.

Lemma is_nil_app_false (A : Type) (l : list A) (x : A) :
  is_nil (l ++ [x]) = false.
Proof. now destruct l. Qed.

Lemma norm_comps_app (rooted : bool) (S c1 c2 : list str) :
  norm_comps rooted S (c1 ++ c2)
  = norm_comps rooted (norm_comps rooted S c1) c2.
Proof. apply fold_left_app. Qed.

Lemma norm_step_empty (rooted : bool) (S : list str) :
  norm_step rooted S [] = S.
Proof. reflexivity. Qed.

Lemma norm_step_curdir (rooted : bool) (S : list str) :
  norm_step rooted S curdir = S.
Proof. reflexivity. Qed.

Lemma norm_step_name (rooted : bool) (S : list str) (c : str) :
  is_name c -> norm_step rooted S c = S ++ [c].
Proof.
  intros (H0 & H1 & H2). unfold norm_step.
  rewrite (is_empty_false H0).
  apply str_eqb_neq in H1, H2. rewrite H1, H2. reflexivity.
Qed.

Lemma norm_comps_names (rooted : bool) (S P : list str) :
  Forall is_name P -> norm_comps rooted S P = S ++ P.
Proof.
  revert S. induction P as [|c P IH]; intros S H; simpl.
  - now rewrite app_nil_r.
  - inversion H as [|? ? Hc HP]; subst.
    unfold norm_comps in *. simpl. rewrite (norm_step_name _ _ Hc).
    rewrite IH by assumption. now rewrite <- app_assoc.
Qed.

(** What one round can do to the stack. *)
Lemma norm_step_cases (rooted : bool) (S : list str) (c : str) :
  norm_step rooted S c = S
  \/ (norm_step rooted S c = S ++ [c] /\ c <> [] /\ c <> curdir)
  \/ norm_step rooted S c = removelast S.
Proof.
  unfold norm_step.
  destruct (is_empty c) eqn:E0; simpl; [now left|].
  destruct (str_eqb c curdir) eqn:E1; [now left|].
  match goal with |- context [if ?b then _ else _] => destruct b end.
  - right; left. split; [reflexivity|]. split.
    + intros ->. discriminate.
    + now apply str_eqb_neq.
  - destruct (is_nil S); simpl; [now left | now right; right].
Qed.

Lemma Forall_removelast (A : Type) (Q : A -> Prop) (l : list A) :
  Forall Q l -> Forall Q (removelast l).
Proof.
  induction l as [|x l IH]; intros H; simpl; [constructor|].
  inversion H; subst. destruct l; [constructor|].
  constructor; [assumption | now apply IH].
Qed.

Lemma norm_step_Forall (Q : str -> Prop) (rooted : bool) (S : list str)
    (c : str) :
  Forall Q S -> (c <> [] -> c <> curdir -> Q c) ->
  Forall Q (norm_step rooted S c).
Proof.
  intros HS Hc.
  destruct (norm_step_cases rooted S c) as [-> | [(-> & H0 & H1) | ->]].
  - assumption.
  - apply Forall_app. split; [assumption|]. constructor; [auto | constructor].
  - now apply Forall_removelast.
Qed.

Lemma norm_comps_Forall (Q : str -> Prop) (rooted : bool)
    (comps S : list str) :
  Forall Q S -> Forall (fun c => c <> [] -> c <> curdir -> Q c) comps ->
  Forall Q (norm_comps rooted S comps).
Proof.
  revert S. induction comps as [|c comps IH]; intros S HS Hc; simpl.
  - assumption.
  - inversion Hc; subst. apply IH; [|assumption].
    now apply norm_step_Forall.
Qed.

(** Under a root no [..] reaches the stack. *)
Lemma norm_step_rooted_no_pardir (S : list str) (c : str) :
  Forall (fun x => x <> pardir) S ->
  Forall (fun x => x <> pardir) (norm_step true S c).
Proof.
  intros HS. destruct (str_eqb c pardir) eqn:E.
  - apply str_eqb_eq in E. subst c. unfold norm_step. simpl.
    destruct S as [|x S] using rev_ind; [constructor|].
    rewrite is_nil_app_false, last_last. simpl.
    apply Forall_app in HS as [HS Hx].
    inversion Hx as [|? ? Hx' _]; subst.
    apply str_eqb_neq in Hx'. rewrite Hx'.
    now rewrite removelast_last.
  - apply norm_step_Forall; [assumption|]. intros _ _.
    now apply str_eqb_neq.
Qed.

Lemma norm_comps_rooted_no_pardir (comps S : list str) :
  Forall (fun x => x <> pardir) S ->
  Forall (fun x => x <> pardir) (norm_comps true S comps).
Proof.
  revert S. induction comps as [|c comps IH]; intros S HS; simpl.
  - assumption.
  - apply IH. now apply norm_step_rooted_no_pardir.
Qed.

Lemma norm_comps_nonempty_not_curdir (rooted : bool) (comps : list str) :
  Forall (fun x => x <> [] /\ x <> curdir) (norm_comps rooted [] comps).
Proof.
  apply norm_comps_Forall; [constructor|].
  apply Forall_forall. intros c _ H0 H1. now split.
Qed.

Lemma norm_comps_rooted_names (comps : list str) :
  Forall is_name (norm_comps true [] comps).
Proof.
  pose proof (norm_comps_nonempty_not_curdir true comps) as H1.
  pose proof (@norm_comps_rooted_no_pardir comps [] (Forall_nil _)) as H2.
  rewrite Forall_forall in *. intros c Hc.
  destruct (H1 c Hc). specialize (H2 c Hc). now repeat split.
Qed.

(** Normalising first and resolving under a root after is resolving under
    the root at once. *)
Lemma norm_comps_rooted_after_relative (S comps : list str) :
  norm_comps true S (norm_comps false [] comps) = norm_comps true S comps.
Proof.
  induction comps as [|c comps IH] using rev_ind; [reflexivity|].
  unfold norm_comps at 2. rewrite fold_left_app. simpl.
  fold (norm_comps false [] comps).
  rewrite (norm_comps_app true S comps [c]). rewrite <- IH.
  set (T := norm_comps false [] comps).
  assert (Forall (fun x => x <> [] /\ x <> curdir) T) as HT
    by apply norm_comps_nonempty_not_curdir.
  clearbody T. clear IH.
  destruct (is_empty c) eqn:E0.
  { destruct c; [|discriminate]. reflexivity. }
  destruct (str_eqb c curdir) eqn:E1.
  { apply str_eqb_eq in E1. subst c. reflexivity. }
  destruct (str_eqb c pardir) eqn:E2.
  - apply str_eqb_eq in E2. subst c.
    destruct T as [|x T _] using rev_ind; [reflexivity|].
    unfold norm_step at 1. simpl.
    rewrite is_nil_app_false, last_last. simpl.
    destruct (str_eqb x pardir) eqn:Ex.
    + now rewrite (norm_comps_app true S (T ++ [x]) [pardir]).
    + rewrite removelast_last.
      rewrite (norm_comps_app true S T [x]). simpl.
      apply Forall_app in HT as [_ Hx].
      inversion Hx as [|? ? [Hx0 Hx1] _]; subst.
      assert (is_name x) as Hn
        by (repeat split; try assumption; now apply str_eqb_neq).
      rewrite (norm_step_name true _ Hn).
      unfold norm_step. simpl.
      rewrite is_nil_app_false, last_last, Ex. simpl.
      now rewrite removelast_last.
  - assert (is_name c) as Hn.
    { repeat split.
      - intros ->. discriminate.
      - now apply str_eqb_neq.
      - now apply str_eqb_neq. }
    rewrite (norm_step_name false T Hn).
    now rewrite (norm_comps_app true S T [c]).
Qed.

(** *** Splitting and joining on the separator *)

Lemma split_sep_cons (s : str) : exists h t, split_sep s = h :: t.
Proof.
  induction s as [|c s (h & t & IH)]; simpl; [now eexists; eexists|].
  destruct (Ascii.eqb c sep); [now eexists; eexists|].
  rewrite IH. now eexists; eexists.
Qed.

Lemma split_sep_app_sep (a b : str) :
  split_sep (a ++ sep :: b) = split_sep a ++ split_sep b.
Proof.
  induction a as [|c a IH]; simpl; [reflexivity|].
  destruct (Ascii.eqb c sep); rewrite IH; [reflexivity|].
  destruct (split_sep_cons a) as (h & t & ->). reflexivity.
Qed.

Lemma split_sep_nosep (s : str) : Forall nosep (split_sep s).
Proof.
  induction s as [|c s IH]; simpl.
  - constructor; [intros [] | constructor].
  - destruct (Ascii.eqb c sep) eqn:E.
    + constructor; [intros [] | assumption].
    + destruct (split_sep s) as [|h t].
      * constructor; [|constructor]. intros [->|[]].
        now rewrite Ascii.eqb_refl in E.
      * inversion IH; subst. constructor; [|assumption].
        intros [->|Hin]; [now rewrite Ascii.eqb_refl in E | contradiction].
Qed.

Lemma split_sep_single (x : str) : nosep x -> split_sep x = [x].
Proof.
  induction x as [|c x IH]; intros H; simpl; [reflexivity|].
  destruct (Ascii.eqb c sep) eqn:E.
  - apply Ascii.eqb_eq in E. subst c. exfalso. apply H. now left.
  - rewrite IH; [reflexivity|]. intros Hin. apply H. now right.
Qed.

Lemma split_join_sep (comps : list str) :
  comps <> [] -> Forall nosep comps -> split_sep (join_sep comps) = comps.
Proof.
  induction comps as [|x comps IH]; intros Hne H; [congruence|].
  inversion H as [|? ? Hx Hrest]; subst.
  destruct comps as [|y comps]; simpl.
  - now apply split_sep_single.
  - rewrite split_sep_app_sep, (split_sep_single Hx). simpl. f_equal.
    apply IH; [discriminate | assumption].
Qed.

Lemma norm_comps_skip_empty (rooted : bool) (comps S : list str) :
  norm_comps rooted S (filter (fun x => negb (is_empty x)) comps)
  = norm_comps rooted S comps.
Proof.
  revert S. induction comps as [|c comps IH]; intros S; simpl;
    [reflexivity|].
  destruct c as [|a c]; simpl; [apply IH|]. apply IH.
Qed.

Lemma nonempty_comps_repeat_sep (k : nat) (s : str) :
  nonempty_comps (repeat sep k ++ s) = nonempty_comps s.
Proof.
  induction k as [|k IH]; simpl; [reflexivity|].
  unfold nonempty_comps in *. simpl. exact IH.
Qed.

Lemma nonempty_comps_join_sep (comps : list str) :
  Forall (fun c => c <> [] /\ nosep c) comps ->
  nonempty_comps (join_sep comps) = comps.
Proof.
  intros H. destruct comps as [|x comps]; [reflexivity|].
  unfold nonempty_comps. rewrite split_join_sep.
  - apply forallb_filter_id. apply forallb_forall. intros c Hc.
    rewrite Forall_forall in H. destruct (H c Hc) as [H0 _].
    now rewrite (is_empty_false H0).
  - discriminate.
  - eapply Forall_impl; [|exact H]. now intros c [_ Hc].
Qed.

Lemma norm_comps_split_nosep (rooted : bool) (s : str) (S : list str) :
  Forall nosep S -> Forall nosep (norm_comps rooted S (split_sep s)).
Proof.
  intros HS. apply norm_comps_Forall; [assumption|].
  eapply Forall_impl; [|apply split_sep_nosep]. auto.
Qed.

(** *** Joining paths *)

Lemma endswith_sep_inv (a : str) :
  endswith_sep a = true -> exists a', a = a' ++ [sep].
Proof.
  unfold endswith_sep. destruct (rev a) as [|c r] eqn:E; [discriminate|].
  intros H. apply Ascii.eqb_eq in H. subst c.
  exists (rev r). rewrite <- (rev_involutive a), E. reflexivity.
Qed.

Lemma path_join_relative (a b : str) :
  isabs b = false ->
  path_join a b
  = if is_empty a || endswith_sep a then a ++ b else a ++ sep :: b.
Proof. unfold path_join, isabs. now intros ->. Qed.

Lemma norm_comps_path_join (rooted : bool) (S : list str) (a b : str) :
  isabs b = false ->
  norm_comps rooted S (split_sep (path_join a b))
  = norm_comps rooted (norm_comps rooted S (split_sep a)) (split_sep b).
Proof.
  intros Hb. rewrite (@path_join_relative a b Hb).
  destruct a as [|c a]; [reflexivity|].
  change (is_empty (c :: a)) with false. simpl orb.
  destruct (endswith_sep (c :: a)) eqn:E.
  - apply endswith_sep_inv in E as (a' & ->).
    rewrite <- app_assoc. simpl app.
    rewrite !split_sep_app_sep, !norm_comps_app. reflexivity.
  - rewrite split_sep_app_sep, norm_comps_app. reflexivity.
Qed.

Lemma isabs_path_join (a b : str) :
  isabs b = false -> isabs (path_join a b) = isabs a.
Proof.
  intros Hb. rewrite (@path_join_relative a b Hb).
  destruct a as [|c a]; [exact Hb|].
  change (is_empty (c :: a)) with false. simpl orb.
  now destruct (endswith_sep (c :: a)).
Qed.

(** *** The shape of a normal form *)

Lemma initial_slashes_isabs (y : str) :
  isabs y = true -> exists k, initial_slashes y = S k.
Proof.
  unfold isabs, initial_slashes. intros ->.
  match goal with |- context [if ?b then _ else _] => destruct b end;
    eexists; reflexivity.
Qed.

Lemma initial_slashes_relative (y : str) :
  isabs y = false -> initial_slashes y = 0.
Proof. unfold isabs, initial_slashes. now intros ->. Qed.

Lemma normpath_rooted (y : str) :
  isabs y = true ->
  exists k,
    normpath y
    = repeat sep (S k) ++ join_sep (norm_comps true [] (split_sep y)).
Proof.
  intros H. destruct (initial_slashes_isabs y H) as (k & Hk).
  exists k. unfold normpath. rewrite Hk.
  destruct y as [|c y]; [discriminate|]. reflexivity.
Qed.

Lemma is_empty_join_sep (P : list str) :
  Forall (fun c => c <> []) P -> is_empty (join_sep P) = is_nil P.
Proof.
  intros H. destruct P as [|x P]; [reflexivity|].
  inversion H as [|? ? Hx _]; subst.
  destruct x as [|c x]; [congruence|]. now destruct P.
Qed.

Lemma normpath_relative (p : str) :
  isabs p = false ->
  normpath p
  = if is_nil (norm_comps false [] (split_sep p)) then curdir
    else join_sep (norm_comps false [] (split_sep p)).
Proof.
  intros H. destruct p as [|c p]; [reflexivity|].
  unfold normpath. rewrite (initial_slashes_relative _ H).
  change (is_empty (c :: p)) with false. cbv iota. simpl repeat.
  simpl app. cbv zeta. change (negb (0 =? 0)) with false.
  rewrite is_empty_join_sep; [reflexivity|].
  eapply Forall_impl; [|apply norm_comps_nonempty_not_curdir].
  now intros x [Hx _].
Qed.

Lemma comps_rooted (y : str) :
  isabs y = true ->
  nonempty_comps (normpath y) = norm_comps true [] (split_sep y).
Proof.
  intros H. destruct (normpath_rooted y H) as (k & ->).
  rewrite nonempty_comps_repeat_sep. apply nonempty_comps_join_sep.
  pose proof (norm_comps_rooted_names (split_sep y)) as Hn.
  pose proof (@norm_comps_split_nosep true y [] (Forall_nil _)) as Hs.
  rewrite Forall_forall in *. intros c Hc. split.
  - now destruct (Hn c Hc).
  - now apply Hs.
Qed.

Lemma startswith_sep_join_sep (P : list str) :
  Forall (fun c => c <> [] /\ nosep c) P ->
  startswith [sep] (join_sep P) = false.
Proof.
  intros H. destruct P as [|x P]; [reflexivity|].
  inversion H as [|? ? [Hx Hs] _]; subst.
  destruct x as [|c x]; [congruence|].
  assert (Ascii.eqb sep c = false) as Hc.
  { destruct (Ascii.eqb sep c) eqn:E; [|reflexivity].
    apply Ascii.eqb_eq in E. subst c. exfalso. apply Hs. now left. }
  destruct P; cbn [join_sep app startswith]; now rewrite Hc.
Qed.

Lemma relative_comps_ok (p : str) :
  Forall (fun c => c <> [] /\ nosep c) (norm_comps false [] (split_sep p)).
Proof.
  pose proof (norm_comps_nonempty_not_curdir false (split_sep p)) as Hn.
  pose proof (@norm_comps_split_nosep false p [] (Forall_nil _)) as Hs.
  rewrite Forall_forall in *. intros c Hc. split.
  - now destruct (Hn c Hc).
  - now apply Hs.
Qed.

Lemma isabs_normpath (x : str) : isabs (normpath x) = isabs x.
Proof.
  destruct (isabs x) eqn:E.
  - destruct (normpath_rooted x E) as (k & ->). reflexivity.
  - rewrite (normpath_relative x E).
    destruct (is_nil (norm_comps false [] (split_sep x))); [reflexivity|].
    apply startswith_sep_join_sep, relative_comps_ok.
Qed.

Lemma normpath_nonempty (x : str) : is_empty (normpath x) = false.
Proof.
  destruct (isabs x) eqn:E.
  - destruct (normpath_rooted x E) as (k & ->). reflexivity.
  - rewrite (normpath_relative x E).
    destruct (norm_comps false [] (split_sep x)) as [|c P] eqn:EP;
      [reflexivity|].
    pose proof (relative_comps_ok x) as H. rewrite EP in H.
    cbn [is_nil]. rewrite is_empty_join_sep; [reflexivity|].
    eapply Forall_impl; [|exact H]. now intros y [Hy _].
Qed.

(** *** Absolute components *)

Lemma isabs_nonempty (x : str) : isabs x = true -> x <> [].
Proof. intros H ->. discriminate. Qed.

(** The components [relpath] compares: those of the path itself when it
    is absolute, those of the working directory followed by it when not. *)
Lemma comps_abspath (cwd x : str) :
  isabs cwd = true ->
  nonempty_comps (abspath cwd x)
  = norm_comps true
      (if isabs x then [] else norm_comps true [] (split_sep cwd))
      (split_sep x).
Proof.
  intros Hcwd. unfold abspath. destruct (isabs x) eqn:E.
  - now apply comps_rooted.
  - rewrite comps_rooted.
    + now apply norm_comps_path_join.
    + now rewrite isabs_path_join.
Qed.

Lemma comps_abspath_normpath (cwd x : str) :
  isabs cwd = true ->
  nonempty_comps (abspath cwd (normpath x)) = nonempty_comps (abspath cwd x).
Proof.
  intros Hcwd. rewrite !comps_abspath by assumption.
  rewrite isabs_normpath. destruct (isabs x) eqn:E.
  - rewrite <- norm_comps_skip_empty.
    fold (nonempty_comps (normpath x)). rewrite (comps_rooted x E).
    apply (norm_comps_names true []), norm_comps_rooted_names.
  - rewrite (normpath_relative x E).
    rewrite <- (norm_comps_rooted_after_relative _ (split_sep x)).
    destruct (norm_comps false [] (split_sep x)) as [|c P] eqn:EP;
      [reflexivity|].
    cbn [is_nil]. rewrite split_join_sep; [reflexivity | discriminate |].
    pose proof (relative_comps_ok x) as H. rewrite EP in H.
    eapply Forall_impl; [|exact H]. now intros y [_ Hy].
Qed.

Lemma comps_abspath_join (cwd ws p : str) :
  isabs cwd = true -> isabs p = false ->
  nonempty_comps (abspath cwd (path_join ws p))
  = norm_comps true (nonempty_comps (abspath cwd ws)) (split_sep p).
Proof.
  intros Hcwd Hp. rewrite !comps_abspath by assumption.
  rewrite (@isabs_path_join ws p Hp).
  now apply norm_comps_path_join.
Qed.

(** *** Relative paths that stay below *)

Lemma split_sep_normpath_pardir (p : str) :
  isabs p = false ->
  str_in pardir (split_sep (normpath p))
  = str_in pardir (norm_comps false [] (split_sep p)).
Proof.
  intros H. rewrite (normpath_relative p H).
  destruct (norm_comps false [] (split_sep p)) as [|c P] eqn:EP;
    [reflexivity|].
  cbn [is_nil]. rewrite split_join_sep; [reflexivity | discriminate |].
  pose proof (relative_comps_ok p) as Hok. rewrite EP in Hok.
  eapply Forall_impl; [|exact Hok]. now intros y [_ Hy].
Qed.

Lemma stays_below_names (p : str) :
  stays_below p = true ->
  isabs p = false /\ Forall is_name (norm_comps false [] (split_sep p)).
Proof.
  unfold stays_below. intros H. apply andb_prop in H as [Hrel Hup].
  apply negb_true_iff in Hrel, Hup. split; [assumption|].
  rewrite (split_sep_normpath_pardir p Hrel) in Hup.
  pose proof (norm_comps_nonempty_not_curdir false (split_sep p)) as Hn.
  rewrite Forall_forall in *. intros c Hc. destruct (Hn c Hc) as [H0 H1].
  repeat split; try assumption.
  intros ->. apply str_in_In in Hc. congruence.
Qed.

Lemma common_prefix_len_app (S P : list str) :
  common_prefix_len S (S ++ P) = length S.
Proof.
  induction S as [|x S IH]; simpl; [now destruct P|].
  now rewrite str_eqb_refl, IH.
Qed.

Lemma endswith_sep_app (a b : str) :
  b <> [] -> endswith_sep (a ++ b) = endswith_sep b.
Proof.
  intros Hb. unfold endswith_sep. rewrite rev_app_distr.
  destruct (rev b) as [|c r] eqn:E; [|reflexivity].
  exfalso. apply Hb. rewrite <- (rev_involutive b), E. reflexivity.
Qed.

Lemma endswith_sep_nosep (s : str) : nosep s -> endswith_sep s = false.
Proof.
  intros H. unfold endswith_sep. destruct (rev s) as [|c r] eqn:E;
    [reflexivity|].
  destruct (Ascii.eqb c sep) eqn:Ec; [|reflexivity].
  apply Ascii.eqb_eq in Ec. subst c. exfalso. apply H.
  apply in_rev. rewrite E. now left.
Qed.

Lemma fold_path_join (rest : list str) (acc : str) :
  acc <> [] -> endswith_sep acc = false ->
  Forall (fun c => c <> [] /\ nosep c) rest ->
  fold_left path_join rest acc = acc ++ concat (map (cons sep) rest).
Proof.
  revert acc. induction rest as [|b rest IH]; intros acc Hne Hend H; simpl.
  - now rewrite app_nil_r.
  - inversion H as [|? ? [Hb Hs] Hrest]; subst.
    assert (isabs b = false) as Hrel.
    { apply (startswith_sep_join_sep (P := [b])).
      constructor; [now split | constructor]. }
    rewrite (@path_join_relative acc b Hrel).
    rewrite (is_empty_false Hne), Hend. simpl orb. cbv iota.
    rewrite IH; try assumption.
    + now rewrite <- app_assoc.
    + now destruct acc.
    + rewrite (endswith_sep_app acc (b := sep :: b)) by discriminate.
      change (sep :: b) with ([sep] ++ b).
      rewrite (endswith_sep_app [sep] Hb). now apply endswith_sep_nosep.
Qed.

Lemma join_sep_concat (x : str) (rest : list str) :
  join_sep (x :: rest) = x ++ concat (map (cons sep) rest).
Proof.
  revert x. induction rest as [|y rest IH]; intros x; simpl.
  - now rewrite app_nil_r.
  - f_equal. f_equal. apply IH.
Qed.

Lemma relpath_below (cwd base path : str) (P : list str) :
  isabs cwd = true ->
  Forall (fun c => c <> [] /\ nosep c) P ->
  nonempty_comps (abspath cwd path)
  = nonempty_comps (abspath cwd base) ++ P ->
  is_empty path = false ->
  relpath cwd path base = Ok (if is_nil P then curdir else join_sep P).
Proof.
  intros Hcwd HP Hcomps Hne. unfold relpath. rewrite Hne, Hcomps.
  rewrite common_prefix_len_app, Nat.sub_diag, skipn_app, Nat.sub_diag.
  rewrite skipn_all. simpl.
  destruct P as [|x rest]; [reflexivity|].
  inversion HP as [|? ? [Hx Hs] Hrest]; subst. cbn [is_nil].
  rewrite fold_path_join; try assumption.
  - now rewrite join_sep_concat.
  - now apply endswith_sep_nosep.
Qed.

Lemma normpath_names (p : str) :
  isabs p = false ->
  Forall is_name (norm_comps false [] (split_sep p)) ->
  normpath (normpath p) = normpath p.
Proof.
  intros Hrel Hn. rewrite (normpath_relative p Hrel).
  destruct (norm_comps false [] (split_sep p)) as [|c P] eqn:EP;
    [reflexivity|].
  cbn [is_nil].
  pose proof (relative_comps_ok p) as Hok. rewrite EP in Hok.
  rewrite normpath_relative by now apply startswith_sep_join_sep.
  rewrite split_join_sep.
  - rewrite (norm_comps_names false [] Hn). reflexivity.
  - discriminate.
  - eapply Forall_impl; [|exact Hok]. now intros y [_ Hy].
Qed.

(** C8: resolving a relative path against the workspace and reporting the
    result relative to the workspace gives the path back in normal form,
    whatever the workspace and the working directory are, as long as the
    path's normal form does not climb above its start.  So the reported
    path and the path are equal under normalization, and [dist/x.tgz]
    comes back as it is. *)
Theorem workspace_relpath_resolve_path (cwd ws p : str) :
  isabs cwd = true ->
  stays_below p = true ->
  workspace_relpath cwd ws (resolve_path ws p) = normpath p
  /\ normpath (workspace_relpath cwd ws (resolve_path ws p)) = normpath p
  /\ workspace_relpath cwd ws (resolve_path ws (lit "dist/x.tgz"))
     = lit "dist/x.tgz".
Proof.
  intros Hcwd.
  assert (forall q, stays_below q = true ->
            workspace_relpath cwd ws (resolve_path ws q) = normpath q) as Hmain.
  { intros q Hq. apply stays_below_names in Hq as [Hrel Hn].
    unfold resolve_path. rewrite Hrel. unfold workspace_relpath.
    pose proof (relative_comps_ok q) as Hok.
    rewrite (@relpath_below cwd (normpath ws)
               (normpath (normpath (path_join ws q)))
               (norm_comps false [] (split_sep q))); try assumption.
    - now rewrite (normpath_relative q Hrel).
    - rewrite !comps_abspath_normpath by assumption.
      rewrite comps_abspath_join by assumption.
      rewrite <- norm_comps_rooted_after_relative.
      now apply norm_comps_names.
    - apply normpath_nonempty. }
  intros Hp. split; [now apply Hmain|]. split.
  - rewrite (Hmain p Hp). apply stays_below_names in Hp as [Hrel Hn].
    now apply normpath_names.
  - now rewrite (Hmain (lit "dist/x.tgz")).
Qed.

Lemma workspace_relpath_resolve_path_witness :
  isabs (lit "/") = true
  /\ stays_below (lit "charts/../dist//x.tgz") = true
  /\ workspace_relpath (lit "/") (lit "/github/workspace")
       (resolve_path (lit "/github/workspace") (lit "charts/../dist//x.tgz"))
     = lit "dist/x.tgz".
Proof.
  split; [reflexivity|]. split; [reflexivity|].
  exact (proj1 (@workspace_relpath_resolve_path (lit "/")
                  (lit "/github/workspace") (lit "charts/../dist//x.tgz")
                  eq_refl eq_refl)).
Defined.

(** A path that leaves the workspace and comes back resolves inside it,
    and is reported by where it ends, not by how it was written. *)
Example workspace_relpath_reentering_path :
  stays_below (lit "../ws/a") = false
  /\ resolve_path (lit "/ws") (lit "../ws/a") = lit "/ws/a"
  /\ workspace_relpath (lit "/") (lit "/ws")
       (resolve_path (lit "/ws") (lit "../ws/a")) = lit "a"
  /\ normpath (lit "../ws/a") = lit "../ws/a".
Proof. repeat split; reflexivity. Qed.

(* ------------------------------------------------------------------ *)
(** ** The file system *)

Lemma key_eqb_eq (a b : fskey) : key_eqb a b = true <-> a = b.
Proof.
  revert b. induction a as [|x a IH]; intros [|y b]; simpl; split;
    try congruence; try reflexivity.
  - intros H. apply andb_prop in H as [Hx Hab].
    apply str_eqb_eq in Hx. apply IH in Hab. congruence.
  - intros H. injection H as -> ->.
    rewrite str_eqb_refl. simpl. now apply IH.
Qed.

Lemma key_eqb_refl (a : fskey) : key_eqb a a = true.
Proof. now apply key_eqb_eq. Qed.

Lemma key_eqb_neq (a b : fskey) : key_eqb a b = false <-> a <> b.
Proof.
  split.
  - intros H E. apply key_eqb_eq in E. congruence.
  - intros H. destruct (key_eqb a b) eqn:E; [|reflexivity].
    apply key_eqb_eq in E. contradiction.
Qed.

Lemma fs_set_same (k : fskey) (n : node) (fs : filesystem) :
  fs_set k n fs k = Some n.
Proof. unfold fs_set. now rewrite key_eqb_refl. Qed.

Lemma fs_set_other (k k' : fskey) (n : node) (fs : filesystem) :
  k' <> k -> fs_set k n fs k' = fs k'.
Proof.
  intros H. unfold fs_set. apply key_eqb_neq in H. now rewrite H.
Qed.

Lemma is_dir_fs_set_dir (k k' : fskey) (fs : filesystem) :
  is_dir fs k' = true -> is_dir (fs_set k Dir fs) k' = true.
Proof.
  unfold is_dir, fs_lookup. destruct k' as [|c k']; [reflexivity|].
  unfold fs_set. now destruct (key_eqb (c :: k') k).
Qed.

(** What [makedirs] can do to an entry: nothing, or make a directory
    where nothing was. *)
Lemma makedirs_from_entries (todo done : fskey) (fs fs' : filesystem) :
  makedirs_from fs done todo = Ok fs' ->
  forall k, fs' k = fs k \/ (fs k = None /\ fs' k = Some Dir).
Proof.
  revert done fs. induction todo as [|c todo IH]; intros done fs H k;
    simpl in H.
  - injection H as ->. now left.
  - destruct (fs (done ++ [c])) as [[data|]|] eqn:E; [discriminate | |].
    + now apply (IH _ _ H).
    + destruct (IH _ _ H k) as [Hk | [Hk1 Hk2]].
      * unfold fs_set in Hk.
        destruct (key_eqb k (done ++ [c])) eqn:Ek; [|now left].
        apply key_eqb_eq in Ek. subst k. right. now split.
      * right. split; [|assumption]. unfold fs_set in Hk1.
        destruct (key_eqb k (done ++ [c])); [discriminate | assumption].
Qed.

Lemma makedirs_from_keeps (todo done : fskey) (fs fs' : filesystem) :
  makedirs_from fs done todo = Ok fs' ->
  forall k, fs k <> None -> fs' k = fs k.
Proof.
  intros H k Hk. destruct (makedirs_from_entries _ _ _ H k) as [E|[E _]];
    [assumption | contradiction].
Qed.

(** After [makedirs] every directory on the way is there. *)
Lemma makedirs_from_made (todo done : fskey) (fs fs' : filesystem) :
  makedirs_from fs done todo = Ok fs' ->
  forall n, 1 <= n <= length todo ->
            fs' (done ++ firstn n todo) = Some Dir.
Proof.
  revert done fs. induction todo as [|c todo IH]; intros done fs H n Hn;
    simpl in *; [lia|].
  destruct n as [|n]; [lia|]. simpl.
  assert (forall fs1, fs1 (done ++ [c]) = Some Dir ->
            makedirs_from fs1 (done ++ [c]) todo = Ok fs' ->
            fs' (done ++ c :: firstn n todo) = Some Dir) as Hstep.
  { intros fs1 Hd Hm. destruct n as [|n].
    - simpl. rewrite (makedirs_from_keeps _ _ _ Hm); [assumption|].
      congruence.
    - replace (done ++ c :: firstn (S n) todo)
        with ((done ++ [c]) ++ firstn (S n) todo)
        by now rewrite <- app_assoc.
      apply (IH _ _ Hm). simpl in Hn. lia. }
  destruct (fs (done ++ [c])) as [[data|]|] eqn:E; [discriminate | |].
  - now apply (Hstep fs).
  - apply (Hstep (fs_set (done ++ [c]) Dir fs)); [apply fs_set_same|].
    assumption.
Qed.

(** [makedirs] fails on a file in the way only. *)
Lemma makedirs_from_succeeds (todo done : fskey) (fs : filesystem) :
  (forall n data, fs (done ++ firstn n todo) <> Some (File data)) ->
  exists fs', makedirs_from fs done todo = Ok fs'.
Proof.
  revert done fs. induction todo as [|c todo IH]; intros done fs H; simpl.
  - now eexists.
  - assert (forall fs1,
              (forall k, fs1 k = fs k \/ fs1 k = Some Dir) ->
              exists fs', makedirs_from fs1 (done ++ [c]) todo = Ok fs')
      as Hstep.
    { intros fs1 Hfs1. apply IH. intros n data Hf.
      rewrite <- app_assoc in Hf. simpl in Hf.
      destruct (Hfs1 (done ++ c :: firstn n todo)) as [E|E];
        [|congruence].
      rewrite E in Hf. now apply (H (S n) data). }
    destruct (fs (done ++ [c])) as [[data|]|] eqn:E.
    + exfalso. now apply (H 1 data).
    + apply Hstep. now left.
    + apply Hstep. intros k. unfold fs_set.
      destruct (key_eqb k (done ++ [c])); [now right | now left].
Qed.

Lemma makedirs_from_is_dir (todo : fskey) (fs fs' : filesystem) :
  makedirs_from fs [] todo = Ok fs' -> is_dir fs' todo = true.
Proof.
  intros H. unfold is_dir, fs_lookup. destruct todo as [|c todo];
    [reflexivity|].
  pose proof (makedirs_from_made _ _ _ H (n := length (c :: todo))) as Hm.
  rewrite firstn_all in Hm. simpl app in Hm. rewrite Hm; [reflexivity|].
  simpl. lia.
Qed.

Lemma is_dir_of_entry (fs : filesystem) (k : fskey) :
  fs k = Some Dir -> is_dir fs k = true.
Proof.
  intros H. unfold is_dir, fs_lookup. destruct k; [reflexivity|].
  now rewrite H.
Qed.

Lemma makedirs_from_prefix_dirs (todo : fskey) (fs fs' : filesystem) :
  makedirs_from fs [] todo = Ok fs' ->
  forall n, is_dir fs' (firstn n todo) = true.
Proof.
  intros H n.
  destruct (Nat.le_gt_cases n (length todo)) as [Hle|Hgt].
  - destruct n as [|n]; [reflexivity|]. apply is_dir_of_entry.
    apply (@makedirs_from_made todo [] fs fs' H (S n)). lia.
  - rewrite firstn_all2 by lia. eapply makedirs_from_is_dir. eassumption.
Qed.

Lemma makedirs_from_keeps_dirs (todo done : fskey) (fs fs' : filesystem) :
  makedirs_from fs done todo = Ok fs' ->
  forall k, is_dir fs k = true -> is_dir fs' k = true.
Proof.
  intros H k. unfold is_dir, fs_lookup. destruct k as [|c k]; [auto|].
  destruct (fs (c :: k)) as [[data|]|] eqn:E; try discriminate.
  intros _. rewrite (makedirs_from_keeps _ _ _ H); [now rewrite E|].
  congruence.
Qed.

(* ------------------------------------------------------------------ *)
(** ** The steps of the run *)

Section Steps.
Variable h : host.

Lemma sound_same_world (A : Type) (m : M A) :
  (forall w, snd (m w) = w) -> sound h m.
Proof.
  intros H w. rewrite H. split; [|auto].
  exists []. rewrite app_nil_r. split; [reflexivity | intros _ ? []].
Qed.

Lemma sound_ret (A : Type) (a : A) : sound h (ret a).
Proof. now apply sound_same_world. Qed.

Lemma sound_raise (A : Type) (msg : str) : sound h (@raise A msg).
Proof. now apply sound_same_world. Qed.

Lemma sound_lift (A : Type) (r : result A) : sound h (lift r).
Proof. now apply sound_same_world. Qed.

Lemma sound_bind (A B : Type) (m : M A) (k : A -> M B) :
  sound h m -> (forall a, sound h (k a)) -> sound h (bindM m k).
Proof.
  intros Hm Hk w. unfold bindM.
  destruct (Hm w) as [(T1 & HT1 & Hc1) Hd1].
  destruct (m w) as [[a|e] w1]; simpl in *.
  - destruct (Hk a w1) as [(T2 & HT2 & Hc2) Hd2]. split.
    + exists (T1 ++ T2). rewrite HT2, HT1, app_assoc. split; [reflexivity|].
      intros Hkeeps created Hin.
      apply in_app_or in Hin as [Hin|Hin]; auto.
    + auto.
  - split; [|assumption]. now exists T1.
Qed.

(** A step that logs events other than created directories and keeps
    the directories. *)
Lemma sound_logged (A : Type) (m : M A) :
  (forall w, exists T,
     w_trace (snd (m w)) = w_trace w ++ T
     /\ forall created, ~ In (EvMkdtemp created) T) ->
  (keeps_directories h ->
   forall w k, is_dir (w_fs w) k = true ->
               is_dir (w_fs (snd (m w))) k = true) ->
  sound h m.
Proof.
  intros HT Hd w. split; [|intros Hkeeps; now apply Hd].
  destruct (HT w) as (T & E & Hno). exists T. split; [assumption|].
  intros _ created Hin. now apply Hno in Hin.
Qed.

Lemma sound_isfile (path : str) : sound h (isfile h path).
Proof. now apply sound_same_world. Qed.

Lemma sound_read_file (path : str) : sound h (read_file h path).
Proof.
  apply sound_same_world. intros w. unfold read_file.
  now destruct (fs_lookup (w_fs w) (locate h path)) as [[?|]|].
Qed.

Lemma sound_makedirs (path : str) : sound h (makedirs h path).
Proof.
  apply sound_logged.
  - intros w. exists [EvMakedirs path]. unfold makedirs. simpl. split.
    + now destruct (makedirs_from (w_fs w) [] (locate h path)).
    + intros created [Hin|[]]. discriminate.
  - intros _ w k Hk. unfold makedirs. simpl.
    destruct (makedirs_from (w_fs w) [] (locate h path)) eqn:E; simpl;
      [|assumption].
    now apply (makedirs_from_keeps_dirs _ _ _ E).
Qed.

Lemma is_dir_fs_set_file (k k' : fskey) (data : str) (fs : filesystem) :
  is_dir fs k = false -> is_dir fs k' = true ->
  is_dir (fs_set k (File data) fs) k' = true.
Proof.
  intros Hk Hk'. unfold is_dir, fs_lookup in *.
  destruct k' as [|c k']; [reflexivity|]. unfold fs_set.
  destruct (key_eqb (c :: k') k) eqn:E; [|assumption].
  apply key_eqb_eq in E. subst k. congruence.
Qed.

Lemma sound_write_file (path data : str) : sound h (write_file h path data).
Proof.
  apply sound_logged.
  - intros w. exists [EvOpenWrite path]. unfold write_file. split.
    + destruct (negb (is_dir (w_fs w) (removelast (locate h path))));
        [reflexivity|].
      now destruct (fs_lookup (w_fs w) (locate h path)) as [[?|]|].
    + intros created [Hin|[]]. discriminate.
  - intros _ w k Hk. unfold write_file.
    destruct (negb (is_dir (w_fs w) (removelast (locate h path))));
      [assumption|].
    destruct (fs_lookup (w_fs w) (locate h path)) as [[?|]|] eqn:E; simpl;
      try assumption;
      apply is_dir_fs_set_file; try assumption;
      unfold is_dir; now rewrite E.
Qed.

Lemma sound_append_file (path data : str) :
  sound h (append_file h path data).
Proof.
  apply sound_logged.
  - intros w. exists [EvOpenWrite path]. unfold append_file. split.
    + destruct (negb (is_dir (w_fs w) (removelast (locate h path))));
        [reflexivity|].
      now destruct (fs_lookup (w_fs w) (locate h path)) as [[?|]|].
    + intros created [Hin|[]]. discriminate.
  - intros _ w k Hk. unfold append_file.
    destruct (negb (is_dir (w_fs w) (removelast (locate h path))));
      [assumption|].
    destruct (fs_lookup (w_fs w) (locate h path)) as [[?|]|] eqn:E; simpl;
      try assumption;
      apply is_dir_fs_set_file; try assumption;
      unfold is_dir; now rewrite E.
Qed.

Lemma sound_mkdtemp (prefix dir : str) : sound h (mkdtemp h prefix dir).
Proof.
  intros w. unfold mkdtemp.
  set (file := path_join dir
                 (prefix ++ candidate_name (mkdtemp_draw h (w_fs w)))).
  destruct (negb (is_dir (w_fs w) (removelast (locate h file)))).
  { simpl. split; [|auto]. exists []. rewrite app_nil_r.
    split; [reflexivity | intros _ ? []]. }
  destruct (fs_lookup (w_fs w) (locate h file)) eqn:E.
  { simpl. split; [|auto]. exists []. rewrite app_nil_r.
    split; [reflexivity | intros _ ? []]. }
  simpl. split.
  - exists [EvMkdtemp file]. split; [reflexivity|].
    intros _ created [Hin|[]]. injection Hin as <-.
    unfold is_dir, fs_lookup. destruct (locate h file); [reflexivity|].
    now rewrite fs_set_same.
  - intros _ k Hk. now apply is_dir_fs_set_dir.
Qed.

Lemma is_dir_graft (s d k : fskey) (fs : filesystem) :
  is_dir fs k = true -> is_dir (graft s d fs) k = true.
Proof.
  unfold is_dir, fs_lookup, graft. destruct k as [|c k]; [reflexivity|].
  now destruct (fs (c :: k)) as [[?|]|].
Qed.

Lemma sound_copytree (src dst : str) : sound h (copytree h src dst).
Proof.
  apply sound_logged.
  - intros w. exists [EvCopytree src dst]. unfold copytree. split.
    + destruct (negb (is_dir (w_fs w) (locate h src))); [reflexivity|].
      destruct (fs_lookup (w_fs w) (locate h dst)); [reflexivity|].
      destruct (makedirs_from (w_fs w) [] (locate h dst)); [|reflexivity].
      now destruct (under (locate h src) (locate h dst)).
    + intros created [Hin|[]]. discriminate.
  - intros _ w k Hk. unfold copytree.
    destruct (negb (is_dir (w_fs w) (locate h src))); [assumption|].
    destruct (fs_lookup (w_fs w) (locate h dst)); [assumption|].
    destruct (makedirs_from (w_fs w) [] (locate h dst)) eqn:E;
      [|assumption].
    pose proof (makedirs_from_keeps_dirs _ _ _ E k Hk) as Hk1.
    destruct (under (locate h src) (locate h dst)); simpl; [assumption|].
    now apply is_dir_fs_set_dir, is_dir_graft.
Qed.

Lemma sound_run (cmd : list str) : sound h (run h cmd).
Proof.
  apply sound_logged.
  - intros w. exists [EvRun cmd]. unfold run. simpl.
    destruct (subprocess_run h cmd (w_fs w)) as [res fs']. split;
      [reflexivity|].
    intros created [Hin|[]]. discriminate.
  - intros Hkeeps w k Hk. unfold run. simpl.
    pose proof (proj1 Hkeeps cmd (w_fs w) k Hk) as Hd.
    now destruct (subprocess_run h cmd (w_fs w)) as [res fs'].
Qed.

Lemma sound_install_helm (helm_version : str) :
  sound h (install_helm h helm_version).
Proof.
  unfold install_helm. apply sound_bind; [apply sound_lift|]. intros tag.
  apply sound_bind; [apply sound_lift|]. intros arch.
  apply sound_logged.
  - intros w. exists [EvInstall tag]. simpl.
    destruct (fetch_and_install h tag arch (w_fs w)) as [r fs']. split;
      [reflexivity|].
    intros created [Hin|[]]. discriminate.
  - intros Hkeeps w k Hk. simpl.
    pose proof (proj2 Hkeeps tag arch (w_fs w) k Hk) as Hd.
    now destruct (fetch_and_install h tag arch (w_fs w)) as [r fs'].
Qed.

Lemma sound_load_yaml_file (path : str) : sound h (load_yaml_file h path).
Proof.
  unfold load_yaml_file.
  apply sound_bind; [apply sound_read_file|]. intros txt.
  apply sound_bind; [apply sound_lift|]. intros data. apply sound_ret.
Qed.

Lemma sound_write_output (env : environ) (name val : str) :
  sound h (write_output h env name val).
Proof.
  assert (forall line, sound h (fun w => (Ok tt, print line w))) as Hprint.
  { intros line. apply sound_logged.
    - intros w. exists []. simpl. rewrite app_nil_r.
      split; [reflexivity | intros ? []].
    - intros _ w k Hk. exact Hk. }
  unfold write_output. destruct (env (lit "GITHUB_OUTPUT")) as [[|c p]|].
  - apply Hprint.
  - apply sound_append_file.
  - apply Hprint.
Qed.

Variable env : environ.

Lemma sound_merge_values_files (chart_path : str) (values_files : list str)
    (merged_values : value) :
  sound h (merge_values_files h chart_path values_files merged_values).
Proof.
  revert merged_values.
  induction values_files as [|rel rest IH]; intros merged_values; simpl.
  - apply sound_ret.
  - apply sound_bind; [apply sound_isfile|]. intros found.
    destruct (negb found); [apply sound_raise|].
    apply sound_bind; [apply sound_load_yaml_file|]. intros doc. apply IH.
Qed.

Lemma sound_copy_chart (workspace chart_path : str) (merged_values : value) :
  sound h (copy_chart h workspace chart_path merged_values).
Proof.
  unfold copy_chart.
  apply sound_bind; [apply sound_mkdtemp|]. intros tmp_root.
  apply sound_bind; [apply sound_copytree|]. intros _.
  apply sound_bind; [apply sound_write_file|]. intros _. apply sound_ret.
Qed.

Lemma sound_chart_for_packaging (cfg : config) :
  sound h (chart_for_packaging h cfg).
Proof.
  unfold chart_for_packaging.
  destruct (is_nil (parse_values_files (values_files_raw cfg)));
    [apply sound_ret|].
  apply sound_bind; [apply sound_merge_values_files|]. intros merged.
  apply sound_bind; [apply sound_copy_chart|]. intros dirs. apply sound_ret.
Qed.

Lemma sound_update_dependencies (cfg : config) (chart : str) :
  sound h (update_dependencies h cfg chart).
Proof.
  unfold update_dependencies.
  destruct (dependency_update cfg); [|apply sound_ret].
  apply sound_bind; [apply sound_run|]. intros dep.
  destruct (negb (fst dep =? 0)%Z); [apply sound_raise | apply sound_ret].
Qed.

Lemma sound_package_and_report (cfg : config) (chart : str) :
  sound h (package_and_report h env cfg chart).
Proof.
  unfold package_and_report.
  apply sound_bind; [apply sound_lift|]. intros cmd.
  apply sound_bind; [apply sound_run|]. intros res.
  destruct (negb (fst res =? 0)%Z); [apply sound_raise|].
  apply sound_bind; [now apply sound_same_world|]. intros package_path.
  apply sound_write_output.
Qed.

Lemma sound_package (cfg : config) : sound h (package h env cfg).
Proof.
  unfold package.
  apply sound_bind; [apply sound_install_helm|]. intros _.
  apply sound_bind; [apply sound_chart_for_packaging|]. intros chart.
  apply sound_bind; [apply sound_update_dependencies|]. intros _.
  apply sound_package_and_report.
Qed.

Lemma sound_prepare : sound h (prepare h env).
Proof.
  unfold prepare.
  repeat (apply sound_bind; [apply sound_lift|]; intros ?).
  destruct (negb (validate_version h _)); [apply sound_raise|].
  apply sound_bind; [apply sound_isfile|]. intros found.
  destruct (negb found); [apply sound_raise|].
  apply sound_bind; [apply sound_makedirs|]. intros _. apply sound_ret.
Qed.

Lemma main_world (w : world) :
  w_fs (snd (main h env w))
  = w_fs (snd (bindM (prepare h env) (package h env) w))
  /\ w_trace (snd (main h env w))
     = w_trace (snd (bindM (prepare h env) (package h env) w)).
Proof.
  unfold main.
  now destruct (bindM (prepare h env) (package h env) w) as [[?|?] w'].
Qed.

End Steps.

(* ------------------------------------------------------------------ *)
(** ** The destination directory *)

Lemma bindM_lift (A B : Type) (r : result A) (k : A -> M B) (w : world) :
  bindM (lift r) k w
  = match r with
    | Ok a => k a w
    | Err e => (Err e, w)
    end.
Proof. now destruct r. Qed.

Lemma bindM_isfile (h : host) (B : Type) (path : str) (k : bool -> M B)
    (w : world) :
  bindM (isfile h path) k w = k (is_file (w_fs w) (locate h path)) w.
Proof. reflexivity. Qed.

Lemma makedirs_result (h : host) (path : str) (w : world) :
  w_trace (snd (makedirs h path w)) = w_trace w ++ [EvMakedirs path]
  /\ (forall k, w_fs w k <> None ->
                w_fs (snd (makedirs h path w)) k = w_fs w k)
  /\ (fst (makedirs h path w) = Ok tt ->
      forall n, is_dir (w_fs (snd (makedirs h path w)))
                  (firstn n (locate h path)) = true)
  /\ ((forall n data,
         w_fs w (firstn n (locate h path)) <> Some (File data)) ->
      fst (makedirs h path w) = Ok tt).
Proof.
  unfold makedirs. simpl.
  destruct (makedirs_from (w_fs w) [] (locate h path)) as [fs'|e] eqn:E;
    simpl.
  - split; [reflexivity|]. split; [now apply (makedirs_from_keeps _ _ _ E)|].
    split; [|reflexivity]. intros _ n.
    eapply makedirs_from_prefix_dirs. eassumption.
  - split; [reflexivity|]. split; [reflexivity|]. split; [discriminate|].
    intros Hfree.
    destruct (@makedirs_from_succeeds (locate h path) [] (w_fs w) Hfree)
      as (fs' & Hfs'). congruence.
Qed.

Lemma makedirs_from_fails (todo done : fskey) (fs : filesystem) (e : str) :
  makedirs_from fs done todo = Err e ->
  exists n data, fs (done ++ firstn n todo) = Some (File data).
Proof.
  revert done fs. induction todo as [|c todo IH]; intros done fs H;
    simpl in H; [discriminate|].
  destruct (fs (done ++ [c])) as [[data|]|] eqn:E.
  - exists 1, data. exact E.
  - destruct (IH _ _ H) as (n & data & Hn). exists (S n), data.
    rewrite <- app_assoc in Hn. exact Hn.
  - destruct (IH _ _ H) as (n & data & Hn). exists (S n), data.
    rewrite <- app_assoc in Hn. simpl in Hn. simpl.
    unfold fs_set in Hn.
    destruct (key_eqb (done ++ c :: firstn n todo) (done ++ [c]));
      [discriminate | exact Hn].
Qed.

Lemma makedirs_fails (h : host) (path : str) (w : world) (e : str) :
  fst (makedirs h path w) = Err e ->
  exists n data, w_fs w (firstn n (locate h path)) = Some (File data).
Proof.
  unfold makedirs. simpl.
  destruct (makedirs_from (w_fs w) [] (locate h path)) as [fs'|e'] eqn:E;
    simpl; [discriminate|].
  intros _. exact (makedirs_from_fails _ _ _ E).
Qed.

Lemma get_input_default (env : environ) (name d : str) :
  get_input env name (Some d) false = Ok (input_or env name d).
Proof.
  unfold get_input, input_or.
  now destruct (env (input_key name)) as [[|c v]|].
Qed.

Lemma destination_of_input (env : environ) :
  destination_of env
  = resolve_path (workspace_of env) (input_or env (lit "destination") (lit ".")).
Proof. unfold destination_of. now rewrite get_input_default. Qed.

(** Past the inputs, [prepare] is two checks and [makedirs] of the
    resolved destination. *)
Lemma prepare_unfold (h : host) (env : environ)
    (chart_path_in helm_chart_version helm_chart_app_version : str)
    (Hchart : get_input env (lit "chart_path") None true = Ok chart_path_in)
    (Hversion :
       get_input env (lit "helm_chart_version") None true
       = Ok helm_chart_version)
    (Happ :
       get_input env (lit "helm_chart_app_version") None true
       = Ok helm_chart_app_version)
    (w : world) :
  prepare h env w
  = if negb (validate_version h helm_chart_version) then
      (Err (lit "Invalid helm chart version (SemVer required): "
            ++ helm_chart_version), w)
    else if negb (is_file (w_fs w)
                    (locate h
                       (path_join
                          (resolve_path (workspace_of env) chart_path_in)
                          (lit "Chart.yaml"))))
    then
      (Err (lit "`Chart.yaml` not found at: "
            ++ path_join (resolve_path (workspace_of env) chart_path_in)
                 (lit "Chart.yaml")), w)
    else
      match makedirs h (destination_of env) w with
      | (Ok _, w') =>
          (Ok (config_of env chart_path_in helm_chart_version
                 helm_chart_app_version), w')
      | (Err e, w') => (Err e, w')
      end.
Proof.
  rewrite destination_of_input. unfold prepare, config_of.
  rewrite destination_of_input. fold (workspace_of env).
  rewrite bindM_lift, Hchart.
  rewrite bindM_lift, get_input_default.
  rewrite bindM_lift, get_input_default.
  rewrite bindM_lift, get_input_default.
  rewrite bindM_lift, get_input_default.
  rewrite bindM_lift, Hversion.
  rewrite bindM_lift, Happ.
  rewrite bindM_lift, get_input_default.
  destruct (negb (validate_version h helm_chart_version)); [reflexivity|].
  rewrite bindM_isfile.
  destruct (negb (is_file (w_fs w) _)); [reflexivity|].
  unfold bindM, ret.
  now destruct (makedirs h _ w) as [[[]|e] w'].
Qed.

Section Destination.
Variable h : host.
Variable env : environ.

(** [prepare] stops before it touches anything, or ends with
    [makedirs] of the resolved destination. *)
Lemma prepare_shape (w : world) :
  (snd (prepare h env w) = w /\ exists e, fst (prepare h env w) = Err e)
  \/ (snd (prepare h env w) = snd (makedirs h (destination_of env) w)
      /\ match fst (prepare h env w) with
         | Ok cfg =>
             destination cfg = destination_of env
             /\ workspace cfg = workspace_of env
             /\ fst (makedirs h (destination_of env) w) = Ok tt
         | Err e => fst (makedirs h (destination_of env) w) = Err e
         end).
Proof.
  unfold prepare, destination_of, workspace_of.
  rewrite bindM_lift.
  destruct (get_input env (lit "chart_path") None true) as [chart_in|e];
    [|left; split; [reflexivity | now exists e]].
  rewrite bindM_lift.
  destruct (get_input env (lit "destination") (Some (lit ".")) false)
    as [dest_in|e]; [|left; split; [reflexivity | now exists e]].
  rewrite bindM_lift.
  destruct (get_input env (lit "helm_version") (Some (lit "v3.14.4")) false)
    as [ver|e]; [|left; split; [reflexivity | now exists e]].
  rewrite bindM_lift.
  destruct (get_input env (lit "dependency_update") (Some (lit "false"))
              false)
    as [dep|e]; [|left; split; [reflexivity | now exists e]].
  rewrite bindM_lift.
  destruct (get_input env (lit "package_args") (Some []) false)
    as [args|e]; [|left; split; [reflexivity | now exists e]].
  rewrite bindM_lift.
  destruct (get_input env (lit "helm_chart_version") None true)
    as [cv|e]; [|left; split; [reflexivity | now exists e]].
  rewrite bindM_lift.
  destruct (get_input env (lit "helm_chart_app_version") None true)
    as [av|e]; [|left; split; [reflexivity | now exists e]].
  rewrite bindM_lift.
  destruct (get_input env (lit "values_files") (Some []) false)
    as [vf|e]; [|left; split; [reflexivity | now exists e]].
  destruct (negb (validate_version h cv));
    [left; split; [reflexivity | now eexists]|].
  rewrite bindM_isfile.
  destruct (negb (is_file (w_fs w) _));
    [left; split; [reflexivity | now eexists]|].
  right. unfold bindM, ret.
  destruct (makedirs h _ w) as [[[]|e] w1]; simpl; auto.
Qed.

(** C10: a destination that does not exist is made, not refused, and it
    is made before the tool is touched.  In every run each event comes
    after the call of [makedirs] on the resolved destination, the
    installation of the tool and every command among them.  A run whose
    inputs pass the checks (the three required inputs are there, the
    chart version parses, [Chart.yaml] is a file) makes that call, as the
    one effect of [prepare] and the first of the run, and it changes
    nothing that exists.  When no file lies on the way to the
    destination, whether the destination and its parents exist or not,
    [prepare] succeeds; after a success the destination and every
    directory above it is a directory; and [prepare] fails past the
    checks only when a file lies on the way. *)
Theorem destination_made_before_tool (w : world) :
  (exists T,
     w_trace (snd (main h env w)) = w_trace w ++ T
     /\ (T = [] \/ exists T', T = EvMakedirs (destination_of env) :: T')
     /\ forall before e after,
          T = before ++ e :: after -> tool_event e = true ->
          exists between,
            before = EvMakedirs (destination_of env) :: between)
  /\ forall chart_path_in helm_chart_version helm_chart_app_version,
       get_input env (lit "chart_path") None true = Ok chart_path_in ->
       get_input env (lit "helm_chart_version") None true
       = Ok helm_chart_version ->
       get_input env (lit "helm_chart_app_version") None true
       = Ok helm_chart_app_version ->
       validate_version h helm_chart_version = true ->
       is_file (w_fs w)
         (locate h
            (path_join (resolve_path (workspace_of env) chart_path_in)
               (lit "Chart.yaml"))) = true ->
       w_trace (snd (prepare h env w))
       = w_trace w ++ [EvMakedirs (destination_of env)]
       /\ (exists T',
             w_trace (snd (main h env w))
             = w_trace w ++ EvMakedirs (destination_of env) :: T')
       /\ (forall k, w_fs w k <> None ->
                     w_fs (snd (prepare h env w)) k = w_fs w k)
       /\ ((forall n data,
              w_fs w (firstn n (locate h (destination_of env)))
              <> Some (File data)) ->
           fst (prepare h env w)
           = Ok (config_of env chart_path_in helm_chart_version
                   helm_chart_app_version))
       /\ (forall cfg,
             fst (prepare h env w) = Ok cfg ->
             destination cfg = destination_of env
             /\ is_dir (w_fs (snd (prepare h env w)))
                  (locate h (destination_of env)) = true
             /\ forall n,
                  is_dir (w_fs (snd (prepare h env w)))
                    (firstn n (locate h (destination_of env))) = true)
       /\ (forall e,
             fst (prepare h env w) = Err e ->
             exists n data,
               w_fs w (firstn n (locate h (destination_of env)))
               = Some (File data)).
Proof.
  destruct (makedirs_result h (destination_of env) w)
    as (Htrace & Hkeep & Hmade & Hfree).
  split.
  - assert (exists T,
              w_trace (snd (main h env w)) = w_trace w ++ T
              /\ (T = []
                  \/ exists T', T = EvMakedirs (destination_of env) :: T'))
      as (T & HT & Hshape).
    { destruct (main_world h env w) as [_ ->]. unfold bindM.
      destruct (prepare_shape w) as [[Hw (e & He)] | [Hw Hr]].
      - destruct (prepare h env w) as [r w1]. simpl in *. subst r w1.
        exists []. rewrite app_nil_r. split; [reflexivity | now left].
      - destruct (prepare h env w) as [[cfg|e] w1]; simpl in *; subst w1.
        + destruct (sound_package h env cfg
                      (snd (makedirs h (destination_of env) w)))
            as [(T & HT & _) _].
          exists (EvMakedirs (destination_of env) :: T).
          rewrite HT, Htrace, <- app_assoc. split; [reflexivity|].
          right. now exists T.
        + exists [EvMakedirs (destination_of env)].
          split; [exact Htrace|]. right. now exists []. }
    exists T. split; [exact HT|]. split; [exact Hshape|].
    intros before e after HTe Htool.
    destruct Hshape as [-> | (T' & ->)].
    + now destruct before.
    + destruct before as [|b before]; simpl in HTe.
      * injection HTe as <- _. discriminate.
      * injection HTe as <- _. now exists before.
  - intros cp cv av Hcp Hcv Hav Hvalid Hfile.
    pose proof (@prepare_unfold h env cp cv av Hcp Hcv Hav w) as Hprep.
    rewrite Hvalid, Hfile in Hprep. cbn [negb] in Hprep.
    pose proof (makedirs_fails h (destination_of env) w) as Hfails.
    assert (snd (prepare h env w) = snd (makedirs h (destination_of env) w))
      as Hsnd.
    { rewrite Hprep.
      now destruct (makedirs h (destination_of env) w) as [[u|e] w1]. }
    assert (fst (prepare h env w)
            = match fst (makedirs h (destination_of env) w) with
              | Ok _ => Ok (config_of env cp cv av)
              | Err e => Err e
              end) as Hfst.
    { rewrite Hprep.
      now destruct (makedirs h (destination_of env) w) as [[u|e] w1]. }
    split; [now rewrite Hsnd|]. split; [|split; [|split; [|split]]].
    + destruct (main_world h env w) as [_ ->]. unfold bindM.
      destruct (prepare h env w) as [[cfg|e] w1]; simpl in Hsnd; subst w1.
      * destruct (sound_package h env cfg
                    (snd (makedirs h (destination_of env) w)))
          as [(T & HT & _) _].
        exists T. simpl. now rewrite HT, Htrace, <- app_assoc.
      * exists []. exact Htrace.
    + intros k Hk. rewrite Hsnd. now apply Hkeep.
    + intros Hnofile. rewrite Hfst, (Hfree Hnofile). reflexivity.
    + intros cfg Hcfg. rewrite Hfst in Hcfg.
      destruct (fst (makedirs h (destination_of env) w)) as [[]|e] eqn:Hmk;
        [|discriminate].
      injection Hcfg as <-. rewrite Hsnd.
      split; [reflexivity|]. split; [|now apply Hmade].
      specialize (Hmade eq_refl (length (locate h (destination_of env)))).
      now rewrite firstn_all in Hmade.
    + intros e He. rewrite Hfst in He. apply (Hfails e).
      destruct (fst (makedirs h (destination_of env) w)) as [[]|e'];
        [discriminate He | injection He as ->; reflexivity].
Qed.

End Destination.

Lemma destination_made_before_tool_witness :
  is_dir nested_fs (ws_key ++ [lit "dist"]) = false
  /\ fst (prepare demo_host dist_env (start nested_fs))
     = Ok (config_of dist_env (lit "charts/my") (lit "1.2.3") (lit "4.5.6"))
  /\ is_dir (w_fs (snd (prepare demo_host dist_env (start nested_fs))))
       (ws_key ++ [lit "dist"]) = true
  /\ is_dir (w_fs (snd (prepare demo_host dist_env (start nested_fs))))
       (ws_key ++ [lit "dist"; lit "out"]) = true.
Proof.
  destruct (proj2 (destination_made_before_tool demo_host dist_env
                     (start nested_fs))
              (lit "charts/my") (lit "1.2.3") (lit "4.5.6")
              eq_refl eq_refl eq_refl eq_refl eq_refl)
    as (_ & _ & _ & Hok & Hdirs & _).
  assert (forall n data,
            w_fs (start nested_fs)
              (firstn n (locate demo_host (destination_of dist_env)))
            <> Some (File data)) as Hfree.
  { intros n data. destruct n as [|[|[|[|[|n]]]]]; vm_compute; discriminate. }
  split; [reflexivity|]. split; [exact (Hok Hfree)|].
  destruct (Hdirs _ (Hok Hfree)) as (_ & Hdir & Hall).
  split; [exact (Hall 3) | exact Hdir].
Defined.


(* ------------------------------------------------------------------ *)
(** ** Keys below a directory *)

Lemma strip_prefix_app (d rel : fskey) : strip_prefix d (d ++ rel) = Some rel.
Proof.
  induction d as [|x d IH]; simpl; [reflexivity|].
  now rewrite str_eqb_refl.
Qed.

Lemma strip_prefix_inv (d k rel : fskey) :
  strip_prefix d k = Some rel -> k = d ++ rel.
Proof.
  revert k. induction d as [|x d IH]; intros k H; simpl in *.
  - now injection H as ->.
  - destruct k as [|y k]; [discriminate|].
    destruct (str_eqb x y) eqn:E; [|discriminate].
    apply str_eqb_eq in E. subst y. now rewrite (IH _ H).
Qed.

Lemma under_iff (d k : fskey) : under d k = true <-> exists rel, k = d ++ rel.
Proof.
  unfold under. split.
  - destruct (strip_prefix d k) as [rel|] eqn:E; [|discriminate].
    intros _. exists rel. now apply strip_prefix_inv.
  - intros (rel & ->). now rewrite strip_prefix_app.
Qed.

Lemma under_app (d rel : fskey) : under d (d ++ rel) = true.
Proof. apply under_iff. now exists rel. Qed.

Lemma under_refl (d : fskey) : under d d = true.
Proof. apply under_iff. exists []. now rewrite app_nil_r. Qed.

Lemma under_trans (a b c : fskey) :
  under a b = true -> under b c = true -> under a c = true.
Proof.
  rewrite !under_iff. intros (r1 & ->) (r2 & ->).
  exists (r1 ++ r2). now rewrite app_assoc.
Qed.

(** Two directories above one key lie one above the other. *)
Lemma under_comparable (a b k : fskey) :
  under a k = true -> under b k = true ->
  under a b = true \/ under b a = true.
Proof.
  revert b k. induction a as [|x a IH]; intros b k Ha Hb.
  - left. reflexivity.
  - destruct b as [|y b]; [right; reflexivity|].
    destruct k as [|z k]; [discriminate|].
    unfold under in *. simpl in *.
    destruct (str_eqb x z) eqn:Exz; [|discriminate].
    destruct (str_eqb y z) eqn:Eyz; [|discriminate].
    apply str_eqb_eq in Exz, Eyz. subst y z. rewrite str_eqb_refl.
    now apply (IH b k).
Qed.

Lemma under_firstn (d k : fskey) :
  under d k = true -> firstn (length d) k = d /\ length d <= length k.
Proof.
  intros H. apply under_iff in H as (rel & ->). split.
  - rewrite firstn_app, Nat.sub_diag, firstn_all. simpl.
    now rewrite app_nil_r.
  - rewrite length_app. lia.
Qed.

(** Below a missing key of a well-formed file system nothing exists. *)
Lemma fs_wf_below_missing (fs : filesystem) (K k : fskey) :
  fs_wf fs -> fs_lookup fs K = None -> under K k = true -> fs k = None.
Proof.
  intros Hwf HK Hk. destruct (fs k) eqn:E; [|reflexivity]. exfalso.
  destruct (under_firstn _ _ Hk) as [Hfirst Hlen].
  destruct (Nat.eq_dec (length K) (length k)) as [Heq|Hne].
  - rewrite Heq, firstn_all in Hfirst. subst K.
    destruct k; [discriminate|]. simpl in HK. congruence.
  - assert (fs k <> None) as Hsome by congruence.
    pose proof (Hwf k Hsome (length K) ltac:(lia)) as Hd.
    rewrite Hfirst in Hd. unfold is_dir in Hd. now rewrite HK in Hd.
Qed.

Lemma app_eq_self (A : Type) (d rel : list A) : d ++ rel = d -> rel = [].
Proof.
  intros H. rewrite <- (app_nil_r d) in H at 2. now apply app_inv_head in H.
Qed.

Lemma fs_lookup_nonempty (fs : filesystem) (k : fskey) :
  k <> [] -> fs_lookup fs k = fs k.
Proof. now destruct k. Qed.

Lemma confined_refl (K : fskey) (fs : filesystem) : confined K fs fs.
Proof. now intros k _. Qed.

Lemma confined_trans (K : fskey) (fs1 fs2 fs3 : filesystem) :
  confined K fs1 fs2 -> confined K fs2 fs3 -> confined K fs1 fs3.
Proof. intros H12 H23 k Hk. now rewrite (H23 k Hk), (H12 k Hk). Qed.

Lemma confined_below (K d : fskey) (fs fs' : filesystem) :
  under K d = true -> confined d fs fs' -> confined K fs fs'.
Proof.
  intros HKd H k Hk. apply H.
  destruct (under d k) eqn:E; [|reflexivity].
  now rewrite (under_trans _ _ _ HKd E) in Hk.
Qed.

Lemma confined_fs_set (k : fskey) (n : node) (fs : filesystem) :
  confined k fs (fs_set k n fs).
Proof.
  intros k' Hk'. apply fs_set_other. intros ->.
  now rewrite under_refl in Hk'.
Qed.

Lemma confined_graft (s d : fskey) (fs : filesystem) :
  confined d fs (graft s d fs).
Proof.
  intros k Hk. unfold graft, under in *.
  destruct (fs k); [reflexivity|]. now destruct (strip_prefix d k).
Qed.

(** [makedirs] of a key whose parents are all there makes that key
    only. *)
Lemma makedirs_from_last_only (todo done : fskey) (fs fs' : filesystem) :
  makedirs_from fs done todo = Ok fs' ->
  (forall n, 1 <= n < length todo ->
             fs (done ++ firstn n todo) = Some Dir) ->
  forall k, k <> done ++ todo -> fs' k = fs k.
Proof.
  revert done fs. induction todo as [|c todo IH]; intros done fs H Hdirs k Hk;
    simpl in H.
  - now injection H as ->.
  - destruct todo as [|c' todo].
    + simpl in H.
      destruct (fs (done ++ [c])) as [[data|]|]; [discriminate | |];
        injection H as <-; [reflexivity|].
      now apply fs_set_other.
    + pose proof (Hdirs 1 ltac:(simpl; lia)) as H1. simpl in H1.
      rewrite H1 in H.
      apply (IH _ _ H).
      * intros n Hn. rewrite <- app_assoc. simpl app.
        apply (Hdirs (S n)). simpl in *. lia.
      * now rewrite <- app_assoc.
Qed.

(* ------------------------------------------------------------------ *)
(** ** Where the copy of the chart goes *)

Lemma name_alphabet_nosep (n : nat) :
  nth (n mod 37) name_alphabet "a"%char <> sep.
Proof.
  assert (n mod 37 < 37) as Hlt by (apply Nat.mod_upper_bound; lia).
  assert (Forall (fun c => c <> sep) name_alphabet) as Hall
    by (repeat constructor; discriminate).
  rewrite Forall_forall in Hall. apply Hall. apply nth_In. exact Hlt.
Qed.

Lemma candidate_name_nosep (draw : list nat) : nosep (candidate_name draw).
Proof.
  unfold nosep, candidate_name. intros Hin. apply in_map_iff in Hin
    as (n & Hn & _). now apply (name_alphabet_nosep n).
Qed.

Lemma temporary_name_ok (draw : list nat) :
  is_name (lit ".dist-temporary-" ++ candidate_name draw)
  /\ nosep (lit ".dist-temporary-" ++ candidate_name draw).
Proof.
  split.
  - repeat split; discriminate.
  - unfold nosep. intros Hin. apply in_app_or in Hin as [Hin|Hin].
    + simpl in Hin.
      repeat (destruct Hin as [Hin|Hin]; [discriminate|]). exact Hin.
    + now apply (candidate_name_nosep draw).
Qed.

Lemma nosep_relative (c : str) : nosep c -> isabs c = false.
Proof.
  intros H. destruct c as [|x c]; [reflexivity|].
  unfold isabs. cbn [startswith].
  destruct (Ascii.eqb sep x) eqn:E; [|reflexivity].
  apply Ascii.eqb_eq in E. subst x. exfalso. apply H. now left.
Qed.

Lemma basename_nosep (p : str) : nosep (basename p).
Proof.
  unfold basename. pose proof (split_sep_nosep p) as H.
  induction (split_sep p) as [|x l IH]; simpl.
  - intros [].
  - inversion H; subst. destruct l; [assumption | now apply IH].
Qed.

Section Locate.
Variable h : host.
Hypothesis Hcwd : isabs (cwd h) = true.

(** Where a path joined with one more component is found. *)
Lemma locate_path_join (p c : str) :
  nosep c -> locate h (path_join p c) = norm_step true (locate h p) c.
Proof.
  intros Hc. unfold locate.
  rewrite comps_abspath_join by (try assumption; now apply nosep_relative).
  now rewrite (split_sep_single Hc).
Qed.

Lemma locate_child (p c : str) :
  is_name c -> nosep c -> locate h (path_join p c) = locate h p ++ [c].
Proof.
  intros Hn Hc. rewrite (locate_path_join p Hc).
  now apply norm_step_name.
Qed.

End Locate.

Lemma mkdtemp_cases (h : host) (prefix dir : str) (w : world) :
  let file :=
    path_join dir (prefix ++ candidate_name (mkdtemp_draw h (w_fs w))) in
  (exists e, mkdtemp h prefix dir w = (Err e, w))
  \/ (is_dir (w_fs w) (removelast (locate h file)) = true
      /\ fs_lookup (w_fs w) (locate h file) = None
      /\ mkdtemp h prefix dir w
         = (Ok file,
            log (EvMkdtemp file)
              (with_fs (fs_set (locate h file) Dir (w_fs w)) w))).
Proof.
  cbv zeta. unfold mkdtemp.
  destruct (is_dir (w_fs w) (removelast (locate h _))) eqn:Ep; simpl;
    [|left; now eexists].
  destruct (fs_lookup (w_fs w) (locate h _)) eqn:Ek;
    [left; now eexists|].
  right. repeat split.
Qed.

Lemma copytree_cases (h : host) (src dst : str) (w : world) :
  (exists e w', copytree h src dst w = (Err e, w') /\ w_fs w' = w_fs w)
  \/ (exists fs1,
        fs_lookup (w_fs w) (locate h dst) = None
        /\ makedirs_from (w_fs w) [] (locate h dst) = Ok fs1
        /\ ((under (locate h src) (locate h dst) = true
             /\ exists e w',
                  copytree h src dst w = (Err e, w') /\ w_fs w' = fs1)
            \/ (under (locate h src) (locate h dst) = false
                /\ exists w',
                     copytree h src dst w = (Ok tt, w')
                     /\ w_fs w'
                        = fs_set (locate h dst) Dir
                            (graft (locate h src) (locate h dst) fs1)))).
Proof.
  unfold copytree.
  destruct (negb (is_dir (w_fs w) (locate h src)));
    [left; eexists; eexists; split; reflexivity|].
  destruct (fs_lookup (w_fs w) (locate h dst)) eqn:Ed;
    [left; eexists; eexists; split; reflexivity|].
  destruct (makedirs_from (w_fs w) [] (locate h dst)) as [fs1|e] eqn:Em;
    [|left; eexists; eexists; split; reflexivity].
  right. exists fs1. split; [reflexivity|]. split; [reflexivity|].
  destruct (under (locate h src) (locate h dst)).
  - left. split; [reflexivity|]. eexists; eexists; split; reflexivity.
  - right. split; [reflexivity|]. eexists; split; reflexivity.
Qed.

Lemma write_file_cases (h : host) (path data : str) (w : world) :
  (exists e w', write_file h path data w = (Err e, w') /\ w_fs w' = w_fs w)
  \/ (exists w',
        write_file h path data w = (Ok tt, w')
        /\ w_fs w' = fs_set (locate h path) (File data) (w_fs w)).
Proof.
  unfold write_file.
  destruct (negb (is_dir (w_fs w) (removelast (locate h path))));
    [left; eexists; eexists; split; reflexivity|].
  destruct (fs_lookup (w_fs w) (locate h path)) as [[d|]|];
    try (right; eexists; split; reflexivity).
  left; eexists; eexists; split; reflexivity.
Qed.

(** X25: the merge step away from the chart: when the chart directory exists
    and the workspace root is not inside it, the copy changes nothing that
    exists and nothing under the chart directory; when it succeeds the
    temporary directory is new, the copy lies in it, its values file is
    the dump of the merged document and every other entry of the copy is
    the entry of the chart. *)
Theorem copy_chart_leaves_chart_alone (h : host) (workspace chart_path : str)
    (merged_values : value) (w : world) :
  isabs (cwd h) = true ->
  fs_wf (w_fs w) ->
  is_dir (w_fs w) (locate h chart_path) = true ->
  under (locate h chart_path) (locate h workspace) = false ->
  (forall k, under (locate h chart_path) k = true ->
             w_fs (snd (copy_chart h workspace chart_path merged_values w)) k
             = w_fs w k)
  /\ (forall k, w_fs w k <> None ->
                w_fs (snd (copy_chart h workspace chart_path merged_values w))
                  k
                = w_fs w k)
  /\ match fst (copy_chart h workspace chart_path merged_values w) with
     | Ok (tmp_root, tmp_chart) =>
         w_fs w (locate h tmp_root) = None
         /\ under (locate h chart_path) (locate h tmp_root) = false
         /\ under (locate h tmp_root) (locate h tmp_chart) = true
         /\ w_fs (snd (copy_chart h workspace chart_path merged_values w))
              (locate h tmp_chart ++ [lit "values.yaml"])
            = Some (File (yaml_safe_dump h merged_values))
         /\ forall rel,
              rel <> [] -> rel <> [lit "values.yaml"] ->
              w_fs (snd (copy_chart h workspace chart_path merged_values w))
                (locate h tmp_chart ++ rel)
              = w_fs w (locate h chart_path ++ rel)
     | Err _ => True
     end.
Proof.
  intros Hcwd Hwf Hchart Hout.
  set (chart := locate h chart_path) in *.
  set (ws := locate h workspace) in *.
  remember (copy_chart h workspace chart_path merged_values w) as out
    eqn:Eout.
  unfold copy_chart in Eout.
  pose proof (mkdtemp_cases h (lit ".dist-temporary-") workspace w) as Hmk.
  cbv zeta in Hmk.
  destruct (temporary_name_ok (mkdtemp_draw h (w_fs w))) as [Hname Hnosep].
  set (name := lit ".dist-temporary-"
               ++ candidate_name (mkdtemp_draw h (w_fs w))) in *.
  assert (locate h (path_join workspace name) = ws ++ [name]) as HK
    by (now apply locate_child).
  rewrite HK in Hmk. rewrite removelast_last in Hmk.
  set (K := ws ++ [name]) in *.
  unfold bindM at 1 in Eout.
  destruct Hmk as [(e & Hmk) | (Hparent & Hfresh & Hmk)]; rewrite Hmk in Eout.
  { subst out. simpl. repeat split; auto. }
  set (file := path_join workspace name) in *.
  set (c := basename (normpath chart_path)) in *.
  set (tmp_chart := path_join file c) in *.
  set (fs0 := w_fs w) in *.
  set (fs1 := fs_set K Dir fs0) in *.
  set (w1 := log (EvMkdtemp file) (with_fs fs1 w)) in *.
  assert (K <> []) as HKne by (unfold K; now destruct ws).
  assert (fs0 K = None) as HKnone
    by (now rewrite <- (fs_lookup_nonempty fs0 HKne)).
  assert (forall k, under K k = true -> under chart k = false) as HX.
  { intros k Hk. destruct (under chart k) eqn:Hc; [|reflexivity]. exfalso.
    destruct (under_comparable _ _ _ Hc Hk) as [HcK | HKc].
    - apply under_iff in HcK as (rel & Hrel). unfold K in Hrel.
      destruct rel as [|r rel _] using rev_ind.
      + rewrite app_nil_r in Hrel. fold K in Hrel.
        rewrite <- Hrel in Hchart. unfold is_dir in Hchart.
        now rewrite Hfresh in Hchart.
      + rewrite app_assoc in Hrel. apply app_inj_tail in Hrel as [Hws _].
        assert (under chart ws = true) as Hcw
          by (apply under_iff; now exists rel).
        congruence.
    - pose proof (@fs_wf_below_missing fs0 K chart Hwf Hfresh HKc) as Hn.
      apply under_iff in HKc as (rel & Hrel).
      assert (chart <> []) as Hcne
        by (rewrite Hrel; unfold K; now destruct ws).
      unfold is_dir in Hchart.
      rewrite (fs_lookup_nonempty fs0 Hcne) in Hchart.
      fold fs0 in Hn. now rewrite Hn in Hchart. }
  assert (forall fs', confined K fs0 fs' ->
            (forall k, under chart k = true -> fs' k = fs0 k)
            /\ (forall k, fs0 k <> None -> fs' k = fs0 k)) as Hframe.
  { intros fs' Hconf. split; intros k Hk; apply Hconf.
    - destruct (under K k) eqn:E; [|reflexivity].
      now rewrite (HX k E) in Hk.
    - destruct (under K k) eqn:E; [|reflexivity].
      now rewrite (@fs_wf_below_missing fs0 K k Hwf Hfresh E) in Hk. }
  assert (confined K fs0 fs1) as Hc1 by apply confined_fs_set.
  assert (locate h tmp_chart = norm_step true K c) as Hd.
  { unfold tmp_chart. rewrite locate_path_join; try assumption.
    - now rewrite HK.
    - apply basename_nosep. }
  assert (fs_lookup fs1 (locate h tmp_chart) = None ->
          locate h tmp_chart = K ++ [c]) as Hdshape.
  { rewrite Hd. intros Hnone.
    destruct (norm_step_cases true K c) as [E | [(E & _) | E]];
      rewrite E in *; [exfalso | reflexivity | exfalso].
    - rewrite (fs_lookup_nonempty fs1 HKne) in Hnone.
      unfold fs1 in Hnone. now rewrite fs_set_same in Hnone.
    - unfold K in Hnone. rewrite removelast_last in Hnone.
      pose proof (@is_dir_fs_set_dir K ws fs0 Hparent) as Hws.
      unfold is_dir in Hws. fold fs1 in Hws. now rewrite Hnone in Hws. }
  assert (forall n, 1 <= n < length (K ++ [c]) ->
            fs1 ([] ++ firstn n (K ++ [c])) = Some Dir) as Hparents.
  { intros n Hn. rewrite length_app in Hn. simpl in Hn. simpl app.
    rewrite firstn_app.
    replace (n - length K) with 0 by lia. simpl. rewrite app_nil_r.
    destruct (Nat.eq_dec n (length K)) as [->|Hne].
    - rewrite firstn_all. apply fs_set_same.
    - unfold K in *. rewrite length_app in Hn, Hne. simpl in Hn, Hne.
      rewrite firstn_app.
      replace (n - length ws) with 0 by lia. simpl. rewrite app_nil_r.
      assert (firstn n ws <> []) as Hfne.
      { destruct ws; [simpl in *; lia|]. destruct n; [lia | discriminate]. }
      unfold fs1. rewrite fs_set_other.
      + rewrite <- (fs_lookup_nonempty fs0 Hfne).
        assert (is_dir fs0 (firstn n ws) = true) as Hdir.
        { destruct (Nat.eq_dec n (length ws)) as [->|Hlt].
          - now rewrite firstn_all.
          - apply Hwf; [|lia].
            assert (ws <> []) as Hwne
              by (destruct ws; [simpl in *; lia | discriminate]).
            unfold is_dir in Hparent.
            rewrite (fs_lookup_nonempty fs0 Hwne) in Hparent.
            destruct (fs0 ws); [discriminate | discriminate]. }
        unfold is_dir in Hdir.
        now destruct (fs_lookup fs0 (firstn n ws)) as [[?|]|].
      + intros Heq. apply (f_equal (@length str)) in Heq.
        rewrite length_firstn, length_app in Heq. simpl in Heq. lia. }
  unfold bindM at 1 in Eout.
  destruct (copytree_cases h chart_path tmp_chart w1)
    as [(e & w2 & Hcp & Hfs2)
       | (fs2 & Hdnone & Hmade & [(Hself & _) | (_ & w2 & Hcp & Hfs2)])].
  { rewrite Hcp in Eout. subst out. simpl. rewrite Hfs2.
    destruct (Hframe fs1 Hc1). repeat split; auto. }
  { fold chart in Hself. rewrite HX in Hself; [discriminate|].
    rewrite (Hdshape Hdnone). apply under_app. }
  simpl in Hdnone, Hmade. fold fs1 in Hdnone, Hmade.
  pose proof (Hdshape Hdnone) as HD. rewrite HD in *.
  set (d := K ++ [c]) in *.
  pose proof (@makedirs_from_last_only d [] fs1 fs2 Hmade Hparents) as Hm2.
  fold chart in Hfs2.
  set (fs3 := fs_set d Dir (graft chart d fs2)) in *.
  assert (under K d = true) as HKd by apply under_app.
  assert (confined K fs0 fs3) as Hc3.
  { apply (@confined_trans K fs0 fs1 fs3 Hc1).
    apply (@confined_trans K fs1 fs2 fs3).
    - intros k Hk. apply Hm2. intros ->. simpl in Hk. congruence.
    - apply (@confined_below K d fs2 fs3 HKd).
      apply (@confined_trans d fs2 (graft chart d fs2) fs3);
        [apply confined_graft | apply confined_fs_set]. }
  rewrite Hcp in Eout. unfold bindM at 1, dump_yaml_file in Eout.
  assert (locate h (path_join tmp_chart (lit "values.yaml"))
          = d ++ [lit "values.yaml"]) as Hv.
  { rewrite locate_child; try assumption.
    - now rewrite HD.
    - repeat split; discriminate.
    - intros Hin. simpl in Hin.
      repeat (destruct Hin as [Hin|Hin]; [discriminate|]). exact Hin. }
  destruct (write_file_cases h (path_join tmp_chart (lit "values.yaml"))
              (yaml_safe_dump h merged_values) w2)
    as [(e & w3 & Hwr & Hfs3) | (w3 & Hwr & Hfs3)];
    rewrite Hwr in Eout; subst out; simpl; rewrite Hfs3, Hfs2.
  { destruct (Hframe fs3 Hc3). repeat split; auto. }
  rewrite Hv. fold fs3.
  set (v := d ++ [lit "values.yaml"]) in *.
  assert (under K v = true) as HKv
    by (apply (under_trans _ _ _ HKd); apply under_app).
  assert (confined K fs0 (fs_set v (File (yaml_safe_dump h merged_values))
                            fs3)) as Hc4.
  { apply (@confined_trans K fs0 fs3 _ Hc3).
    apply (@confined_below K v _ _ HKv). apply confined_fs_set. }
  destruct (Hframe _ Hc4) as [Hf1 Hf2].
  split; [exact Hf1|]. split; [exact Hf2|].
  rewrite HK, HD. fold d. split; [exact HKnone|].
  split; [apply HX, under_refl|]. split; [exact HKd|].
  split; [apply fs_set_same|].
  intros rel Hrel1 Hrel2.
  assert (under K (d ++ rel) = true) as HKr
    by (apply (under_trans _ _ _ HKd); apply under_app).
  assert (under K (chart ++ rel) = false) as Hcr.
  { destruct (under K (chart ++ rel)) eqn:E; [|reflexivity].
    pose proof (HX _ E) as Hx. now rewrite under_app in Hx. }
  rewrite fs_set_other
    by (unfold v; intros Heq; apply app_inv_head in Heq; contradiction).
  unfold fs3. rewrite fs_set_other
    by (intros Heq; apply app_eq_self in Heq; contradiction).
  unfold graft. rewrite strip_prefix_app.
  assert (fs2 (d ++ rel) = None) as ->.
  { rewrite Hm2 by (intros Heq; apply app_eq_self in Heq; contradiction).
    unfold fs1. rewrite fs_set_other.
    - apply (@fs_wf_below_missing fs0 K (d ++ rel) Hwf Hfresh HKr).
    - intros Heq. unfold d in Heq. rewrite <- app_assoc in Heq.
      apply app_eq_self in Heq. discriminate. }
  rewrite Hm2 by (simpl; intros Heq; rewrite Heq, HKd in Hcr; discriminate).
  unfold fs1. apply fs_set_other.
  intros Heq. rewrite Heq, under_refl in Hcr. discriminate.
Qed.

(** X26: the merge step at a chart that holds the workspace root: the
    temporary directory [mkdtemp] makes is inside the chart directory. *)
Lemma temporary_directory_inside_chart (h : host) (workspace chart_path : str)
    (w w1 : world) (tmp_root : str) :
  isabs (cwd h) = true ->
  under (locate h chart_path) (locate h workspace) = true ->
  mkdtemp h (lit ".dist-temporary-") workspace w = (Ok tmp_root, w1) ->
  under (locate h chart_path) (locate h tmp_root) = true
  /\ fs_lookup (w_fs w) (locate h tmp_root) = None
  /\ is_dir (w_fs w1) (locate h tmp_root) = true.
Proof.
  intros Hcwd Hin Hmk.
  destruct (mkdtemp_cases h (lit ".dist-temporary-") workspace w)
    as [(e & He) | (_ & Hfresh & Hok)]; [congruence|].
  cbv zeta in Hok. rewrite Hok in Hmk. injection Hmk as <- <-.
  destruct (temporary_name_ok (mkdtemp_draw h (w_fs w))) as [Hname Hnosep].
  split; [|split].
  - rewrite locate_child by assumption.
    apply (under_trans _ _ _ Hin), under_app.
  - exact Hfresh.
  - simpl. apply is_dir_of_entry, fs_set_same.
Qed.

Lemma fs_of_list_wf (l : list (fskey * node)) :
  forallb (fun e =>
             forallb (fun n => is_dir (fs_of_list l) (firstn n (fst e)))
               (seq 0 (length (fst e)))) l = true ->
  fs_wf (fs_of_list l).
Proof.
  intros Hall k Hk n Hn. unfold fs_of_list in Hk.
  destruct (find (fun e => key_eqb k (fst e)) l) as [e|] eqn:E;
    [|congruence].
  apply find_some in E as [Hin Heq]. apply key_eqb_eq in Heq. subst k.
  rewrite forallb_forall in Hall. specialize (Hall e Hin).
  rewrite forallb_forall in Hall. apply Hall. apply in_seq.
  split; [lia | exact Hn].
Qed.

Lemma nested_fs_wf : fs_wf nested_fs.
Proof. apply fs_of_list_wf. vm_compute. reflexivity. Qed.

Lemma copy_chart_leaves_chart_alone_witness :
  let out :=
    copy_chart demo_host (lit "/github/workspace")
      (lit "/github/workspace/charts/my") test_expected (start nested_fs) in
  fst out = Ok (tmp_root_path, tmp_root_path ++ lit "/my")
  /\ forall k,
       under (ws_key ++ [lit "charts"; lit "my"]) k = true ->
       w_fs (snd out) k = nested_fs k.
Proof.
  cbv zeta. split; [vm_compute; reflexivity|].
  exact (proj1 (@copy_chart_leaves_chart_alone demo_host
                  (lit "/github/workspace")
                  (lit "/github/workspace/charts/my") test_expected
                  (start nested_fs) eq_refl nested_fs_wf eq_refl eq_refl)).
Defined.

(* ------------------------------------------------------------------ *)
(** ** The temporary workspace *)

Lemma keeps_directories_demo : keeps_directories demo_host.
Proof. split; intros; assumption. Qed.

Lemma temporaries_alive_start (h : host) (fs : filesystem) :
  temporaries_alive h (start fs).
Proof. intros created []. Qed.

(** C4 as the specification words it has the workspace removed on every
    exit.  It is still there after a run that succeeds and after a run
    that fails. *)
Lemma temporary_workspace_removed_refuted :
  (fst nested_run = 0%Z
   /\ In (EvMkdtemp tmp_root_path) (w_trace (snd nested_run))
   /\ is_dir nested_fs (ws_key ++ [tmp_name]) = false
   /\ is_dir (w_fs (snd nested_run)) (ws_key ++ [tmp_name]) = true)
  /\ (fst root_run = 1%Z
      /\ In (EvMkdtemp tmp_root_path) (w_trace (snd root_run))
      /\ is_dir root_fs (ws_key ++ [tmp_name]) = false
      /\ is_dir (w_fs (snd root_run)) (ws_key ++ [tmp_name]) = true).
Proof.
  split; (split; [vm_compute; reflexivity|]);
    (split; [vm_compute; tauto|]);
    split; vm_compute; reflexivity.
Qed.

(** C4: the run creates its temporary workspace with [mkdtemp] and has
    no step that removes it.  On a host whose tool removes no directory,
    every directory [mkdtemp] has created is still a directory when the
    run ends, whatever the exit status is. *)
Theorem temporary_workspace_is_kept (h : host) (env : environ) (w : world) :
  keeps_directories h ->
  temporaries_alive h w ->
  temporaries_alive h (snd (main h env w)).
Proof.
  intros Hkeeps Halive created.
  destruct (main_world h env w) as [-> ->].
  destruct (@sound_bind h _ _ (prepare h env) (package h env)
              (sound_prepare h env) (sound_package h env) w)
    as [(T & -> & Hnew) Hdirs].
  intros Hin. apply in_app_or in Hin as [Hin|Hin].
  - apply (Hdirs Hkeeps). now apply Halive.
  - now apply (Hnew Hkeeps).
Qed.

Lemma temporary_workspace_is_kept_witness :
  keeps_directories demo_host
  /\ temporaries_alive demo_host (start nested_fs)
  /\ In (EvMkdtemp tmp_root_path) (w_trace (snd nested_run))
  /\ is_dir (w_fs (snd nested_run)) (locate demo_host tmp_root_path) = true.
Proof.
  split; [exact keeps_directories_demo|].
  split; [exact (@temporaries_alive_start demo_host nested_fs)|].
  assert (In (EvMkdtemp tmp_root_path) (w_trace (snd nested_run))) as Hin
    by (vm_compute; tauto).
  split; [exact Hin|].
  exact (@temporary_workspace_is_kept demo_host nested_env (start nested_fs)
           keeps_directories_demo
           (@temporaries_alive_start demo_host nested_fs)
           tmp_root_path Hin).
Defined.

(* ------------------------------------------------------------------ *)
(** ** The copy of the chart *)

Example nested_run_trace :
  w_trace (snd nested_run)
  = [ EvMakedirs (lit "/github/workspace");
      EvInstall (lit "v3.14.4");
      EvMkdtemp tmp_root_path;
      EvCopytree (lit "/github/workspace/charts/my")
        (tmp_root_path ++ lit "/my");
      EvOpenWrite (tmp_root_path ++ lit "/my/values.yaml");
      EvRun [ lit "helm"; lit "package"; tmp_root_path ++ lit "/my";
              lit "--destination"; lit "/github/workspace";
              lit "--version"; lit "1.2.3";
              lit "--app-version"; lit "4.5.6" ] ].
Proof. vm_compute. reflexivity. Qed.

Example nested_run_copy :
  w_fs (snd nested_run) (ws_key ++ [tmp_name; lit "my"; lit "values.yaml"])
  = Some (File (lit "merged"))
  /\ w_fs (snd nested_run)
       (ws_key ++ [tmp_name; lit "my"; lit "templates"; lit "svc.yaml"])
     = Some (File (lit "kind: Service"))
  /\ w_fs (snd nested_run)
       (ws_key ++ [lit "charts"; lit "my"; lit "values.yaml"])
     = Some (File (lit "base"))
  /\ w_stdout (snd nested_run) = [lit "package_path=my-1.2.3.tgz"].
Proof. repeat split; vm_compute; reflexivity. Qed.

(** C2 at a chart that is the workspace itself ([chart_path] is [.]):
    the temporary directory is made inside the chart directory, the copy
    of the chart goes into the chart's own tree and fails there, no
    command is run, and the run ends with status 1 and the new
    directories left in the chart directory. *)
Theorem chart_at_workspace_root_is_written :
  fst root_run = 1%Z
  /\ w_trace (snd root_run)
     = [ EvMakedirs (lit "/github/workspace");
         EvInstall (lit "v3.14.4");
         EvMkdtemp tmp_root_path;
         EvCopytree (lit "/github/workspace")
           (tmp_root_path ++ lit "/workspace") ]
  /\ locate demo_host (lit "/github/workspace") = ws_key
  /\ under ws_key (locate demo_host tmp_root_path) = true
  /\ under ws_key (locate demo_host (tmp_root_path ++ lit "/workspace"))
     = true
  /\ root_fs (ws_key ++ [tmp_name]) = None
  /\ w_fs (snd root_run) (ws_key ++ [tmp_name]) = Some Dir
  /\ w_fs (snd root_run) (ws_key ++ [tmp_name; lit "workspace"]) = Some Dir
  /\ existsb tool_event (skipn 2 (w_trace (snd root_run))) = false.
Proof. repeat split; vm_compute; reflexivity. Qed.

(* ================================================================== *)
(** * Further properties *)

Unset Implicit Arguments.

(* ------------------------------------------------------------------ *)
(** ** The deep merge keeps documents well formed *)

Lemma str_nodup_app (l1 l2 : list str) :
  str_nodup l1 = true -> str_nodup l2 = true ->
  (forall k, str_in k l1 = true -> str_in k l2 = false) ->
  str_nodup (l1 ++ l2) = true.
Proof.
  induction l1 as [|x l1 IH]; intros H1 H2 Hdis; simpl; [assumption|].
  simpl in H1. apply andb_prop in H1 as [Hx H1].
  apply negb_true_iff in Hx. rewrite str_in_app, Hx.
  rewrite (Hdis x) by (simpl; now rewrite str_eqb_refl). simpl.
  apply IH; try assumption.
  intros k Hk. apply Hdis. simpl. rewrite Hk. apply orb_true_r.
Qed.

Lemma str_nodup_filter (f : str -> bool) (l : list str) :
  str_nodup l = true -> str_nodup (filter f l) = true.
Proof.
  induction l as [|x l IH]; intros H; simpl; [reflexivity|].
  simpl in H. apply andb_prop in H as [Hx H]. apply negb_true_iff in Hx.
  destruct (f x); simpl; [|now apply IH].
  rewrite IH by assumption. rewrite andb_true_r. apply negb_true_iff.
  destruct (str_in x (filter f l)) eqn:E; [|reflexivity].
  apply str_in_In, filter_In in E as [E _]. apply str_in_In in E. congruence.
Qed.

Lemma values_wf_get (d : dict) (k : str) (v : value) :
  values_wf d -> dict_get k d = Some v -> wf_value v = true.
Proof.
  induction d as [|[k' v'] d IH]; intros H Hget; simpl in Hget;
    [discriminate|].
  inversion H; subst. destruct (str_eqb k k'); [|now apply IH].
  now injection Hget as <-.
Qed.

Lemma values_wf_set (d : dict) (k : str) (v : value) :
  values_wf d -> wf_value v = true -> values_wf (dict_set k v d).
Proof.
  induction d as [|[k' v'] d IH]; intros H Hv; simpl.
  - now repeat constructor.
  - inversion H; subst. destruct (str_eqb k k'); constructor;
      try assumption. now apply IH.
Qed.

Lemma merge_loop_values_wf (o b : dict) :
  Forall (fun e => forall base, wf_value base = true ->
                     wf_value (deep_merge_values base (snd e)) = true) o ->
  values_wf o -> values_wf b -> values_wf (fold_left merge_step o b).
Proof.
  revert b. induction o as [|[k v] o IH]; intros b Hrec Ho Hb; simpl;
    [assumption|].
  inversion Hrec as [|? ? Hv Hrec']; subst.
  inversion Ho as [|? ? Hwv Ho']; subst. simpl in *.
  apply IH; try assumption. unfold merge_step; simpl.
  destruct (dict_get k b) as [mv|] eqn:E.
  - apply values_wf_set; [assumption|]. apply Hv.
    now apply (values_wf_get b k mv Hb E).
  - now apply values_wf_set.
Qed.

Lemma values_wf_forallb (d : dict) :
  values_wf d <-> forallb (fun e => wf_value (snd e)) d = true.
Proof.
  unfold values_wf. rewrite forallb_forall, Forall_forall. reflexivity.
Qed.

(** X1: the merge of two well-formed documents is well formed: no mapping
    of the result, at any depth, holds a key twice. *)
Theorem deep_merge_values_wf (base override : value) :
  wf_value base = true ->
  wf_value override = true ->
  wf_value (deep_merge_values base override) = true.
Proof.
  intros Hb Ho. revert base Hb.
  induction override as [| | | | items IH | entries IH]
    using value_nested_ind; intros base Hb;
    try (destruct base; assumption).
  destruct base as [| | | | |b]; try assumption.
  rewrite deep_merge_values_map.
  pose proof Ho as Ho'. pose proof Hb as Hb'.
  simpl in Ho', Hb'.
  apply andb_prop in Ho' as [Hno Hvo]. apply andb_prop in Hb' as [Hnb Hvb].
  apply values_wf_forallb in Hvo, Hvb.
  simpl. apply andb_true_intro. split.
  - fold (dict_keys (fold_left merge_step entries b)).
    rewrite merge_loop_keys by assumption.
    apply str_nodup_app; [assumption | now apply str_nodup_filter|].
    intros k Hk. destruct (str_in k (filter _ (dict_keys entries))) eqn:E;
      [|reflexivity].
    apply str_in_In, filter_In in E as [_ E]. now rewrite Hk in E.
  - apply values_wf_forallb. apply merge_loop_values_wf; try assumption.
    apply Forall_forall. intros e He base' Hbase'.
    rewrite Forall_forall in IH. apply (IH e He); [|assumption].
    unfold values_wf in Hvo. rewrite Forall_forall in Hvo. now apply Hvo.
Qed.

Lemma deep_merge_values_wf_witness :
  wf_value test_base = true
  /\ wf_value test_override = true
  /\ wf_value (deep_merge_values test_base test_override) = true.
Proof.
  split; [reflexivity|]. split; [reflexivity|].
  exact (deep_merge_values_wf test_base test_override eq_refl eq_refl).
Defined.

Lemma merge_loop_disjoint (o b : dict) :
  str_nodup (dict_keys o) = true ->
  (forall k, str_in k (dict_keys o) = true -> str_in k (dict_keys b) = false) ->
  fold_left merge_step o b = b ++ o.
Proof.
  revert b. induction o as [|[k v] o IH]; intros b Hnd Hdis; simpl.
  - now rewrite app_nil_r.
  - simpl in Hnd. apply andb_prop in Hnd as [Hk Hnd].
    apply negb_true_iff in Hk.
    assert (dict_get k b = None) as Hnone.
    { apply dict_get_None_keys. apply Hdis. simpl.
      now rewrite str_eqb_refl. }
    assert (merge_step b (k, v) = b ++ [(k, v)]) as ->.
    { unfold merge_step; simpl. rewrite Hnone. clear -Hnone.
      induction b as [|[k' v'] b IH]; simpl in *; [reflexivity|].
      destruct (str_eqb k k'); [discriminate|]. now rewrite IH. }
    rewrite IH; [now rewrite <- app_assoc | assumption |].
    intros k' Hk'. unfold dict_keys. rewrite map_app, str_in_app. simpl.
    rewrite orb_false_r. fold (dict_keys b).
    rewrite Hdis by (simpl; rewrite Hk'; apply orb_true_r). simpl.
    apply str_eqb_neq. intros ->. fold (dict_keys o) in Hk. congruence.
Qed.

(** X2: the empty mapping the fold of the values files starts from is a
    left identity: merged with a document it gives that document, keys in
    their order. *)
Theorem deep_merge_values_empty_base (x : value) :
  wf_value x = true -> deep_merge_values (VMap []) x = x.
Proof.
  intros Hwf. destruct x as [| | | | |o]; try reflexivity.
  rewrite deep_merge_values_map. f_equal.
  apply wf_value_map in Hwf as [Hnd _].
  now rewrite merge_loop_disjoint.
Qed.

Lemma deep_merge_values_empty_base_witness :
  wf_value test_override = true
  /\ deep_merge_values (VMap []) test_override = test_override.
Proof.
  split; [reflexivity|].
  exact (deep_merge_values_empty_base test_override eq_refl).
Defined.

(* ------------------------------------------------------------------ *)
(** ** Trimming *)

Lemma lstrip_idempotent (s : str) : lstrip (lstrip s) = lstrip s.
Proof.
  induction s as [|c s IH]; simpl; [reflexivity|].
  destruct (py_isspace c) eqn:E; [assumption|]. simpl. now rewrite E.
Qed.

Lemma lstrip_all_space (l t : str) :
  all_space l = true -> lstrip (l ++ t) = lstrip t.
Proof.
  induction l as [|c l IH]; intros H; simpl; [reflexivity|].
  simpl in H. apply andb_prop in H as [Hc Hl]. rewrite Hc. now apply IH.
Qed.

(** Leading whitespace of [x] goes; what follows stays when it starts
    with something else. *)
Lemma lstrip_app_head (x : str) (c : ascii) (y : str) :
  py_isspace c = false -> lstrip (x ++ c :: y) = lstrip x ++ c :: y.
Proof.
  intros Hc. induction x as [|a x IH]; simpl; [now rewrite Hc|].
  destruct (py_isspace a); [assumption | reflexivity].
Qed.

Lemma all_space_rev (s : str) : all_space (rev s) = all_space s.
Proof.
  unfold all_space. induction s as [|c s IH]; simpl; [reflexivity|].
  rewrite forallb_app, IH. simpl. rewrite andb_true_r. apply andb_comm.
Qed.

Lemma lstrip_nil_all_space (s : str) : lstrip s = [] <-> all_space s = true.
Proof.
  induction s as [|c s IH]; simpl; [tauto|].
  destruct (py_isspace c); simpl; [exact IH|].
  split; discriminate.
Qed.

Lemma strip_trimmed (m : str) : trimmed m -> strip m = m.
Proof.
  intros [H1 H2]. unfold strip, rstrip. rewrite H1, H2.
  apply rev_involutive.
Qed.

Lemma lstrip_keeps_last (u : str) (x : ascii) :
  py_isspace x = false -> exists u', lstrip (u ++ [x]) = u' ++ [x].
Proof.
  intros Hx. rewrite lstrip_app_head by assumption. now exists (lstrip u).
Qed.

Lemma strip_is_trimmed (s : str) : trimmed (strip s).
Proof.
  unfold trimmed, strip, rstrip. split.
  - set (t := lstrip s).
    assert (lstrip t = t) as Ht by apply lstrip_idempotent.
    destruct t as [|x t']; [reflexivity|].
    simpl in Ht. destruct (py_isspace x) eqn:Ex.
    + exfalso. apply (f_equal (@length ascii)) in Ht. simpl in Ht.
      assert (length (lstrip t') <= length t') as Hle.
      { clear. induction t' as [|c t IH]; simpl; [lia|].
        destruct (py_isspace c); simpl; lia. }
      lia.
    + simpl rev. destruct (lstrip_keeps_last (rev t') x Ex) as (u' & ->).
      rewrite rev_app_distr. simpl. now rewrite Ex.
  - rewrite rev_involutive. apply lstrip_idempotent.
Qed.

Lemma strip_idempotent (s : str) : strip (strip s) = strip s.
Proof. apply strip_trimmed, strip_is_trimmed. Qed.

(** Whitespace around a string does not change what trimming gives. *)
Lemma strip_padded (l m r : str) :
  all_space l = true -> all_space r = true ->
  strip (l ++ m ++ r) = strip m.
Proof.
  intros Hl Hr. unfold strip. rewrite (lstrip_all_space l _ Hl).
  destruct (lstrip m) as [|c t] eqn:E.
  - apply lstrip_nil_all_space in E.
    assert (lstrip (m ++ r) = []) as ->; [|reflexivity].
    apply lstrip_nil_all_space. unfold all_space in *.
    rewrite forallb_app, E, Hr. reflexivity.
  - assert (py_isspace c = false) as Hc.
    { pose proof (lstrip_idempotent m) as Hi. rewrite E in Hi.
      simpl in Hi. destruct (py_isspace c) eqn:Ec; [|reflexivity].
      exfalso. apply (f_equal (@length ascii)) in Hi. simpl in Hi.
      assert (length (lstrip t) <= length t) as Hle.
      { clear. induction t as [|a t IH]; simpl; [lia|].
        destruct (py_isspace a); simpl; lia. }
      lia. }
    assert (exists pre, m = pre ++ c :: t /\ all_space pre = true)
      as (pre & -> & Hpre).
    { clear -E. revert E. induction m as [|a m IH]; simpl; [discriminate|].
      destruct (py_isspace a) eqn:Ea.
      - intros H. destruct (IH H) as (pre & -> & Hp).
        exists (a :: pre). split; [reflexivity|]. simpl. now rewrite Ea.
      - intros H. injection H as -> ->. now exists []. }
    rewrite <- app_assoc. rewrite (lstrip_all_space pre _ Hpre).
    simpl. rewrite Hc. unfold rstrip.
    change (c :: t ++ r) with ((c :: t) ++ r). rewrite rev_app_distr.
    rewrite lstrip_all_space by now rewrite all_space_rev. reflexivity.
Qed.

(* ------------------------------------------------------------------ *)
(** ** Version tags, flags and versions *)

Lemma ensure_v_prefix_tag (s t : str) :
  ensure_v_prefix s = Ok t -> startswith (lit "v") t = true.
Proof.
  unfold ensure_v_prefix. destruct (is_empty (strip s)); [discriminate|].
  destruct (startswith (lit "v") (strip s)) eqn:E; intros H;
    injection H as <-; [assumption | reflexivity].
Qed.

(** X3: a tag [ensure_v_prefix] returns starts with [v], has no
    whitespace around it, and is returned as it is when it is normalized
    again. *)
Theorem ensure_v_prefix_idempotent (s t : str) :
  ensure_v_prefix s = Ok t ->
  startswith (lit "v") t = true
  /\ strip t = t
  /\ ensure_v_prefix t = Ok t.
Proof.
  unfold ensure_v_prefix. intros H.
  destruct (is_empty (strip s)) eqn:Ee; [discriminate|].
  assert (startswith (lit "v") t = true /\ strip t = t) as [Hv Ht].
  { destruct (startswith (lit "v") (strip s)) eqn:Ev; injection H as <-.
    - split; [assumption | apply strip_idempotent].
    - split; [reflexivity|]. apply strip_trimmed.
      destruct (strip_is_trimmed s) as [H1 H2]. split.
      + reflexivity.
      + simpl. destruct (strip s) as [|c m] eqn:Em; [discriminate|].
        destruct (rev (c :: m)) as [|x u] eqn:Er.
        * apply (f_equal (@rev ascii)) in Er.
          rewrite rev_involutive in Er. discriminate.
        * simpl in H2 |- *. destruct (py_isspace x) eqn:Ex; [|reflexivity].
          exfalso. apply (f_equal (@length ascii)) in H2. simpl in H2.
          assert (length (lstrip u) <= length u) as Hle.
          { clear. induction u as [|a u IH]; simpl; [lia|].
            destruct (py_isspace a); simpl; lia. }
          lia. }
  rewrite Ht. split; [assumption|]. split; [reflexivity|].
  destruct t as [|c t']; [discriminate|]. simpl is_empty. cbv iota.
  now rewrite Hv.
Qed.

Lemma ensure_v_prefix_idempotent_witness :
  ensure_v_prefix (lit "  3.14.4 ") = Ok (lit "v3.14.4")
  /\ ensure_v_prefix (lit "v3.14.4") = Ok (lit "v3.14.4").
Proof.
  split; [reflexivity|].
  exact (proj2 (proj2 (ensure_v_prefix_idempotent (lit "  3.14.4 ")
                         (lit "v3.14.4") eq_refl))).
Defined.

Lemma isspace_upper_char (c : ascii) :
  py_isspace (upper_char c) = py_isspace c.
Proof.
  destruct c as [[] [] [] [] [] [] [] []]; reflexivity.
Qed.

Lemma lower_upper_char (c : ascii) : lower_char (upper_char c) = lower_char c.
Proof.
  destruct c as [[] [] [] [] [] [] [] []]; reflexivity.
Qed.

Lemma lstrip_upper (s : str) : lstrip (upper s) = upper (lstrip s).
Proof.
  induction s as [|c s IH]; simpl; [reflexivity|].
  rewrite isspace_upper_char. now destruct (py_isspace c).
Qed.

Lemma strip_upper (s : str) : strip (upper s) = upper (strip s).
Proof.
  assert (forall x, rev (upper x) = upper (rev x)) as Hrev
    by (intros x; unfold upper; symmetry; apply map_rev).
  unfold strip, rstrip.
  now rewrite lstrip_upper, Hrev, lstrip_upper, Hrev.
Qed.

Lemma lower_upper (s : str) : lower (upper s) = lower s.
Proof.
  unfold lower, upper. rewrite map_map. apply map_ext, lower_upper_char.
Qed.

(** X4: [truthy] looks through whitespace around the flag and through
    its letter case. *)
Theorem truthy_ignores_padding_and_case (l s r : str) :
  all_space l = true ->
  all_space r = true ->
  truthy (l ++ s ++ r) = truthy s
  /\ truthy (l ++ upper s ++ r) = truthy s.
Proof.
  intros Hl Hr. unfold truthy. rewrite !strip_padded by assumption.
  split; [reflexivity|]. now rewrite strip_upper, lower_upper.
Qed.

Lemma truthy_ignores_padding_and_case_witness :
  all_space (lit " ") = true
  /\ all_space [newline] = true
  /\ truthy (lit " " ++ lit "YES" ++ [newline]) = true.
Proof.
  split; [reflexivity|]. split; [reflexivity|].
  exact (eq_trans
           (proj2 (truthy_ignores_padding_and_case (lit " ") (lit "yes")
                     [newline] eq_refl eq_refl))
           eq_refl).
Defined.

(** X5: whitespace around a chart version never changes whether it is
    accepted, whatever the grammar of the host's parser is. *)
Theorem validate_version_ignores_padding (h : host) (l s r : str) :
  all_space l = true ->
  all_space r = true ->
  validate_version h (l ++ s ++ r) = validate_version h s.
Proof.
  intros Hl Hr. unfold validate_version. now rewrite strip_padded.
Qed.

Lemma validate_version_ignores_padding_witness :
  validate_version demo_host (lit " " ++ lit "1.2.3" ++ [newline]) = true.
Proof.
  exact (eq_trans
           (validate_version_ignores_padding demo_host (lit " ")
              (lit "1.2.3") [newline] eq_refl eq_refl)
           eq_refl).
Defined.

(* ------------------------------------------------------------------ *)
(** ** Inputs *)

(** X6: [get_input] raises in one situation only: the input is required,
    has no default, and its variable is unset or empty.  A variable that
    holds something is returned as it is, whatever the default. *)
Theorem get_input_raises_iff (env : environ) (name : str)
    (default : option str) (required : bool) :
  ((exists msg, get_input env name default required = Err msg) <->
   (required = true /\ default = None
    /\ (env (input_key name) = None \/ env (input_key name) = Some [])))
  /\ forall c v,
       env (input_key name) = Some (c :: v) ->
       get_input env name default required = Ok (c :: v).
Proof.
  unfold get_input. split.
  - destruct (env (input_key name)) as [[|c v]|]; simpl;
      destruct required, default; simpl; split;
      try (intros (msg & H); discriminate H);
      try (intros (H1 & H2 & [H3|H3]); discriminate);
      try (intros _; now eexists);
      try (intros _; repeat split; auto).
  - intros c v ->. reflexivity.
Qed.

Lemma py_upper_ascii_char (c : ascii) :
  (nat_of_ascii c <? 128) = true ->
  py_upper_char c = [upper_char c]
  /\ py_upper_char (upper_char c) = [upper_char c]
  /\ py_upper_char (lower_char c) = [upper_char c].
Proof.
  destruct c as [[] [] [] [] [] [] [] []]; intros H;
    first [discriminate H | now repeat split].
Qed.

Lemma py_upper_ascii (name : str) :
  is_ascii name = true ->
  py_upper name = upper name
  /\ py_upper (upper name) = upper name
  /\ py_upper (lower name) = upper name.
Proof.
  induction name as [|c name IH]; intros H; [now repeat split|].
  simpl in H. apply andb_prop in H as [Hc H].
  destruct (IH H) as (H1 & H2 & H3).
  destruct (py_upper_ascii_char c Hc) as (E1 & E2 & E3).
  unfold py_upper, upper, lower in *. cbn [flat_map map].
  rewrite E1, E2, E3, H1, H2, H3. now repeat split.
Qed.

Lemma input_key_upper (name : str) :
  is_ascii name = true -> input_key (upper name) = input_key name.
Proof.
  intros H. destruct (py_upper_ascii name H) as (H1 & H2 & _).
  unfold input_key. now rewrite H1, H2.
Qed.

Lemma input_key_lower (name : str) :
  is_ascii name = true -> input_key (lower name) = input_key name.
Proof.
  intros H. destruct (py_upper_ascii name H) as (H1 & _ & H3).
  unfold input_key. now rewrite H1, H3.
Qed.

Lemma get_input_same_key (env : environ) (n1 n2 : str)
    (default : option str) (required : bool) (v : str) :
  input_key n1 = input_key n2 ->
  get_input env n1 default required = Ok v ->
  get_input env n2 default required = Ok v.
Proof.
  unfold get_input. intros ->.
  destruct (env (input_key n2)) as [[|c s]|]; simpl; try (intros H; exact H);
    destruct (required && _); intros H; first [discriminate H | exact H].
Qed.

(** X7: the letter case of an input's name does not matter.  For a name
    of ASCII characters (as the names of this action are), the name in
    capitals or in small letters reads the same variable, and gives the
    same value, as the name itself. *)
Theorem get_input_name_case (env : environ) (name : str)
    (default : option str) (required : bool) (v : str) :
  is_ascii name = true ->
  input_key (upper name) = input_key name
  /\ input_key (lower name) = input_key name
  /\ (get_input env (upper name) default required = Ok v <->
      get_input env name default required = Ok v)
  /\ (get_input env (lower name) default required = Ok v <->
      get_input env name default required = Ok v).
Proof.
  intros H.
  pose proof (input_key_upper name H) as Hu.
  pose proof (input_key_lower name H) as Hl.
  split; [exact Hu|]. split; [exact Hl|].
  split; split; apply get_input_same_key; congruence.
Qed.

Lemma get_input_name_case_witness :
  input_key (lit "CHART_PATH") = input_key (lit "Chart_Path")
  /\ (get_input nested_env (lit "CHART_PATH") None true
      = Ok (lit "charts/my") <->
      get_input nested_env (lit "Chart_Path") None true
      = Ok (lit "charts/my")).
Proof.
  split.
  - exact (proj1 (get_input_name_case nested_env (lit "Chart_Path") None
                    true (lit "charts/my") eq_refl)).
  - exact (proj1 (proj2 (proj2
             (get_input_name_case nested_env (lit "Chart_Path") None true
                (lit "charts/my") eq_refl)))).
Defined.

(* ------------------------------------------------------------------ *)
(** ** The list of values files *)

Example parse_values_files_test :
  parse_values_files [] = []
  /\ parse_values_files (lit "values.yaml") = [lit "values.yaml"]
  /\ parse_values_files (lit "values.yaml,values.dev.yaml")
     = [lit "values.yaml"; lit "values.dev.yaml"]
  /\ parse_values_files
       (lit "values.yaml" ++ [newline] ++ lit "values.dev.yaml" ++ [newline])
     = [lit "values.yaml"; lit "values.dev.yaml"].
Proof. repeat split; reflexivity. Qed.

Lemma re_split_delimiters_parts (s cur : str) (in_run : bool) :
  no_delimiter cur ->
  Forall no_delimiter (re_split_delimiters cur in_run s).
Proof.
  revert cur in_run. induction s as [|c s IH]; intros cur in_run Hcur; simpl.
  - now repeat constructor.
  - destruct (is_delimiter c) eqn:E.
    + destruct in_run.
      * apply IH. intros ? [].
      * constructor; [assumption|]. apply IH. intros ? [].
    + apply IH. intros x Hin. apply in_app_or in Hin as [Hin|[<-|[]]];
        [now apply Hcur | assumption].
Qed.

Lemma lstrip_incl (s : str) (c : ascii) : In c (lstrip s) -> In c s.
Proof.
  induction s as [|a s IH]; simpl; [tauto|].
  destruct (py_isspace a); [intros H; right; now apply IH | tauto].
Qed.

Lemma strip_incl (s : str) (c : ascii) : In c (strip s) -> In c s.
Proof.
  unfold strip, rstrip. intros H. apply in_rev in H.
  apply lstrip_incl in H. apply in_rev in H. now apply lstrip_incl.
Qed.

(** X8: every entry [parse_values_files] returns is a file reference that
    is not empty, has no whitespace around it and holds no comma and no
    line break. *)
Theorem parse_values_files_entries (values_files_raw p : str) :
  In p (parse_values_files values_files_raw) ->
  p <> [] /\ strip p = p /\ no_delimiter p.
Proof.
  unfold parse_values_files. intros H.
  apply filter_In in H as [H Hne]. apply in_map_iff in H as (part & <- & Hin).
  split; [|split].
  - intros E. now rewrite E in Hne.
  - apply strip_idempotent.
  - pose proof (re_split_delimiters_parts values_files_raw [] false) as Hall.
    rewrite Forall_forall in Hall.
    intros c Hc. apply strip_incl in Hc.
    apply (Hall ltac:(intros ? []) part Hin c Hc).
Qed.

Lemma parse_values_files_entries_witness :
  In (lit "values.dev.yaml")
    (parse_values_files (lit "values.yaml , values.dev.yaml" ++ [newline]))
  /\ strip (lit "values.dev.yaml") = lit "values.dev.yaml".
Proof.
  assert (In (lit "values.dev.yaml")
            (parse_values_files
               (lit "values.yaml , values.dev.yaml" ++ [newline]))) as Hin
    by (vm_compute; tauto).
  split; [exact Hin|].
  exact (proj1 (proj2 (parse_values_files_entries _ _ Hin))).
Defined.

Lemma entries_from_run (s : str) :
  entries_from [] true s = entries_from [] false s.
Proof.
  unfold entries_from. destruct s as [|c s]; simpl; [reflexivity|].
  destruct (is_delimiter c); reflexivity.
Qed.

Lemma entries_from_app (a : str) (d : ascii) (b cur : str) (in_run : bool) :
  is_delimiter d = true ->
  (in_run = true -> cur = []) ->
  entries_from cur in_run (a ++ d :: b)
  = entries_from cur in_run a ++ entries_from [] false b.
Proof.
  intros Hd. revert cur in_run.
  induction a as [|c a IH]; intros cur in_run Hinv.
  - simpl app. unfold entries_from at 1 2. simpl. rewrite Hd.
    destruct in_run.
    + rewrite (Hinv eq_refl). simpl. apply entries_from_run.
    + simpl. fold (entries_from [] true b). rewrite entries_from_run.
      now destruct (negb (is_empty (strip cur))).
  - unfold entries_from at 1 2. simpl. destruct (is_delimiter c).
    + destruct in_run.
      * apply (IH [] true). reflexivity.
      * simpl. fold (entries_from [] true (a ++ d :: b)).
        fold (entries_from [] true a).
        rewrite (IH [] true) by reflexivity.
        now destruct (negb (is_empty (strip cur))).
    + apply (IH (cur ++ [c]) false). discriminate.
Qed.

(** X9: [parse_values_files] keeps the order of the references: the
    entries of a list cut at a comma or a line break are the entries of
    what is before the cut, then the entries of what is after. *)
Theorem parse_values_files_app (a b : str) (d : ascii) :
  is_delimiter d = true ->
  parse_values_files (a ++ d :: b)
  = parse_values_files a ++ parse_values_files b.
Proof.
  intros Hd. apply (entries_from_app a d b [] false Hd). discriminate.
Qed.

Lemma parse_values_files_app_witness :
  parse_values_files (lit "a.yaml, b.yaml" ++ newline :: lit "c.yaml")
  = [lit "a.yaml"; lit "b.yaml"; lit "c.yaml"].
Proof.
  exact (eq_trans
           (parse_values_files_app (lit "a.yaml, b.yaml") (lit "c.yaml")
              newline eq_refl)
           eq_refl).
Defined.

(* ------------------------------------------------------------------ *)
(** ** The checksum file of the tool *)

Example parse_sha256_text_hash_only :
  parse_sha256_text (repeat "a"%char 64 ++ [newline])
  = Ok (repeat "a"%char 64).
Proof. reflexivity. Qed.

Example parse_sha256_text_hash_and_filename :
  parse_sha256_text
    (repeat "b"%char 64 ++ lit "  helm-v3.14.4-linux-amd64.tar.gz"
     ++ [newline])
  = Ok (repeat "b"%char 64).
Proof. reflexivity. Qed.

Lemma lower_hex_char (c : ascii) :
  is_hex_digit c = true -> is_lower_hex_digit (lower_char c) = true.
Proof.
  destruct c as [[] [] [] [] [] [] [] []]; intros H;
    first [reflexivity | discriminate H].
Qed.

Lemma lower_lower_hex_char (c : ascii) :
  is_lower_hex_digit c = true -> lower_char c = c.
Proof.
  destruct c as [[] [] [] [] [] [] [] []]; intros H;
    first [reflexivity | discriminate H].
Qed.

Lemma hex_not_space (c : ascii) :
  is_hex_digit c = true -> py_isspace c = false.
Proof.
  destruct c as [[] [] [] [] [] [] [] []]; intros H;
    first [reflexivity | discriminate H].
Qed.

(** X10: a checksum [parse_sha256_file] accepts has the form of a
    digest: sixty-four digits, each of [0-9a-f], so it compares with
    [hexdigest()] whatever the case of the file was. *)
Theorem parse_sha256_text_digest (content digest : str) :
  parse_sha256_text content = Ok digest ->
  length digest = 64
  /\ forallb is_lower_hex_digit digest = true
  /\ lower digest = digest.
Proof.
  unfold parse_sha256_text. intros H.
  destruct (is_empty (strip content)); [discriminate|].
  set (tok := strip (hd [] (split_whitespace [] (strip content)))) in *.
  destruct ((length tok =? 64) && forallb is_hex_digit tok) eqn:E;
    [|discriminate].
  injection H as <-. apply andb_prop in E as [Hlen Hhex].
  apply Nat.eqb_eq in Hlen.
  assert (forallb is_lower_hex_digit (lower tok) = true) as Hlow.
  { unfold lower. rewrite forallb_forall in *. intros c Hc.
    apply in_map_iff in Hc as (c0 & <- & Hc0).
    apply lower_hex_char. now apply Hhex. }
  split; [unfold lower; now rewrite length_map|]. split; [assumption|].
  rewrite forallb_forall in Hlow. unfold lower at 1.
  rewrite <- (map_id (lower tok)) at 2. apply map_ext_in.
  intros c Hc. apply lower_lower_hex_char. now apply Hlow.
Qed.

Lemma parse_sha256_text_digest_witness :
  parse_sha256_text (lit "  " ++ repeat "A"%char 64 ++ lit " x") 
  = Ok (repeat "a"%char 64)
  /\ length (repeat "a"%char 64) = 64.
Proof.
  split; [reflexivity|].
  exact (proj1 (parse_sha256_text_digest
                  (lit "  " ++ repeat "A"%char 64 ++ lit " x")
                  (repeat "a"%char 64) eq_refl)).
Defined.

Lemma lstrip_prefix_space (s : str) :
  exists l, s = l ++ lstrip s /\ all_space l = true.
Proof.
  induction s as [|c s (l & Hs & Hl)]; simpl; [now exists []|].
  destruct (py_isspace c) eqn:E.
  - exists (c :: l). split; [simpl; now rewrite <- Hs|]. simpl.
    now rewrite E.
  - now exists [].
Qed.

Lemma rstrip_head (w : ascii) (rest : str) :
  py_isspace w = true -> ends_token (rstrip (w :: rest)) = true.
Proof.
  intros Hw. unfold rstrip.
  destruct (lstrip_prefix_space (rev (w :: rest))) as (l & Hs & _).
  apply (f_equal (@rev ascii)) in Hs.
  rewrite rev_involutive, rev_app_distr in Hs.
  destruct (rev (lstrip (rev (w :: rest)))) as [|x u]; [reflexivity|].
  simpl in Hs. injection Hs as <- _. exact Hw.
Qed.

Lemma word_head_last (tok : str) :
  tok <> [] -> forallb is_hex_digit tok = true ->
  (exists c t, tok = c :: t /\ py_isspace c = false)
  /\ (exists c t, rev tok = c :: t /\ py_isspace c = false).
Proof.
  intros Hne Hhex. rewrite forallb_forall in Hhex. split.
  - destruct tok as [|c t]; [congruence|]. exists c, t.
    split; [reflexivity|]. apply hex_not_space, Hhex. now left.
  - destruct (rev tok) as [|c t] eqn:E.
    + apply (f_equal (@rev ascii)) in E. rewrite rev_involutive in E.
      contradiction.
    + exists c, t. split; [reflexivity|]. apply hex_not_space, Hhex.
      apply in_rev. rewrite E. now left.
Qed.

Lemma split_whitespace_word (tok cur u : str) :
  forallb is_hex_digit tok = true ->
  split_whitespace cur (tok ++ u) = split_whitespace (cur ++ tok) u.
Proof.
  revert cur. induction tok as [|c tok IH]; intros cur H; simpl.
  - now rewrite app_nil_r.
  - simpl in H. apply andb_prop in H as [Hc H].
    rewrite (hex_not_space c Hc), (IH _ H), <- app_assoc. reflexivity.
Qed.

(** X11: the checksum is the first word of the file, in small letters:
    whitespace before it, and whatever follows it after whitespace (the
    file name, a line end), does not change the result. *)
Theorem parse_sha256_text_first_word (l tok rest : str) :
  all_space l = true ->
  length tok = 64 ->
  forallb is_hex_digit tok = true ->
  ends_token rest = true ->
  parse_sha256_text (l ++ tok ++ rest) = Ok (lower tok).
Proof.
  intros Hl Hlen Hhex Hrest.
  assert (tok <> []) as Hne by (intros ->; discriminate).
  destruct (word_head_last tok Hne Hhex)
    as [(c & t & Htok & Hc) (x & y & Hrev & Hx)].
  assert (strip (l ++ tok ++ rest) = tok ++ rstrip rest) as Hstrip.
  { unfold strip. rewrite (lstrip_all_space l _ Hl).
    assert (lstrip (tok ++ rest) = tok ++ rest) as ->
      by (rewrite Htok; simpl; now rewrite Hc).
    unfold rstrip. rewrite rev_app_distr, Hrev.
    rewrite (lstrip_app_head _ _ _ Hx), rev_app_distr, <- Hrev.
    now rewrite rev_involutive. }
  assert (ends_token (rstrip rest) = true) as Hu.
  { destruct rest as [|w rest']; [reflexivity|]. now apply rstrip_head. }
  assert (strip tok = tok) as Htrim.
  { apply strip_trimmed. split.
    - rewrite Htok. simpl. now rewrite Hc.
    - rewrite Hrev. simpl. now rewrite Hx. }
  unfold parse_sha256_text. rewrite Hstrip.
  assert (is_empty (tok ++ rstrip rest) = false) as ->
    by (rewrite Htok; reflexivity).
  rewrite (split_whitespace_word tok [] _ Hhex). simpl app.
  assert (hd [] (split_whitespace tok (rstrip rest)) = tok) as ->.
  { destruct (rstrip rest) as [|w u]; simpl.
    - rewrite Htok. reflexivity.
    - simpl in Hu. rewrite Hu. rewrite Htok. reflexivity. }
  rewrite Htrim, Hlen, Hhex. reflexivity.
Qed.

Lemma parse_sha256_text_first_word_witness :
  parse_sha256_text
    (lit " " ++ repeat "B"%char 64 ++ lit "  helm-v3.14.4-linux-amd64.tar.gz")
  = Ok (repeat "b"%char 64).
Proof.
  exact (eq_trans
           (parse_sha256_text_first_word (lit " ") (repeat "B"%char 64)
              (lit "  helm-v3.14.4-linux-amd64.tar.gz")
              eq_refl eq_refl eq_refl eq_refl)
           eq_refl).
Defined.

(* ------------------------------------------------------------------ *)
(** ** The installation of the tool *)

(** X12: [install_helm] fails before anything is fetched when the tool
    version is blank or the machine is not supported, and leaves the
    world as it was; otherwise the one thing it does is to fetch and
    install, for a tag that starts with [v] and for [amd64] or [arm64]. *)
Theorem install_helm_checks_first (h : host) (helm_version : str)
    (w : world) :
  match ensure_v_prefix helm_version, detect_arch h with
  | Ok tag, Ok arch =>
      startswith (lit "v") tag = true
      /\ (arch = lit "amd64" \/ arch = lit "arm64")
      /\ install_helm h helm_version w
         = (fst (fetch_and_install h tag arch (w_fs w)),
            with_fs (snd (fetch_and_install h tag arch (w_fs w)))
              (log (EvInstall tag) w))
  | Err e, _ => install_helm h helm_version w = (Err e, w)
  | Ok _, Err e => install_helm h helm_version w = (Err e, w)
  end.
Proof.
  unfold install_helm. rewrite bindM_lift.
  destruct (ensure_v_prefix helm_version) as [tag|e] eqn:Etag;
    [|reflexivity].
  rewrite bindM_lift.
  destruct (detect_arch h) as [arch|e] eqn:Earch; [|reflexivity].
  split; [apply (ensure_v_prefix_tag helm_version tag Etag)|]. split.
  - unfold detect_arch in Earch.
    destruct (str_in (lower (machine h)) [lit "x86_64"; lit "amd64"]);
      [injection Earch as <-; now left|].
    destruct (str_in (lower (machine h)) [lit "aarch64"; lit "arm64"]);
      [injection Earch as <-; now right | discriminate].
  - simpl. now destruct (fetch_and_install h tag arch (w_fs w)).
Qed.

(* ------------------------------------------------------------------ *)
(** ** Normal forms of paths *)

Lemma initial_slashes_cases (y : str) :
  isabs y = true -> initial_slashes y = 1 \/ initial_slashes y = 2.
Proof.
  unfold isabs, initial_slashes. intros ->.
  match goal with |- context [if ?b then _ else _] => destruct b end; auto.
Qed.

Lemma normpath_rooted_eq (y : str) :
  isabs y = true ->
  normpath y
  = repeat sep (initial_slashes y)
    ++ join_sep (norm_comps true [] (split_sep y)).
Proof.
  intros H. unfold normpath.
  destruct y as [|c y]; [discriminate|]. cbv iota beta zeta.
  change (is_empty (c :: y)) with false. cbv iota.
  destruct (initial_slashes_cases (c :: y) H) as [-> | ->]; reflexivity.
Qed.

Lemma rooted_comps_ok (y : str) :
  Forall (fun c => c <> [] /\ nosep c) (norm_comps true [] (split_sep y)).
Proof.
  pose proof (norm_comps_rooted_names (split_sep y)) as Hn.
  pose proof (@norm_comps_split_nosep true y [] (Forall_nil _)) as Hs.
  rewrite Forall_forall in *. intros c Hc. split.
  - now destruct (Hn c Hc).
  - now apply Hs.
Qed.

Lemma normpath_rooted_idempotent (y : str) :
  isabs y = true -> normpath (normpath y) = normpath y.
Proof.
  intros H. rewrite (normpath_rooted_eq y H).
  set (N := norm_comps true [] (split_sep y)).
  assert (startswith [sep] (join_sep N) = false) as HJ
    by apply startswith_sep_join_sep, rooted_comps_ok.
  assert (forall k, (k = 1 \/ k = 2) ->
            isabs (repeat sep k ++ join_sep N) = true
            /\ initial_slashes (repeat sep k ++ join_sep N) = k) as Hk.
  { intros k [-> | ->]; unfold isabs, initial_slashes; simpl repeat;
      cbn [app startswith]; rewrite !Ascii.eqb_refl; cbn [andb];
      fold (startswith [sep] (join_sep N)); rewrite HJ; auto. }
  destruct (Hk _ (initial_slashes_cases y H)) as [Habs Hinit].
  rewrite (normpath_rooted_eq _ Habs), Hinit. f_equal. f_equal.
  rewrite <- norm_comps_skip_empty.
  fold (nonempty_comps (repeat sep (initial_slashes y) ++ join_sep N)).
  rewrite nonempty_comps_repeat_sep.
  rewrite nonempty_comps_join_sep by apply rooted_comps_ok.
  apply (@norm_comps_names true [] N), norm_comps_rooted_names.
Qed.

Lemma repeat_snoc (A : Type) (a : A) (n : nat) :
  repeat a n ++ [a] = a :: repeat a n.
Proof. induction n as [|n IH]; simpl; [reflexivity | now rewrite IH]. Qed.

Lemma norm_step_pardir_append (rooted : bool) (S : list str) :
  S <> [] -> last S [] = pardir -> norm_step rooted S pardir = S ++ [pardir].
Proof.
  intros Hne Hl. destruct S as [|a S']; [congruence|].
  unfold norm_step. rewrite Hl. now destruct rooted.
Qed.

Lemma norm_step_pardir_on_pardirs (n : nat) :
  norm_step false (repeat pardir n) pardir = repeat pardir (S n).
Proof.
  destruct n as [|n]; [reflexivity|].
  rewrite norm_step_pardir_append.
  - now rewrite repeat_snoc.
  - discriminate.
  - change (repeat pardir (S n)) with (pardir :: repeat pardir n).
    rewrite <- repeat_snoc. apply last_last.
Qed.

Lemma norm_step_rel_normal (S : list str) (c : str) :
  rel_normal S -> rel_normal (norm_step false S c).
Proof.
  intros (n & names & -> & Hn).
  destruct (is_empty c) eqn:E0;
    [destruct c; [|discriminate]; now exists n, names|].
  destruct (str_eqb c curdir) eqn:E1;
    [apply str_eqb_eq in E1; subst c; now exists n, names|].
  destruct (str_eqb c pardir) eqn:E2.
  - apply str_eqb_eq in E2. subst c.
    destruct names as [|x names _] using rev_ind.
    + rewrite app_nil_r, norm_step_pardir_on_pardirs.
      exists (S n), []. rewrite app_nil_r. now split.
    + apply Forall_app in Hn as [Hn Hx].
      inversion Hx as [|? ? Hxn _]; subst.
      unfold norm_step. simpl is_empty. cbv iota.
      change (str_eqb pardir curdir) with false.
      change (str_eqb pardir pardir) with true.
      rewrite app_assoc, is_nil_app_false, last_last.
      destruct Hxn as (_ & _ & Hxp). apply str_eqb_neq in Hxp.
      rewrite Hxp. cbn [negb orb andb]. rewrite removelast_last.
      now exists n, names.
  - assert (is_name c) as Hc.
    { repeat split.
      - intros ->. discriminate.
      - now apply str_eqb_neq.
      - now apply str_eqb_neq. }
    rewrite (norm_step_name false _ Hc). exists n, (names ++ [c]).
    split; [now rewrite app_assoc|].
    apply Forall_app. split; [assumption | now constructor].
Qed.

Lemma norm_comps_rel_normal (comps S : list str) :
  rel_normal S -> rel_normal (norm_comps false S comps).
Proof.
  revert S. induction comps as [|c comps IH]; intros S HS; simpl;
    [assumption|].
  apply IH. now apply norm_step_rel_normal.
Qed.

Lemma norm_comps_pardirs (m n : nat) :
  norm_comps false (repeat pardir m) (repeat pardir n)
  = repeat pardir (m + n).
Proof.
  revert m. induction n as [|n IH]; intros m; simpl.
  - now rewrite Nat.add_0_r.
  - unfold norm_comps in *. simpl.
    rewrite norm_step_pardir_on_pardirs, (IH (S m)).
    f_equal. lia.
Qed.

Lemma norm_comps_rel_normal_fixed (P : list str) :
  rel_normal P -> norm_comps false [] P = P.
Proof.
  intros (n & names & -> & Hn).
  rewrite norm_comps_app.
  pose proof (norm_comps_pardirs 0 n) as Hp.
  change (repeat pardir 0) with (@nil str) in Hp.
  change (0 + n) with n in Hp. rewrite Hp.
  now apply norm_comps_names.
Qed.

Lemma normpath_relative_idempotent (x : str) :
  isabs x = false -> normpath (normpath x) = normpath x.
Proof.
  intros H. rewrite (normpath_relative x H).
  destruct (norm_comps false [] (split_sep x)) as [|c P] eqn:EP;
    [reflexivity|].
  cbn [is_nil].
  pose proof (relative_comps_ok x) as Hok. rewrite EP in Hok.
  assert (rel_normal (c :: P)) as Hshape.
  { rewrite <- EP. apply norm_comps_rel_normal.
    exists 0, []. now split. }
  rewrite normpath_relative by now apply startswith_sep_join_sep.
  rewrite split_join_sep.
  - now rewrite (norm_comps_rel_normal_fixed _ Hshape).
  - discriminate.
  - eapply Forall_impl; [|exact Hok]. now intros y [_ Hy].
Qed.

Lemma normpath_idempotent (x : str) : normpath (normpath x) = normpath x.
Proof.
  destruct (isabs x) eqn:E.
  - now apply normpath_rooted_idempotent.
  - now apply normpath_relative_idempotent.
Qed.

(** X13: [resolve_path] always returns a path in normal form; an
    absolute path is resolved without the workspace; and under an
    absolute workspace, or for an absolute path, the result is absolute
    and resolving it again changes nothing. *)
Theorem resolve_path_normal (workspace p : str) :
  normpath (resolve_path workspace p) = resolve_path workspace p
  /\ (isabs p = true -> resolve_path workspace p = normpath p)
  /\ ((isabs workspace || isabs p) = true ->
      isabs (resolve_path workspace p) = true
      /\ resolve_path workspace (resolve_path workspace p)
         = resolve_path workspace p).
Proof.
  assert (normpath (resolve_path workspace p) = resolve_path workspace p)
    as Hnorm.
  { unfold resolve_path. destruct (isabs p); apply normpath_idempotent. }
  split; [exact Hnorm|]. split.
  - unfold resolve_path. now intros ->.
  - intros Habs.
    assert (isabs (resolve_path workspace p) = true) as Hr.
    { unfold resolve_path. destruct (isabs p) eqn:Ep.
      - now rewrite isabs_normpath.
      - rewrite isabs_normpath, (@isabs_path_join workspace p Ep).
        now rewrite orb_false_r in Habs. }
    split; [exact Hr|].
    unfold resolve_path at 1. now rewrite Hr.
Qed.

(* ------------------------------------------------------------------ *)
(** ** Reporting a path relative to the workspace *)

Lemma abspath_comps_ok (cwd x : str) :
  isabs cwd = true ->
  Forall is_name (nonempty_comps (abspath cwd x))
  /\ Forall (fun c => c <> [] /\ nosep c) (nonempty_comps (abspath cwd x)).
Proof.
  intros Hcwd. unfold abspath.
  set (y := if isabs x then x else path_join cwd x).
  assert (isabs y = true) as Hy.
  { unfold y. destruct (isabs x) eqn:E; [assumption|].
    now rewrite (@isabs_path_join cwd x E). }
  rewrite (comps_rooted y Hy). split.
  - apply norm_comps_rooted_names.
  - apply rooted_comps_ok.
Qed.

Lemma common_prefix_len_le (a b : list str) :
  common_prefix_len a b <= length a /\ common_prefix_len a b <= length b.
Proof.
  revert b. induction a as [|x a IH]; intros [|y b]; simpl; try lia.
  destruct (str_eqb x y); simpl; [|lia].
  destruct (IH b). lia.
Qed.

Lemma common_prefix_len_firstn (a b : list str) :
  firstn (common_prefix_len a b) a = firstn (common_prefix_len a b) b.
Proof.
  revert b. induction a as [|x a IH]; intros [|y b]; simpl; try reflexivity.
  destruct (str_eqb x y) eqn:E; simpl; [|reflexivity].
  apply str_eqb_eq in E. subst y. now rewrite IH.
Qed.

Lemma norm_step_rooted_pardir_names (S : list str) :
  Forall is_name S -> norm_step true S pardir = removelast S.
Proof.
  intros HS. destruct S as [|x S _] using rev_ind; [reflexivity|].
  apply Forall_app in HS as [_ Hx]. inversion Hx as [|? ? Hxn _]; subst.
  destruct Hxn as (_ & _ & Hxp). apply str_eqb_neq in Hxp.
  unfold norm_step. simpl is_empty. cbv iota.
  change (str_eqb pardir curdir) with false.
  change (str_eqb pardir pardir) with true.
  rewrite is_nil_app_false, last_last, Hxp. reflexivity.
Qed.

Lemma removelast_firstn_len (A : Type) (l : list A) :
  removelast l = firstn (length l - 1) l.
Proof.
  destruct l as [|x l _] using rev_ind; [reflexivity|].
  rewrite removelast_last, length_app. simpl.
  replace (length l + 1 - 1) with (length l) by lia.
  rewrite firstn_app, Nat.sub_diag, firstn_all. simpl.
  now rewrite app_nil_r.
Qed.

(** Under a root, [k] times [..] takes the last [k] names away. *)
Lemma norm_comps_pop (k : nat) (S : list str) :
  Forall is_name S ->
  norm_comps true S (repeat pardir k) = firstn (length S - k) S.
Proof.
  revert S. induction k as [|k IH]; intros S HS; simpl.
  - rewrite Nat.sub_0_r. now rewrite firstn_all.
  - unfold norm_comps in *. simpl.
    rewrite (norm_step_rooted_pardir_names S HS).
    rewrite IH by now apply Forall_removelast.
    rewrite (removelast_firstn_len _ S), firstn_firstn, length_firstn.
    f_equal. lia.
Qed.

Section Relative.
Variable cwd : str.
Hypothesis Hcwd : isabs cwd = true.

(** The components [workspace_relpath] reports. *)
Lemma workspace_relpath_comps (ws p : str) :
  let S := nonempty_comps (abspath cwd ws) in
  let P := nonempty_comps (abspath cwd p) in
  let i := common_prefix_len S P in
  let rel_list := repeat pardir (length S - i) ++ skipn i P in
  workspace_relpath cwd ws p
  = (if is_nil rel_list then curdir else join_sep rel_list)
  /\ Forall (fun c => c <> [] /\ nosep c) rel_list.
Proof.
  cbv zeta.
  set (S := nonempty_comps (abspath cwd ws)).
  set (P := nonempty_comps (abspath cwd p)).
  set (i := common_prefix_len S P).
  assert (Forall (fun c => c <> [] /\ nosep c)
            (repeat pardir (length S - i) ++ skipn i P)) as Hok.
  { apply Forall_app. split.
    - apply Forall_forall. intros c Hc. apply repeat_spec in Hc. subst c.
      split; [discriminate|]. intros Hin. simpl in Hin.
      repeat (destruct Hin as [Hin|Hin]; [discriminate|]). exact Hin.
    - destruct (abspath_comps_ok cwd p Hcwd) as [_ HP]. fold P in HP.
      rewrite Forall_forall in *. intros c Hc. apply HP.
      rewrite <- (firstn_skipn i P). apply in_or_app. now right. }
  split; [|exact Hok].
  unfold workspace_relpath, relpath.
  rewrite normpath_nonempty.
  rewrite !comps_abspath_normpath by assumption. fold S P i.
  destruct (repeat pardir (length S - i) ++ skipn i P) as [|first rest];
    [reflexivity|].
  cbn [is_nil]. inversion Hok as [|? ? [Hne Hns] Hrest]; subst.
  rewrite fold_path_join; try assumption.
  - now rewrite join_sep_concat.
  - now apply endswith_sep_nosep.
Qed.

(** X14: the path [workspace_relpath] reports leads back: resolved
    against the workspace it names the file the reported path named,
    whether that file is below the workspace or not. *)
Theorem workspace_relpath_leads_back (ws p : str) :
  nonempty_comps
    (abspath cwd (resolve_path ws (workspace_relpath cwd ws p)))
  = nonempty_comps (abspath cwd p).
Proof.
  destruct (workspace_relpath_comps ws p) as [Hr Hok]. cbv zeta in Hr, Hok.
  set (S := nonempty_comps (abspath cwd ws)) in *.
  set (P := nonempty_comps (abspath cwd p)) in *.
  set (i := common_prefix_len S P) in *.
  destruct (common_prefix_len_le S P) as [HiS HiP]. fold i in HiS, HiP.
  pose proof (common_prefix_len_firstn S P) as Hfirst. fold i in Hfirst.
  destruct (abspath_comps_ok cwd ws Hcwd) as [HSn _]. fold S in HSn.
  destruct (abspath_comps_ok cwd p Hcwd) as [HPn _]. fold P in HPn.
  rewrite Hr. clear Hr.
  destruct (repeat pardir (length S - i) ++ skipn i P) as [|first rest]
    eqn:Erel; cbn [is_nil].
  - unfold resolve_path. change (isabs curdir) with false. cbv iota.
    rewrite comps_abspath_normpath by assumption.
    rewrite comps_abspath_join by (try assumption; reflexivity).
    fold S. change (split_sep curdir) with [curdir].
    change (norm_comps true S [curdir]) with S.
    apply app_eq_nil in Erel as [Hrep Hskip].
    assert (length S - i = 0) as Hk
      by (destruct (length S - i); [reflexivity | discriminate]).
    assert (length P <= i) as Hp.
    { apply (f_equal (@length str)) in Hskip.
      rewrite length_skipn in Hskip. simpl in Hskip. lia. }
    assert (i = length S) as HiS' by lia.
    assert (i = length P) as HiP' by lia.
    rewrite HiS' in Hfirst at 1. rewrite HiP' in Hfirst.
    now rewrite !firstn_all in Hfirst.
  - assert (isabs (join_sep (first :: rest)) = false) as Hrel
      by now apply startswith_sep_join_sep.
    unfold resolve_path. rewrite Hrel.
    rewrite comps_abspath_normpath by assumption.
    rewrite comps_abspath_join by assumption. fold S.
    rewrite split_join_sep;
      [|discriminate
       |eapply Forall_impl; [|exact Hok]; now intros y [_ Hy]].
    rewrite <- Erel, norm_comps_app, (norm_comps_pop _ S HSn).
    replace (length S - (length S - i)) with i by lia.
    rewrite norm_comps_names.
    + rewrite Hfirst. apply firstn_skipn.
    + rewrite Forall_forall in *. intros c Hc. apply HPn.
      rewrite <- (firstn_skipn i P). apply in_or_app. now right.
Qed.

(** X15: a path below the workspace is reported by its components below
    the workspace, joined by the separator, with no [..] in them; the
    workspace itself is reported as [.]. *)
Theorem workspace_relpath_below (ws p : str) (rel : list str) :
  nonempty_comps (abspath cwd p) = nonempty_comps (abspath cwd ws) ++ rel ->
  workspace_relpath cwd ws p
  = (if is_nil rel then curdir else join_sep rel)
  /\ ~ In pardir rel.
Proof.
  intros Hcomps.
  destruct (abspath_comps_ok cwd p Hcwd) as [Hn Hok].
  rewrite Hcomps in Hn, Hok.
  apply Forall_app in Hn as [_ Hn]. apply Forall_app in Hok as [_ Hok].
  split.
  - unfold workspace_relpath.
    rewrite (@relpath_below cwd (normpath ws) (normpath p) rel);
      try assumption.
    + reflexivity.
    + now rewrite !comps_abspath_normpath.
    + apply normpath_nonempty.
  - intros Hin. rewrite Forall_forall in Hn.
    destruct (Hn _ Hin) as (_ & _ & Hp). now apply Hp.
Qed.

End Relative.

Lemma workspace_relpath_leads_back_witness :
  isabs (lit "/") = true
  /\ workspace_relpath (lit "/") (lit "/github/workspace") (lit "/tmp/x.tgz")
     = lit "../../tmp/x.tgz"
  /\ nonempty_comps
       (abspath (lit "/")
          (resolve_path (lit "/github/workspace") (lit "../../tmp/x.tgz")))
     = [lit "tmp"; lit "x.tgz"].
Proof.
  split; [reflexivity|]. split; [reflexivity|].
  exact (eq_trans
           (workspace_relpath_leads_back (lit "/") eq_refl
              (lit "/github/workspace") (lit "/tmp/x.tgz"))
           eq_refl).
Defined.

Lemma workspace_relpath_below_witness :
  isabs (lit "/") = true
  /\ workspace_relpath (lit "/") (lit "/github/workspace")
       (lit "/github/workspace//dist/./x.tgz")
     = lit "dist/x.tgz".
Proof.
  split; [reflexivity|].
  exact (proj1 (workspace_relpath_below (lit "/") eq_refl
                  (lit "/github/workspace")
                  (lit "/github/workspace//dist/./x.tgz")
                  [lit "dist"; lit "x.tgz"] eq_refl)).
Defined.

(* ------------------------------------------------------------------ *)
(** ** The fold of the values files *)

Lemma load_yaml_file_world (h : host) (path : str) (w : world) :
  snd (load_yaml_file h path w) = w.
Proof.
  unfold load_yaml_file, bindM, read_file, lift, ret.
  destruct (fs_lookup (w_fs w) (locate h path)) as [[data|]|]; simpl;
    try reflexivity.
  now destruct (yaml_safe_load h data).
Qed.

Lemma merge_values_files_world (h : host) (chart_path : str)
    (values_files : list str) (merged_values : value) (w : world) :
  snd (merge_values_files h chart_path values_files merged_values w) = w.
Proof.
  revert merged_values.
  induction values_files as [|rel rest IH]; intros merged_values; simpl;
    [reflexivity|].
  rewrite bindM_isfile.
  destruct (negb (is_file (w_fs w) _)); [reflexivity|].
  unfold bindM at 1.
  pose proof (load_yaml_file_world h
                (normpath (path_join chart_path rel)) w) as Hw.
  destruct (load_yaml_file h (normpath (path_join chart_path rel)) w)
    as [[doc|e] w']; simpl in Hw; subst w'; [apply IH | reflexivity].
Qed.

(** X16: reading and merging the values files changes nothing: whatever
    the files are, the world after [merge_values_files] is the world
    before, trace and file system alike. *)
Theorem merge_values_files_reads_only (h : host) (chart_path : str)
    (values_files : list str) (merged_values : value) (w : world) :
  snd (merge_values_files h chart_path values_files merged_values w) = w.
Proof. apply merge_values_files_world. Qed.

(** X17: when every reference names a file that loads, the merged
    document is the left fold of [deep_merge_values] over the documents
    in list order, starting from the accumulator: a later file overrides
    an earlier one. *)
Theorem merge_values_files_fold (h : host) (chart_path : str)
    (values_files : list str) (docs : list value) (merged_values : value)
    (w : world) :
  Forall2 (loads_as h chart_path w) values_files docs ->
  merge_values_files h chart_path values_files merged_values w
  = (Ok (fold_left deep_merge_values docs merged_values), w).
Proof.
  intros H. revert merged_values.
  induction H as [|rel doc rest docs [Hfile Hload] _ IH];
    intros merged_values; simpl; [reflexivity|].
  rewrite bindM_isfile. unfold values_src in *. rewrite Hfile. cbn [negb].
  unfold bindM at 1. rewrite Hload. apply IH.
Qed.

Lemma loads_as_nested_base :
  loads_as demo_host (lit "/github/workspace/charts/my") (start nested_fs)
    (lit "values.yaml") test_base.
Proof. split; vm_compute; reflexivity. Qed.

Lemma loads_as_nested_override :
  loads_as demo_host (lit "/github/workspace/charts/my") (start nested_fs)
    (lit "values.dev.yaml") test_override.
Proof. split; vm_compute; reflexivity. Qed.

Lemma merge_values_files_fold_witness :
  merge_values_files demo_host (lit "/github/workspace/charts/my")
    [lit "values.yaml"; lit "values.dev.yaml"] (VMap []) (start nested_fs)
  = (Ok (deep_merge_values (deep_merge_values (VMap []) test_base)
           test_override),
     start nested_fs).
Proof.
  exact (merge_values_files_fold demo_host (lit "/github/workspace/charts/my")
           [lit "values.yaml"; lit "values.dev.yaml"]
           [test_base; test_override] (VMap []) (start nested_fs)
           (Forall2_cons _ _ loads_as_nested_base
              (Forall2_cons _ _ loads_as_nested_override
                 (Forall2_nil _)))).
Defined.

(** X18: the fold stops at the first reference that is not a file: the
    error names the normalized path that was looked for, and the
    references after it are not read. *)
Theorem merge_values_files_missing (h : host) (chart_path : str)
    (good : list str) (docs : list value) (bad : str) (rest : list str)
    (merged_values : value) (w : world) :
  Forall2 (loads_as h chart_path w) good docs ->
  is_file (w_fs w) (locate h (values_src chart_path bad)) = false ->
  merge_values_files h chart_path (good ++ bad :: rest) merged_values w
  = (Err (lit "Values file not found: " ++ values_src chart_path bad), w).
Proof.
  intros H Hbad. revert merged_values.
  induction H as [|rel doc good docs [Hfile Hload] _ IH];
    intros merged_values; simpl.
  - rewrite bindM_isfile. unfold values_src in *. now rewrite Hbad.
  - rewrite bindM_isfile. unfold values_src in *. rewrite Hfile.
    cbn [negb]. unfold bindM at 1. rewrite Hload. apply IH.
Qed.

Lemma merge_values_files_missing_witness :
  merge_values_files demo_host (lit "/github/workspace/charts/my")
    [lit "values.yaml"; lit "nope.yaml"; lit "values.dev.yaml"] (VMap [])
    (start nested_fs)
  = (Err (lit "Values file not found: /github/workspace/charts/my/nope.yaml"),
     start nested_fs).
Proof.
  exact (merge_values_files_missing demo_host
           (lit "/github/workspace/charts/my")
           [lit "values.yaml"] [test_base] (lit "nope.yaml")
           [lit "values.dev.yaml"] (VMap []) (start nested_fs)
           (Forall2_cons _ _ loads_as_nested_base (Forall2_nil _))
           eq_refl).
Defined.

(* ------------------------------------------------------------------ *)
(** ** The message of the tool *)

Lemma re_search_skip (items : list regex_item) (c : ascii) (s : str) :
  match_here items [] (c :: s) = None ->
  re_search items (c :: s) = re_search items s.
Proof. intros H. simpl. now rewrite H. Qed.

Lemma re_search_here (items : list regex_item) (s g : str) :
  match_here items [] s = Some g -> re_search items s = Some g.
Proof. intros H. destruct s; simpl; now rewrite H. Qed.

(** The end of the pattern, [\s*$], right before a line end. *)
Lemma star_space_at_line_end (g acc s : str) :
  at_end_of_line s = true ->
  star_greedy Whitespace acc
    (fun _ rest => match_here [EndOfLine] g rest) s = Some g.
Proof.
  revert acc. induction s as [|c s IH]; intros acc Hend; [reflexivity|].
  cbn [star_greedy]. destruct (in_class Whitespace c).
  - assert (forall a r x,
              star_greedy Whitespace a
                (fun _ rest => match_here [EndOfLine] g rest) r = Some x ->
              x = g) as Hany.
    { clear. intros a r. revert a. induction r as [|c r IH]; intros a x.
      - cbn. congruence.
      - cbn [star_greedy]. destruct (in_class Whitespace c).
        + destruct (star_greedy Whitespace (a ++ [c]) _ r) eqn:E.
          * intros H. injection H as <-. now apply (IH _ _ E).
          * cbn [match_here at_end_of_line].
            destruct (Ascii.eqb c newline); congruence.
        + cbn [match_here at_end_of_line].
          destruct (Ascii.eqb c newline); congruence. }
    destruct (star_greedy Whitespace (acc ++ [c]) _ s) eqn:E.
    + f_equal. now apply (Hany _ _ _ E).
    + cbn [match_here]. now rewrite Hend.
  - cbn [match_here]. now rewrite Hend.
Qed.

(** The group [(.+)] takes a line up to its end. *)
Lemma star_dot_line (q rest acc : str) :
  ~ In newline q ->
  star_greedy Dot acc
    (fun g rest' => match_here [Star Whitespace; EndOfLine] g rest')
    (q ++ newline :: rest)
  = Some (acc ++ q).
Proof.
  revert acc. induction q as [|c q IH]; intros acc Hq.
  - cbn [app star_greedy].
    change (in_class Dot newline) with false. cbv iota.
    rewrite app_nil_r. cbn [match_here].
    apply star_space_at_line_end. apply Ascii.eqb_refl.
  - cbn [app star_greedy].
    assert (in_class Dot c = true) as ->.
    { simpl. apply negb_true_iff. destruct (Ascii.eqb c newline) eqn:E;
        [|reflexivity].
      apply Ascii.eqb_eq in E. subst c. exfalso. apply Hq. now left. }
    rewrite IH by (intros Hin; apply Hq; now right).
    now rewrite <- app_assoc.
Qed.

Lemma trimmed_head (path : str) :
  path <> [] -> strip path = path ->
  exists c t, path = c :: t /\ py_isspace c = false.
Proof.
  intros Hne Hs. destruct (strip_is_trimmed path) as [H1 _].
  rewrite Hs in H1. destruct path as [|c t]; [congruence|].
  exists c, t. split; [reflexivity|]. simpl in H1.
  destruct (py_isspace c) eqn:E; [|reflexivity].
  exfalso. apply (f_equal (@length ascii)) in H1. simpl in H1.
  assert (length (lstrip t) <= length t) as Hle.
  { clear. induction t as [|a t IH]; simpl; [lia|].
    destruct (py_isspace a); simpl; lia. }
  lia.
Qed.

Lemma match_here_saved_line (path rest : str) :
  path <> [] -> strip path = path -> ~ In newline path ->
  match_here saved_pattern []
    (lit "saved it to: " ++ path ++ newline :: rest)
  = Some path.
Proof.
  intros Hne Hs Hnl.
  destruct (trimmed_head path Hne Hs) as (c & t & -> & Hc).
  assert (in_class Dot c = true) as Hdot.
  { simpl. apply negb_true_iff. destruct (Ascii.eqb c newline) eqn:E;
      [|reflexivity].
    apply Ascii.eqb_eq in E. subst c. exfalso. apply Hnl. now left. }
  change (star_greedy Whitespace []
            (fun _ r =>
               match_here [GroupPlus Dot; Star Whitespace; EndOfLine] [] r)
            (" "%char :: (c :: t) ++ newline :: rest)
          = Some (c :: t)).
  cbn [app star_greedy]. change (in_class Whitespace " "%char) with true.
  cbv iota. change (in_class Whitespace c) with (py_isspace c).
  rewrite Hc. cbn [match_here]. unfold plus_greedy. rewrite Hdot.
  rewrite star_dot_line by (intros Hin; apply Hnl; now right).
  reflexivity.
Qed.

(** X19: on the message [helm package] prints, the path reported is the
    path the tool printed, whatever lines follow and whatever archives
    the destination holds. *)
Theorem find_package_path_helm_message (path rest : str)
    (tgzs : list str) (getmtime : str -> Z) :
  path <> [] ->
  strip path = path ->
  ~ In newline path ->
  find_package_path
    (helm_prefix ++ lit "saved it to: " ++ path ++ newline :: rest)
    tgzs getmtime
  = Ok path.
Proof.
  intros Hne Hs Hnl. unfold find_package_path.
  assert (re_search saved_pattern
            (helm_prefix ++ lit "saved it to: " ++ path ++ newline :: rest)
          = Some path) as ->.
  { unfold helm_prefix. cbn [lit list_ascii_of_string app].
    do 32 (rewrite re_search_skip by reflexivity).
    apply re_search_here.
    exact (match_here_saved_line path rest Hne Hs Hnl). }
  rewrite Hs. now destruct path.
Qed.

Lemma find_package_path_helm_message_witness :
  find_package_path (helm_says (lit "/ws/dist/my-1.2.3.tgz"))
    [lit "/ws/dist/old-0.1.0.tgz"] (fun _ => 7%Z)
  = Ok (lit "/ws/dist/my-1.2.3.tgz").
Proof.
  exact (find_package_path_helm_message (lit "/ws/dist/my-1.2.3.tgz") []
           [lit "/ws/dist/old-0.1.0.tgz"] (fun _ => 7%Z)
           ltac:(discriminate) eq_refl
           ltac:(intros H; simpl in H;
                 repeat (destruct H as [H|H]; [discriminate H|]);
                 exact H)).
Defined.

(* ------------------------------------------------------------------ *)
(** ** What [prepare] computes *)

Section Prepared.
Variable h : host.
Variable env : environ.
Variables chart_path_in helm_chart_version helm_chart_app_version : str.
Hypothesis Hchart :
  get_input env (lit "chart_path") None true = Ok chart_path_in.
Hypothesis Hversion :
  get_input env (lit "helm_chart_version") None true = Ok helm_chart_version.
Hypothesis Happ :
  get_input env (lit "helm_chart_app_version") None true
  = Ok helm_chart_app_version.

(** X20: a chart version the parser rejects ends the run with status 1
    and the message that names the version, before anything is
    created, installed or run: file system, trace and output are as they
    were. *)
Theorem main_rejects_invalid_version (w : world) :
  validate_version h helm_chart_version = false ->
  main h env w
  = (1%Z,
     eprint (lit "ERROR: Invalid helm chart version (SemVer required): "
             ++ helm_chart_version) w).
Proof.
  intros Hbad. unfold main, bindM.
  rewrite (@prepare_unfold h env _ _ _ Hchart Hversion Happ w), Hbad.
  reflexivity.
Qed.

(** X21: a chart directory without [Chart.yaml] ends the run with status
    1 and the message that names the path looked for, before anything is
    created, installed or run. *)
Theorem main_rejects_missing_chart_yaml (w : world) :
  validate_version h helm_chart_version = true ->
  is_file (w_fs w)
    (locate h (path_join (resolve_path (workspace_of env) chart_path_in)
                 (lit "Chart.yaml"))) = false ->
  main h env w
  = (1%Z,
     eprint (lit "ERROR: `Chart.yaml` not found at: "
             ++ path_join (resolve_path (workspace_of env) chart_path_in)
                  (lit "Chart.yaml")) w).
Proof.
  intros Hok Hmissing. unfold main, bindM.
  rewrite (@prepare_unfold h env _ _ _ Hchart Hversion Happ w), Hok, Hmissing.
  reflexivity.
Qed.

End Prepared.

Lemma main_rejects_invalid_version_witness :
  main demo_host
    (setenv (lit "INPUT_HELM_CHART_VERSION") (lit "1.2") nested_env)
    (start nested_fs)
  = (1%Z,
     eprint (lit "ERROR: Invalid helm chart version (SemVer required): 1.2")
       (start nested_fs)).
Proof.
  exact (main_rejects_invalid_version demo_host
           (setenv (lit "INPUT_HELM_CHART_VERSION") (lit "1.2") nested_env)
           (lit "charts/my") (lit "1.2") (lit "4.5.6")
           eq_refl eq_refl eq_refl (start nested_fs) eq_refl).
Defined.

Lemma main_rejects_missing_chart_yaml_witness :
  main demo_host
    (setenv (lit "INPUT_CHART_PATH") (lit "charts/none") nested_env)
    (start nested_fs)
  = (1%Z,
     eprint
       (lit "ERROR: `Chart.yaml` not found at: /github/workspace/charts/none/Chart.yaml")
       (start nested_fs)).
Proof.
  exact (main_rejects_missing_chart_yaml demo_host
           (setenv (lit "INPUT_CHART_PATH") (lit "charts/none") nested_env)
           (lit "charts/none") (lit "1.2.3") (lit "4.5.6")
           eq_refl eq_refl eq_refl (start nested_fs) eq_refl eq_refl).
Defined.

(** X22: a required input that is unset or empty ends the run with
    status 1 and the message that names the input and its variable,
    before anything is created, installed or run.  The inputs are asked
    for in the order chart path, chart version, application version. *)
Theorem main_rejects_missing_input (h : host) (env : environ) (w : world) :
  (forall e,
     get_input env (lit "chart_path") None true = Err e ->
     main h env w = (1%Z, eprint (lit "ERROR: " ++ e) w))
  /\ (forall cp e,
        get_input env (lit "chart_path") None true = Ok cp ->
        get_input env (lit "helm_chart_version") None true = Err e ->
        main h env w = (1%Z, eprint (lit "ERROR: " ++ e) w))
  /\ (forall cp cv e,
        get_input env (lit "chart_path") None true = Ok cp ->
        get_input env (lit "helm_chart_version") None true = Ok cv ->
        get_input env (lit "helm_chart_app_version") None true = Err e ->
        main h env w = (1%Z, eprint (lit "ERROR: " ++ e) w))
  /\ ((env (lit "INPUT_CHART_PATH") = None
       \/ env (lit "INPUT_CHART_PATH") = Some []) ->
      main h env w
      = (1%Z,
         eprint
           (lit "ERROR: Missing required input: chart_path (env INPUT_CHART_PATH)")
           w)).
Proof.
  assert (forall e,
            get_input env (lit "chart_path") None true = Err e ->
            main h env w = (1%Z, eprint (lit "ERROR: " ++ e) w)) as H1.
  { intros e He. unfold main, bindM at 1, prepare.
    rewrite bindM_lift, He. reflexivity. }
  split; [exact H1|]. split; [|split].
  - intros cp e Hcp He. unfold main, bindM at 1, prepare.
    rewrite bindM_lift, Hcp. rewrite !bindM_lift, !get_input_default.
    rewrite bindM_lift, He. reflexivity.
  - intros cp cv e Hcp Hcv He. unfold main, bindM at 1, prepare.
    rewrite bindM_lift, Hcp. rewrite !bindM_lift, !get_input_default.
    rewrite bindM_lift, Hcv, bindM_lift, He. reflexivity.
  - intros Hmissing. apply H1. unfold get_input.
    change (input_key (lit "chart_path")) with (lit "INPUT_CHART_PATH").
    destruct Hmissing as [-> | ->]; reflexivity.
Qed.

Lemma prepare_config (h : host) (env : environ) (w : world) (cfg : config) :
  fst (prepare h env w) = Ok cfg ->
  exists cp cv av, cfg = config_of env cp cv av.
Proof.
  destruct (get_input env (lit "chart_path") None true) as [cp|e] eqn:Hcp.
  2:{ unfold prepare. rewrite bindM_lift, Hcp. discriminate. }
  destruct (get_input env (lit "helm_chart_version") None true)
    as [cv|e] eqn:Hcv.
  2:{ unfold prepare. rewrite bindM_lift, Hcp.
      rewrite !bindM_lift, !get_input_default. rewrite bindM_lift, Hcv.
      discriminate. }
  destruct (get_input env (lit "helm_chart_app_version") None true)
    as [av|e] eqn:Hav.
  2:{ unfold prepare. rewrite bindM_lift, Hcp.
      rewrite !bindM_lift, !get_input_default.
      rewrite bindM_lift, Hcv, bindM_lift, Hav. discriminate. }
  rewrite (@prepare_unfold h env cp cv av Hcp Hcv Hav w).
  destruct (negb (validate_version h cv)); [discriminate|].
  destruct (negb (is_file (w_fs w) _)); [discriminate|].
  destruct (makedirs h (destination_of env) w) as [[[]|e] w']; simpl;
    [|discriminate].
  intros [= <-]. now exists cp, cv, av.
Qed.

(* ------------------------------------------------------------------ *)
(** ** Relations every step keeps *)

Section Respects.
Variable R : world -> world -> Prop.
Variable allowed : event -> Prop.
Hypothesis R_refl : forall w, R w w.
Hypothesis R_trans : forall a b c, R a b -> R b c -> R a c.
Hypothesis R_fs : forall fs w, R w (with_fs fs w).
Hypothesis R_log : forall e w, allowed e -> R w (log e w).
Hypothesis allowed_makedirs : forall p, allowed (EvMakedirs p).
Hypothesis allowed_install : forall tag, allowed (EvInstall tag).
Hypothesis allowed_run : forall cmd, allowed (EvRun cmd).
Variable h : host.

Lemma respects_pure (A : Type) (m : M A) :
  (forall w, snd (m w) = w) -> respects R m.
Proof. intros Hm w. rewrite Hm. apply R_refl. Qed.

Lemma respects_bind (A B : Type) (m : M A) (k : A -> M B) :
  respects R m -> (forall a, respects R (k a)) -> respects R (bindM m k).
Proof.
  intros Hm Hk w. unfold bindM. specialize (Hm w).
  destruct (m w) as [[a|e] w1]; simpl in *.
  - eapply R_trans; [exact Hm | apply Hk].
  - exact Hm.
Qed.

Lemma respects_lift (A : Type) (r : result A) : respects R (lift r).
Proof. now apply respects_pure. Qed.

Lemma respects_ret (A : Type) (a : A) : respects R (ret a).
Proof. now apply respects_pure. Qed.

Lemma respects_raise (A : Type) (e : str) : respects R (@raise A e).
Proof. now apply respects_pure. Qed.

Lemma R_log_fs (e : event) (fs : filesystem) (w : world) :
  allowed e -> R w (with_fs fs (log e w)).
Proof.
  intros He. eapply R_trans; [apply R_log, He | apply R_fs].
Qed.

Lemma respects_makedirs (path : str) : respects R (makedirs h path).
Proof.
  intros w. unfold makedirs.
  destruct (makedirs_from _ _ _); simpl;
    [apply R_log_fs | apply R_log]; apply allowed_makedirs.
Qed.

Lemma respects_run (cmd : list str) : respects R (run h cmd).
Proof.
  intros w. unfold run.
  destruct (subprocess_run h cmd _) as [res fs']; simpl.
  apply R_log_fs, allowed_run.
Qed.

Lemma respects_install_helm (helm_version : str) :
  respects R (install_helm h helm_version).
Proof.
  unfold install_helm.
  apply respects_bind; [apply respects_lift | intros version].
  apply respects_bind; [apply respects_lift | intros arch].
  intros w. cbv beta zeta.
  destruct (fetch_and_install h version arch _) as [r fs']; simpl.
  apply R_log_fs, allowed_install.
Qed.

Lemma respects_prepare (env : environ) : respects R (prepare h env).
Proof.
  unfold prepare.
  repeat (apply respects_bind; [apply respects_lift | intros ?]).
  destruct (negb (validate_version h _)); [apply respects_raise|].
  apply respects_bind; [now apply respects_pure | intros found].
  destruct (negb found); [apply respects_raise|].
  apply respects_bind; [apply respects_makedirs | intros _].
  apply respects_ret.
Qed.

Lemma respects_update_dependencies (cfg : config) (chart : str) :
  respects R (update_dependencies h cfg chart).
Proof.
  unfold update_dependencies.
  destruct (dependency_update cfg); [|apply respects_ret].
  apply respects_bind; [apply respects_run | intros dep].
  destruct (negb _); [apply respects_raise | apply respects_ret].
Qed.

Lemma respects_mkdtemp (prefix dir : str) :
  (forall created, allowed (EvMkdtemp created)) ->
  respects R (mkdtemp h prefix dir).
Proof.
  intros Hal w. unfold mkdtemp.
  destruct (negb _); [apply R_refl|].
  destruct (fs_lookup _ _); [apply R_refl|]. simpl.
  eapply R_trans; [apply R_fs | apply R_log, Hal].
Qed.

Lemma respects_copytree (src dst : str) :
  allowed (EvCopytree src dst) -> respects R (copytree h src dst).
Proof.
  intros Hal w. unfold copytree.
  destruct (negb _); [now apply R_log|].
  destruct (fs_lookup _ _); [now apply R_log|].
  destruct (makedirs_from _ _ _); [|now apply R_log].
  destruct (under _ _); simpl; now apply R_log_fs.
Qed.

Lemma respects_write_file (path data : str) :
  allowed (EvOpenWrite path) -> respects R (write_file h path data).
Proof.
  intros Hal w. unfold write_file.
  destruct (negb _); [now apply R_log|].
  destruct (fs_lookup _ _) as [[?|]|]; simpl;
    solve [now apply R_log | now apply R_log_fs].
Qed.

Lemma respects_append_file (path data : str) :
  allowed (EvOpenWrite path) -> respects R (append_file h path data).
Proof.
  intros Hal w. unfold append_file.
  destruct (negb _); [now apply R_log|].
  destruct (fs_lookup _ _) as [[?|]|]; simpl;
    solve [now apply R_log | now apply R_log_fs].
Qed.

Lemma respects_chart_for_packaging (cfg : config) :
  (forall e, match e with EvRun _ => True | _ => allowed e end) ->
  respects R (chart_for_packaging h cfg).
Proof.
  intros Hal. unfold chart_for_packaging.
  destruct (is_nil _); [apply respects_ret|].
  apply respects_bind;
    [apply respects_pure, merge_values_files_world | intros merged].
  apply respects_bind; [|intros dirs; apply respects_ret].
  unfold copy_chart.
  apply respects_bind; [|intros tmp_root].
  { apply respects_mkdtemp. intros created. apply (Hal (EvMkdtemp created)). }
  apply respects_bind; [|intros _].
  { apply respects_copytree. apply (Hal (EvCopytree _ _)). }
  apply respects_bind; [|intros _; apply respects_ret].
  unfold dump_yaml_file. apply respects_write_file.
  apply (Hal (EvOpenWrite _)).
Qed.

Lemma respects_find (out dest : str) :
  respects R
    (fun w =>
       (find_package_path out (glob_tgz h (w_fs w) dest)
          (getmtime h (w_fs w)), w)).
Proof. now apply respects_pure. Qed.

End Respects.

(* ------------------------------------------------------------------ *)
(** ** A run without values files *)








(* ------------------------------------------------------------------ *)
(** ** The standard output of a run *)

Lemma same_stdout_refl (w : world) : same_stdout w w.
Proof. reflexivity. Qed.

Lemma same_stdout_trans (a b c : world) :
  same_stdout a b -> same_stdout b c -> same_stdout a c.
Proof. unfold same_stdout. congruence. Qed.

Lemma same_stdout_fs (fs : filesystem) (w : world) :
  same_stdout w (with_fs fs w).
Proof. reflexivity. Qed.

Lemma same_stdout_log (e : event) (w : world) :
  True -> same_stdout w (log e w).
Proof. reflexivity. Qed.

Lemma reported_from (env : environ) (failed : bool) (w w1 w2 : world) :
  same_stdout w w1 -> reported env failed w1 w2 -> reported env failed w w2.
Proof.
  unfold same_stdout, reported. intros ->. exact (fun H => H).
Qed.

Lemma reports_bind (env : environ) (A B : Type) (m : M A) (k : A -> M B) :
  respects same_stdout m -> (forall a, reports env (k a)) ->
  reports env (bindM m k).
Proof.
  intros Hm Hk w. unfold bindM. specialize (Hm w).
  destruct (m w) as [[a|e] w1]; simpl in *.
  - exact (reported_from env _ w w1 _ Hm (Hk a w1)).
  - exact Hm.
Qed.

Lemma reports_raise (env : environ) (A : Type) (e : str) :
  reports env (@raise A e).
Proof. intros w. reflexivity. Qed.

Lemma reports_write_output (h : host) (env : environ) (val : str) :
  reports env (write_output h env (lit "package_path") val).
Proof.
  intros w. unfold write_output, reported.
  destruct (env (lit "GITHUB_OUTPUT")) as [[|c path]|];
    try (simpl; now exists val).
  pose proof (respects_append_file same_stdout (fun _ => True)
                same_stdout_trans same_stdout_fs same_stdout_log h
                (c :: path)
                (lit "package_path" ++ lit "=" ++ val ++ [newline]) I w)
    as Hsame.
  now destruct (is_err _).
Qed.

Lemma reports_package (h : host) (env : environ) (cfg : config) :
  reports env (package h env cfg).
Proof.
  pose proof (respects_lift same_stdout same_stdout_refl) as Hlift.
  unfold package.
  apply reports_bind; [|intros _].
  { apply (respects_install_helm same_stdout (fun _ => True)
             same_stdout_refl same_stdout_trans same_stdout_fs
             same_stdout_log (fun _ => I)). }
  apply reports_bind; [|intros chart].
  { apply (respects_chart_for_packaging same_stdout (fun _ => True)
             same_stdout_refl same_stdout_trans same_stdout_fs
             same_stdout_log h cfg). now intros []. }
  apply reports_bind; [|intros _].
  { apply (respects_update_dependencies same_stdout (fun _ => True)
             same_stdout_refl same_stdout_trans same_stdout_fs
             same_stdout_log (fun _ => I)). }
  unfold package_and_report.
  apply reports_bind; [apply Hlift | intros cmd].
  apply reports_bind; [|intros res].
  { apply (respects_run same_stdout (fun _ => True)
             same_stdout_trans same_stdout_fs same_stdout_log
             (fun _ => I)). }
  destruct (negb _); [apply reports_raise|].
  apply reports_bind; [|intros package_path; apply reports_write_output].
  apply respects_pure; [apply same_stdout_refl | reflexivity].
Qed.

(** X24: the standard output of a run carries the package path and
    nothing else.  A run that fails (status 1) prints nothing there; a
    run that succeeds (status 0) prints nothing when [GITHUB_OUTPUT]
    names a file, and the one line [package_path=...] when it is unset
    or empty. *)
Theorem main_prints_only_the_package_path (h : host) (env : environ)
    (w : world) :
  (fst (main h env w) = 1%Z
   /\ w_stdout (snd (main h env w)) = w_stdout w)
  \/ (fst (main h env w) = 0%Z
      /\ match env (lit "GITHUB_OUTPUT") with
         | Some (_ :: _) => w_stdout (snd (main h env w)) = w_stdout w
         | _ =>
             exists v,
               w_stdout (snd (main h env w))
               = w_stdout w ++ [lit "package_path=" ++ v]
         end).
Proof.
  assert (reports env (bindM (prepare h env) (package h env))) as Hrep.
  { apply reports_bind; [|intros cfg; apply reports_package].
    apply (respects_prepare same_stdout (fun _ => True)
             same_stdout_refl same_stdout_trans same_stdout_fs
             same_stdout_log (fun _ => I)). }
  specialize (Hrep w). unfold main.
  destruct (bindM (prepare h env) (package h env) w) as [[u|ex] w'];
    simpl in *.
  - right. split; [reflexivity | exact Hrep].
  - left. split; [reflexivity | exact Hrep].
Qed.

(* ------------------------------------------------------------------ *)
(** ** What a run adds to the trace *)

Section Adds.
Variable allowed : event -> Prop.

Lemma adds_only_refl (w : world) : adds_only allowed w w.
Proof. exists []. now rewrite app_nil_r. Qed.

Lemma adds_only_trans (a b c : world) :
  adds_only allowed a b -> adds_only allowed b c -> adds_only allowed a c.
Proof.
  intros [T1 [H1 F1]] [T2 [H2 F2]]. exists (T1 ++ T2). split.
  - now rewrite H2, H1, app_assoc.
  - apply Forall_app. now split.
Qed.

Lemma adds_only_log (e : event) (w : world) :
  allowed e -> adds_only allowed w (log e w).
Proof. intros He. exists [e]. split; [reflexivity | now constructor]. Qed.

Lemma adds_only_fs (fs : filesystem) (w : world) :
  adds_only allowed w (with_fs fs w).
Proof. exists []. simpl. now rewrite app_nil_r. Qed.

Lemma adds_only_eprint (line : str) (w w' : world) :
  adds_only allowed w w' -> adds_only allowed w (eprint line w').
Proof. exact (fun H => H). Qed.

End Adds.

Lemma install_helm_offline (h : host) (helm_version : str) (w : world) :
  (forall version arch fs,
     is_err (fst (fetch_and_install h version arch fs)) = true) ->
  is_err (fst (install_helm h helm_version w)) = true.
Proof.
  intros Hoff. unfold install_helm.
  rewrite bindM_lift. destruct (ensure_v_prefix helm_version) as [version|e];
    [|reflexivity].
  rewrite bindM_lift. destruct (detect_arch h) as [arch|e]; [|reflexivity].
  cbv beta zeta. specialize (Hoff version arch (w_fs (log (EvInstall version) w))).
  now destruct (fetch_and_install h version arch _) as [r fs'].
Qed.

(** X27: when the tool cannot be installed the run ends with status 1,
    and all it has done is make the destination directory and try the
    installation: no command is run, nothing is copied or written. *)
Theorem main_stops_when_install_fails (h : host) (env : environ)
    (w : world) :
  (forall version arch fs,
     is_err (fst (fetch_and_install h version arch fs)) = true) ->
  fst (main h env w) = 1%Z
  /\ exists T,
       w_trace (snd (main h env w)) = w_trace w ++ T
       /\ Forall setup_event T.
Proof.
  intros Hoff.
  pose proof (respects_prepare (adds_only setup_event) setup_event
                (adds_only_refl setup_event) (adds_only_trans setup_event)
                (adds_only_fs setup_event) (adds_only_log setup_event)
                (fun _ => I) h env w) as Hprep.
  pose proof (fun v =>
                respects_install_helm (adds_only setup_event) setup_event
                  (adds_only_refl setup_event) (adds_only_trans setup_event)
                  (adds_only_fs setup_event) (adds_only_log setup_event)
                  (fun _ => I) h v) as Hinst.
  assert (is_err (fst (bindM (prepare h env) (package h env) w)) = true
          /\ adds_only setup_event w
               (snd (bindM (prepare h env) (package h env) w))) as Hrun.
  { change (bindM (prepare h env) (package h env) w)
      with (match prepare h env w with
            | (Ok cfg, w1) => package h env cfg w1
            | (Err e, w1) => (Err e, w1)
            end).
    destruct (prepare h env w) as [[cfg|e] w1]; simpl in Hprep;
      [|split; [reflexivity | exact Hprep]].
    change (package h env cfg w1)
      with (match install_helm h (helm_version cfg) w1 with
            | (Ok a, w2) =>
                bindM (chart_for_packaging h cfg)
                  (fun chart =>
                     bindM (update_dependencies h cfg chart)
                       (fun _ => package_and_report h env cfg chart)) w2
            | (Err e, w2) => (Err e, w2)
            end).
    specialize (Hinst (helm_version cfg) w1).
    pose proof (install_helm_offline h (helm_version cfg) w1 Hoff) as Herr.
    destruct (install_helm h (helm_version cfg) w1) as [[u|e] w2];
      [discriminate|].
    split; [reflexivity|].
    exact (adds_only_trans setup_event _ _ _ Hprep Hinst). }
  unfold main.
  destruct (bindM (prepare h env) (package h env) w) as [[u|ex] w'];
    destruct Hrun as [Herr Hadds]; [discriminate|].
  split; [reflexivity | exact Hadds].
Qed.

Lemma main_stops_when_install_fails_witness :
  fst (main offline_host nested_env (start nested_fs)) = 1%Z
  /\ exists T,
       w_trace (snd (main offline_host nested_env (start nested_fs)))
       = w_trace (start nested_fs) ++ T
       /\ Forall setup_event T.
Proof.
  exact (main_stops_when_install_fails offline_host nested_env
           (start nested_fs) (fun _ _ _ => eq_refl)).
Defined.

Lemma build_helm_package_cmd_head (chart_path destination helm_chart_version
    helm_chart_app_version package_args : str) (cmd : list str) :
  build_helm_package_cmd chart_path destination helm_chart_version
    helm_chart_app_version package_args = Ok cmd ->
  firstn 2 cmd = [lit "helm"; lit "package"].
Proof.
  unfold build_helm_package_cmd.
  destruct (extra_tokens package_args) as [extra|e]; [|discriminate].
  now intros [= <-].
Qed.

(** X28: the dependency update is run only when asked for.  With the
    input [dependency_update] unset, empty or not one of the accepted
    flags, every command the run issues is a [helm package] command. *)
Theorem main_runs_only_helm_package (h : host) (env : environ) (w : world) :
  truthy (input_or env (lit "dependency_update") (lit "false")) = false ->
  exists T,
    w_trace (snd (main h env w)) = w_trace w ++ T
    /\ Forall package_command T.
Proof.
  intros Hoff.
  pose (R := adds_only package_command).
  pose proof (respects_bind R (adds_only_trans package_command)) as Hbind.
  pose proof (respects_ret R (adds_only_refl package_command)) as Hret.
  pose proof (respects_raise R (adds_only_refl package_command)) as Hraise.
  destruct (main_world h env w) as [_ ->].
  unfold bindM.
  pose proof (respects_prepare R package_command
                (adds_only_refl package_command)
                (adds_only_trans package_command)
                (adds_only_fs package_command)
                (adds_only_log package_command)
                (fun _ => I) h env w) as Hprep.
  pose proof (prepare_config h env w) as Hcfg.
  destruct (prepare h env w) as [[cfg|e] w1]; simpl in *; [|exact Hprep].
  destruct (Hcfg cfg eq_refl) as [cp [cv [av ->]]].
  refine (adds_only_trans package_command _ _ _ Hprep _).
  clear Hprep Hcfg. revert w1.
  change (respects R (package h env (config_of env cp cv av))).
  unfold package.
  apply Hbind; [|intros _].
  { apply (respects_install_helm R package_command
             (adds_only_refl package_command)
             (adds_only_trans package_command)
             (adds_only_fs package_command)
             (adds_only_log package_command) (fun _ => I)). }
  apply Hbind; [|intros chart].
  { apply (respects_chart_for_packaging R package_command
             (adds_only_refl package_command)
             (adds_only_trans package_command)
             (adds_only_fs package_command)
             (adds_only_log package_command)). now intros []. }
  apply Hbind; [|intros _].
  { unfold update_dependencies, config_of. simpl dependency_update.
    rewrite Hoff. apply Hret. }
  unfold package_and_report. intros w2. rewrite bindM_lift.
  destruct (build_helm_package_cmd _ _ _ _ _) as [cmd|e] eqn:Hcmd;
    [|apply adds_only_refl].
  apply build_helm_package_cmd_head in Hcmd. revert w2.
  change (respects R
            (bindM (run h cmd)
               (fun res =>
                  if negb (Z.eqb (fst res) 0) then
                    raise (lit "`helm package` failed:" ++ [newline]
                           ++ snd res)
                  else
                    bindM
                      (fun w =>
                         (find_package_path (snd res)
                            (glob_tgz h (w_fs w)
                               (path_join
                                  (destination (config_of env cp cv av))
                                  (lit "*.tgz")))
                            (getmtime h (w_fs w)), w))
                      (fun package_path =>
                         write_output h env (lit "package_path")
                           (workspace_relpath (cwd h)
                              (workspace (config_of env cp cv av))
                              (if negb (isabs package_path)
                               then resolve_path
                                      (workspace (config_of env cp cv av))
                                      package_path
                               else normpath package_path)))))).
  apply Hbind; [|intros res].
  { intros w2. unfold run.
    destruct (subprocess_run h cmd _) as [res fs']; simpl.
    apply (R_log_fs R package_command (adds_only_trans package_command)
             (adds_only_fs package_command)
             (adds_only_log package_command)).
    exact Hcmd. }
  destruct (negb _); [apply Hraise|].
  apply Hbind; [apply respects_pure;
                [apply (adds_only_refl package_command) | reflexivity]|].
  intros package_path. unfold write_output.
  destruct (env (lit "GITHUB_OUTPUT")) as [[|c path]|];
    try (intros w3; exists []; simpl; split; [now rewrite app_nil_r|];
         constructor).
  apply (respects_append_file R package_command
           (adds_only_trans package_command)
           (adds_only_fs package_command)
           (adds_only_log package_command)).
  exact I.
Qed.

Lemma main_runs_only_helm_package_witness :
  exists T,
    w_trace (snd (main demo_host nested_env (start nested_fs)))
    = w_trace (start nested_fs) ++ T
    /\ Forall package_command T.
Proof.
  exact (main_runs_only_helm_package demo_host nested_env (start nested_fs)
           eq_refl).
Defined.

Lemma temporary_directory_inside_chart_witness :
  under (locate demo_host (lit "/github/workspace"))
    (locate demo_host tmp_root_path) = true
  /\ fs_lookup (w_fs (start root_fs)) (locate demo_host tmp_root_path) = None
  /\ is_dir
       (w_fs (snd (mkdtemp demo_host (lit ".dist-temporary-")
                     (lit "/github/workspace") (start root_fs))))
       (locate demo_host tmp_root_path) = true.
Proof.
  exact (@temporary_directory_inside_chart demo_host
           (lit "/github/workspace") (lit "/github/workspace")
           (start root_fs)
           (snd (mkdtemp demo_host (lit ".dist-temporary-")
                   (lit "/github/workspace") (start root_fs)))
           tmp_root_path eq_refl eq_refl eq_refl).
Defined.

(* ------------------------------------------------------------------ *)
(** ** Plain package arguments *)

Lemma plain_char_lexer (c : ascii) :
  plain_char c = true ->
  py_isspace c = false /\ shlex_whitespace c = false
  /\ shlex_quote c = false /\ shlex_escape c = false.
Proof.
  destruct c as [[] [] [] [] [] [] [] []]; intros H;
    first [discriminate H | now repeat split].
Qed.

Lemma shlex_run_word (t tok rest : str) (quoted : bool) :
  forallb plain_char t = true ->
  shlex_run InWord tok quoted (t ++ rest)
  = shlex_run InWord (tok ++ t) quoted rest.
Proof.
  revert tok. induction t as [|c t IH]; intros tok H.
  - now rewrite app_nil_r.
  - simpl in H. apply andb_prop in H as [Hc H].
    destruct (plain_char_lexer c Hc) as (_ & Hw & Hq & He).
    change ((c :: t) ++ rest) with (c :: (t ++ rest)).
    cbn [shlex_run]. rewrite Hw, Hq, He, (IH _ H), <- app_assoc.
    reflexivity.
Qed.

Lemma shlex_run_start (t rest : str) :
  t <> [] -> forallb plain_char t = true ->
  shlex_run InSpace [] false (t ++ rest) = shlex_run InWord t false rest.
Proof.
  intros Hne H. destruct t as [|c t]; [congruence|].
  simpl in H. apply andb_prop in H as [Hc H].
  destruct (plain_char_lexer c Hc) as (_ & Hw & Hq & He).
  change ((c :: t) ++ rest) with (c :: (t ++ rest)).
  cbn [shlex_run]. rewrite Hw, Hq, He.
  now rewrite (shlex_run_word t [c] rest false H).
Qed.

Lemma shlex_split_join_spaces (words : list str) :
  Forall plain_word words -> shlex_split (join_spaces words) = Ok words.
Proof.
  unfold shlex_split. induction 1 as [|t rest [Hne Ht] Hrest IH];
    [reflexivity|].
  destruct rest as [|t' rest'].
  - cbn [join_spaces]. rewrite <- (app_nil_r t) at 1.
    rewrite (shlex_run_start t [] Hne Ht).
    destruct t; [congruence | reflexivity].
  - change (join_spaces (t :: t' :: rest'))
      with (t ++ " "%char :: join_spaces (t' :: rest')).
    rewrite (shlex_run_start t _ Hne Ht).
    cbn [shlex_run]. change (shlex_whitespace " ") with true. cbv iota.
    rewrite IH. destruct t; [congruence | reflexivity].
Qed.

Lemma strip_keeps_head (c : ascii) (s : str) :
  py_isspace c = false -> is_empty (strip (c :: s)) = false.
Proof.
  intros Hc. unfold strip. cbn [lstrip]. rewrite Hc. unfold rstrip.
  cbn [rev]. destruct (lstrip_keeps_last (rev s) c Hc) as [u ->].
  rewrite rev_app_distr. reflexivity.
Qed.

(** X29: package arguments that are plain words separated by single
    spaces (no whitespace, quote or backslash inside a word) come out as
    they were written: the command is the nine fixed tokens followed by
    exactly these words, in order. *)
Theorem build_helm_package_cmd_plain_words (chart_path destination
    helm_chart_version helm_chart_app_version : str) (words : list str) :
  Forall plain_word words ->
  build_helm_package_cmd chart_path destination helm_chart_version
    helm_chart_app_version (join_spaces words)
  = Ok (fixed_tokens chart_path destination helm_chart_version
          helm_chart_app_version ++ words).
Proof.
  intros Hwords. unfold build_helm_package_cmd, extra_tokens.
  destruct words as [|t rest]; [reflexivity|].
  assert (is_empty (strip (join_spaces (t :: rest))) = false) as ->.
  { inversion Hwords as [|? ? [Hne Ht] _]; subst.
    destruct t as [|c t]; [congruence|].
    simpl in Ht. apply andb_prop in Ht as [Hc _].
    destruct (plain_char_lexer c Hc) as (Hs & _).
    destruct rest; apply strip_keeps_head, Hs. }
  cbn [negb]. now rewrite (shlex_split_join_spaces _ Hwords).
Qed.

Lemma build_helm_package_cmd_plain_words_witness :
  build_helm_package_cmd (lit "/ws/chart") (lit "/ws/dist") (lit "1.2.3")
    (lit "4.5.6") (lit "--dependency-update --debug")
  = Ok (fixed_tokens (lit "/ws/chart") (lit "/ws/dist") (lit "1.2.3")
          (lit "4.5.6")
        ++ [lit "--dependency-update"; lit "--debug"]).
Proof.
  apply (build_helm_package_cmd_plain_words (lit "/ws/chart")
           (lit "/ws/dist") (lit "1.2.3") (lit "4.5.6")
           [lit "--dependency-update"; lit "--debug"]).
  repeat constructor; discriminate.
Defined.
